(** * ExampleFinCalc: retirement and savings projection

    A shallow embedding of [ExampleFinCalc.py]: the income schedule
    resolver (the [income_by_month] dictionary) and the monthly
    simulation loop, together with the part of Python's numeric
    semantics the script relies on.

    Python numbers are modelled as they are at run time: an [int] is an
    unbounded integer ([Z]), a [float] is an IEEE 754 binary64 value
    ([spec_float] at precision 53 and maximal exponent 1024, the
    Standard Library's specification of binary64 arithmetic).  Mixed
    arithmetic converts the [int] operand to [float] first and raises
    [OverflowError] when it does not fit; comparisons between [int] and
    [float] are exact. *)

From Stdlib Require Import ZArith Lia Bool.
From Stdlib Require Import Floats.SpecFloat.
From stdpp Require Import base option list list_numbers gmap.

Local Open Scope Z_scope.

(** ** IEEE 754 binary64 *)

Module B64.

Definition prec : Z := 53.
Definition emax : Z := 1024.

Definition add : spec_float → spec_float → spec_float := SFadd prec emax.
Definition sub : spec_float → spec_float → spec_float := SFsub prec emax.
Definition mul : spec_float → spec_float → spec_float := SFmul prec emax.
Definition div : spec_float → spec_float → spec_float := SFdiv prec emax.
Definition valid : spec_float → bool := valid_binary prec emax.

(** The integer [z] rounded to the nearest binary64 value, ties to
    even; an infinity when [z] is out of range. *)
Definition of_Z (z : Z) : spec_float := binary_normalize prec emax z 0 false.

(** The quotient [a / b] of two integers ([b] not zero) rounded to the
    nearest binary64 value, ties to even. *)
Definition of_quotient (a b : Z) : spec_float :=
  match a, b with
  | Z0, _ => S754_zero (b <? 0)
  | _, Z0 => S754_nan
  | _, _ =>
      div (S754_finite (a <? 0) (Z.to_pos (Z.abs a)) 0)
          (S754_finite (b <? 0) (Z.to_pos (Z.abs b)) 0)
  end.

Definition is_nan (x : spec_float) : bool :=
  match x with S754_nan => true | _ => false end.

Definition is_infinity (x : spec_float) : bool :=
  match x with S754_infinity _ => true | _ => false end.

Definition is_zero (x : spec_float) : bool :=
  match x with S754_zero _ => true | _ => false end.

(** Not a NaN, and not below zero: [+0], [-0], a positive finite value
    or [+inf]. *)
Definition nonneg (x : spec_float) : bool :=
  match x with
  | S754_zero _ => true
  | S754_infinity s | S754_finite s _ _ => negb s
  | S754_nan => false
  end.

(** Carries the sign [s], and is not a NaN. *)
Definition has_sign (s : bool) (x : spec_float) : Prop :=
  match x with
  | S754_zero s' | S754_infinity s' | S754_finite s' _ _ => s' = s
  | S754_nan => False
  end.

(** [num / den] for [0 <= num] and [0 < den], rounded to the nearest
    integer, ties to the even one. *)
Definition div_half_even (num den : Z) : Z :=
  let q := num / den in
  match 2 * (num mod den) ?= den with
  | Lt => q
  | Eq => if Z.even q then q else q + 1
  | Gt => q + 1
  end.

(** The magnitude [m * 2^e] times [10^2], rounded to an integer (ties
    to even): the digits of the shortest decimal with two places that
    is nearest to the binary value. *)
Definition hundredths (m : positive) (e : Z) : Z :=
  match e with
  | Zneg p => div_half_even (Zpos m * 100) (2 ^ Zpos p)
  | _ => Zpos m * 2 ^ e * 100
  end.

(** [round(x, 2)] on a float: the exact binary value is rounded to two
    decimal places (ties to even), and that decimal is rounded to the
    nearest binary64 value.  Zeros, infinities and NaN are returned as
    they are, and the sign is kept when the result is zero. *)
Definition round2 (x : spec_float) : spec_float :=
  match x with
  | S754_finite s m e =>
      match hundredths m e with
      | Zpos q => div (S754_finite s q 0) (S754_finite false 100 0)
      | _ => S754_zero s
      end
  | _ => x
  end.

(** The exact comparison of an integer with a binary64 value. *)
Definition compare_Z (z : Z) (x : spec_float) : option comparison :=
  match x with
  | S754_nan => None
  | S754_infinity s => Some (if s then Gt else Lt)
  | S754_zero _ => Some (z ?= 0)
  | S754_finite s m e =>
      let v := cond_Zopp s (Zpos m) in
      Some match e with
           | Zneg p => z * 2 ^ Zpos p ?= v
           | _ => z ?= v * 2 ^ e
           end
  end.

(** Decimal literals of the script. *)
Definition lit_0_05 : spec_float := S754_finite false 7205759403792794 (-57).
Definition lit_0_07 : spec_float := S754_finite false 5044031582654956 (-56).
Definition zero : spec_float := S754_zero false.

End B64.

(** ** Python numbers *)

Inductive pynum : Type :=
| PyInt (z : Z)
| PyFloat (x : spec_float).

(** [float(z)]: [None] stands for [OverflowError]. *)
Definition float_of_int (z : Z) : option spec_float :=
  let x := B64.of_Z z in
  if B64.is_infinity x then None else Some x.

Definition to_float (a : pynum) : option spec_float :=
  match a with
  | PyInt z => float_of_int z
  | PyFloat x => Some x
  end.

Definition float_binop (op : spec_float → spec_float → spec_float)
    (a b : pynum) : option pynum :=
  x ← to_float a; y ← to_float b; Some (PyFloat (op x y)).

Definition py_add (a b : pynum) : option pynum :=
  match a, b with
  | PyInt x, PyInt y => Some (PyInt (x + y))
  | _, _ => float_binop B64.add a b
  end.

Definition py_sub (a b : pynum) : option pynum :=
  match a, b with
  | PyInt x, PyInt y => Some (PyInt (x - y))
  | _, _ => float_binop B64.sub a b
  end.

Definition py_mul (a b : pynum) : option pynum :=
  match a, b with
  | PyInt x, PyInt y => Some (PyInt (x * y))
  | _, _ => float_binop B64.mul a b
  end.

(** [a / b]: [None] stands for [ZeroDivisionError] or [OverflowError]. *)
Definition py_truediv (a b : pynum) : option pynum :=
  match a, b with
  | PyInt x, PyInt y =>
      if decide (y = 0) then None
      else let q := B64.of_quotient x y in
           if B64.is_infinity q then None else Some (PyFloat q)
  | _, _ =>
      x ← to_float a; y ← to_float b;
      if B64.is_zero y then None else Some (PyFloat (B64.div x y))
  end.

Definition py_compare (a b : pynum) : option comparison :=
  match a, b with
  | PyInt x, PyInt y => Some (x ?= y)
  | PyInt x, PyFloat y => B64.compare_Z x y
  | PyFloat x, PyInt y => CompOpp <$> B64.compare_Z y x
  | PyFloat x, PyFloat y => SFcompare x y
  end.

(** [a < b] and [a <= b]; both are false when a NaN is involved. *)
Definition py_lt (a b : pynum) : bool :=
  match py_compare a b with Some Lt => true | _ => false end.

Definition py_le (a b : pynum) : bool :=
  match py_compare a b with Some (Lt | Eq) => true | _ => false end.

(** [min(a, b)] keeps [a] unless [b < a]; [max(a, b)] keeps [a] unless
    [b > a]. *)
Definition py_min (a b : pynum) : pynum := if py_lt b a then b else a.
Definition py_max (a b : pynum) : pynum := if py_lt a b then b else a.

(** [round(a, 2)]: an [int] is returned unchanged. *)
Definition py_round2 (a : pynum) : pynum :=
  match a with
  | PyInt z => PyInt z
  | PyFloat x => PyFloat (B64.round2 x)
  end.

(** [sum(l)] over a list of [int]s. *)
Definition py_sum (l : list Z) : Z := foldl Z.add 0 l.

(** ** The script's inputs *)

(** An entry of [income_schedule]. *)
Record income_period : Type := {
  start_year : Z;
  end_year : Z;
  monthly_income : Z
}.

(** An entry of [inheritances]. *)
Module Inh.
Record t : Type := mk { month : Z; amount : Z }.
End Inh.

(** What the widgets return.  [savings_pct] is the value of the
    "Savings Rate (%)" slider, before the division by 100. *)
Record inputs : Type := {
  loan_balance : Z;
  loan_payment : Z;
  savings_pct : Z;
  years : Z;
  retirement_year : Z;
  inheritances : list Inh.t;
  income_schedule : list income_period
}.

(** The entry the inheritance widgets append for a year and an amount. *)
Definition inheritance_entry (year amount : Z) : Inh.t :=
  Inh.mk (year * 12) amount.

(** ** Model parameters *)

Definition loan_interest_annual : spec_float := B64.lit_0_05.
Definition investment_return_annual : spec_float := B64.lit_0_07.
Definition loan_interest_monthly : spec_float :=
  B64.div loan_interest_annual (B64.of_Z 12).
Definition investment_return_monthly : spec_float :=
  B64.div investment_return_annual (B64.of_Z 12).

(** ** Income mapping by month *)

(** [range(a, b)]. *)
Definition py_range (a b : Z) : list Z := seqZ a (b - a).

(** The inner loop over the months of one period. *)
Definition add_period (retirement_month : Z) (income_by_month : gmap Z Z)
    (period : income_period) : gmap Z Z :=
  let start_month := (start_year period - 1) * 12 + 1 in
  let end_month := end_year period * 12 in
  foldl (λ acc month,
           if decide (month ≤ retirement_month)
           then <[month := monthly_income period]> acc
           else acc)
        income_by_month (py_range start_month (end_month + 1)).

Definition income_by_month (income_schedule : list income_period)
    (retirement_month : Z) : gmap Z Z :=
  foldl (add_period retirement_month) ∅ income_schedule.

(** ** Simulation loop *)

(** A dictionary appended to [rows]. *)
Record row : Type := {
  Year : Z;
  Month : Z;
  Income : Z;
  LoanBalance : pynum;
  LoanPayment : pynum;
  RemainingIncome : pynum;
  SavedThisMonth : pynum;
  TotalInvested : pynum;
  Inheritance : Z
}.

(** The variables of one iteration, as they stand when the row is
    appended; [f_accrued] is [loan] right after the interest line. *)
Record frame : Type := {
  f_month : Z;
  f_year : Z;
  f_current_income : Z;
  f_accrued : pynum;
  f_loan_payment_actual : pynum;
  f_loan : pynum;
  f_loan_paid_off_month : option Z;
  f_leftover : pynum;
  f_savings_contrib : pynum;
  f_inheritance_this_month : Z;
  f_invested : pynum
}.

Definition row_of (f : frame) : row := {|
  Year := f_year f;
  Month := f_month f;
  Income := f_current_income f;
  LoanBalance := py_round2 (py_max (f_loan f) (PyInt 0));
  LoanPayment := py_round2 (f_loan_payment_actual f);
  RemainingIncome := py_round2 (f_leftover f);
  SavedThisMonth := py_round2 (f_savings_contrib f);
  TotalInvested := py_round2 (f_invested f);
  Inheritance := f_inheritance_this_month f
|}.

(** The variables carried from one iteration to the next.  [trace] is
    not in the script: it keeps the frame of every iteration, in order,
    so that the unrounded values can be stated. *)
Record state : Type := {
  loan : pynum;
  invested : pynum;
  rows : list row;
  loan_paid_off_month : option Z;
  trace : list frame
}.

Definition inheritance_this_month (inheritances : list Inh.t) (month : Z) : Z :=
  py_sum (Inh.amount <$> filter (λ inh, Inh.month inh = month) inheritances).

Section Loop.

Variable income_by_month : gmap Z Z.
Variable loan_payment : Z.
Variable savings_rate : pynum.
Variable inheritances : list Inh.t.

(** The body of [for month in range(1, months + 1)]. *)
Definition iteration (st : state) (month : Z) : option frame :=
  let year := (month - 1) `div` 12 + 1 in
  let current_income := default 0 (income_by_month !! month) in
  interest ← py_mul (loan st) (PyFloat loan_interest_monthly);
  accrued ← py_add (loan st) interest;
  let loan_payment_actual := py_min accrued (PyInt loan_payment) in
  loan' ← py_sub accrued loan_payment_actual;
  let paid_off :=
    if py_le loan' (PyInt 0) && bool_decide (loan_paid_off_month st = None)
    then Some month else loan_paid_off_month st in
  leftover ← py_sub (PyInt current_income) loan_payment_actual;
  savings_contrib ←
    (if py_le loan' (PyInt 0) then py_mul leftover savings_rate
     else Some (PyFloat B64.zero));
  let inh := inheritance_this_month inheritances month in
  growth ← py_add (PyInt 1) (PyFloat investment_return_monthly);
  grown ← py_mul (invested st) growth;
  saved ← py_add grown savings_contrib;
  invested' ← py_add saved (PyInt inh);
  Some {| f_month := month;
          f_year := year;
          f_current_income := current_income;
          f_accrued := accrued;
          f_loan_payment_actual := loan_payment_actual;
          f_loan := loan';
          f_loan_paid_off_month := paid_off;
          f_leftover := leftover;
          f_savings_contrib := savings_contrib;
          f_inheritance_this_month := inh;
          f_invested := invested' |}.

Definition advance (st : state) (f : frame) : state := {|
  loan := f_loan f;
  invested := f_invested f;
  rows := rows st ++ [row_of f];
  loan_paid_off_month := f_loan_paid_off_month f;
  trace := trace st ++ [f]
|}.

Fixpoint simulation_loop (months : list Z) (st : state) : option state :=
  match months with
  | [] => Some st
  | month :: rest =>
      f ← iteration st month;
      simulation_loop rest (advance st f)
  end.

End Loop.

Definition initial_state (loan_balance : Z) : state := {|
  loan := PyInt loan_balance;
  invested := PyFloat B64.zero;
  rows := [];
  loan_paid_off_month := None;
  trace := []
|}.

(** The script from the model parameters to the end of the simulation
    loop; [None] stands for an uncaught [OverflowError]. *)
Definition projection (i : inputs) : option state :=
  savings_rate ← py_truediv (PyInt (savings_pct i)) (PyInt 100);
  let months := years i * 12 in
  let retirement_month := retirement_year i * 12 in
  simulation_loop
    (income_by_month (income_schedule i) retirement_month)
    (loan_payment i) savings_rate (inheritances i)
    (py_range 1 (months + 1)) (initial_state (loan_balance i)).

(** ** Vocabulary of the statements *)

(** The months an income period spans. *)
Definition covers (period : income_period) (month : Z) : Prop :=
  (start_year period - 1) * 12 + 1 ≤ month ≤ end_year period * 12.

(** The carried variables at the start of iteration [k] (counted from
    0) of a run whose frames are [tr]. *)
Definition state_before (i : inputs) (tr : list frame) (k : nat) : state :=
  foldl advance (initial_state (loan_balance i)) (take k tr).

(** [g], at index [j] of the trace, is the first frame whose balance
    after the payment is at most zero. *)
Definition first_paid (tr : list frame) (j : nat) (g : frame) : Prop :=
  tr !! j = Some g ∧ py_le (f_loan g) (PyInt 0) = true ∧
  ∀ (j' : nat) g', (j' < j)%nat → tr !! j' = Some g' →
                   py_le (f_loan g') (PyInt 0) = false.

(** A float of the model is a well-formed binary64 value. *)
Definition py_valid (a : pynum) : Prop :=
  match a with
  | PyInt _ => True
  | PyFloat x => B64.valid x = true
  end.

(** What the input provider guarantees: the ranges of the sliders and
    number inputs, amounts that are not negative, and integers within
    the range a number input can return (strictly between [-2^53] and
    [2^53]). *)
Record valid_inputs (i : inputs) : Prop := {
  valid_loan_balance : 0 ≤ loan_balance i < 2 ^ 53;
  valid_loan_payment : 0 ≤ loan_payment i < 2 ^ 53;
  valid_savings_pct : 0 ≤ savings_pct i ≤ 100;
  valid_years : 5 ≤ years i ≤ 40;
  valid_retirement_year : 1 ≤ retirement_year i ≤ years i;
  valid_inheritance_count : (length (inheritances i) ≤ 3)%nat;
  valid_inheritances :
    Forall (λ inh, (∃ year, 1 ≤ year ≤ years i ∧ Inh.month inh = year * 12) ∧
                   0 ≤ Inh.amount inh < 2 ^ 53)
           (inheritances i);
  valid_period_count : (1 ≤ length (income_schedule i) ≤ 5)%nat;
  valid_income_schedule :
    Forall (λ period, 1 ≤ start_year period ≤ 100 ∧
                      start_year period ≤ end_year period ≤ 100 ∧
                      0 ≤ monthly_income period < 2 ^ 53)
           (income_schedule i)
}.

(** The loan lines of the loop body alone, for one month: the balance
    carried in, the balance after interest, the payment, and the
    balance after the payment. *)
Record loan_lines : Type := {
  ll_month : Z;
  ll_before : pynum;
  ll_accrued : pynum;
  ll_paid : pynum;
  ll_after : pynum
}.

Definition loan_update (loan_payment : Z) (month : Z) (loan : pynum)
    : option loan_lines :=
  interest ← py_mul loan (PyFloat loan_interest_monthly);
  accrued ← py_add loan interest;
  let loan_payment_actual := py_min accrued (PyInt loan_payment) in
  loan' ← py_sub accrued loan_payment_actual;
  Some {| ll_month := month; ll_before := loan; ll_accrued := accrued;
          ll_paid := loan_payment_actual; ll_after := loan' |}.

(** The loan lines of [n] months, starting at [month] with the balance
    [loan]. *)
Fixpoint loan_path (loan_payment : Z) (n : nat) (month : Z) (loan : pynum)
    : list loan_lines :=
  match n with
  | O => []
  | S n' =>
      match loan_update loan_payment month loan with
      | Some ll => ll :: loan_path loan_payment n' (month + 1) (ll_after ll)
      | None => []
      end
  end.

(** The [LoanBalance] field a balance is shown as. *)
Definition shown (loan : pynum) : pynum := py_round2 (py_max loan (PyInt 0)).

(** The scenario of the specification: a balance of 20000 paid off at
    500 a month.  [scenario_month] is what is checked of each month:
    the balance falls, also as shown; before month 44 it stays above
    zero and the accrued balance stays above the payment; from month 44
    on the accrued balance is at most the payment and the balance is
    [+0.0]. *)
Definition scenario_path : list loan_lines :=
  Eval vm_compute in loan_path 500 480 1 (PyInt 20000).

Definition is_pos_zero (a : pynum) : bool :=
  match a with PyFloat (S754_zero false) => true | _ => false end.

Definition scenario_month (ll : loan_lines) : bool :=
  if ll_month ll <? 44 then
    py_lt (ll_after ll) (ll_before ll) &&
    py_lt (shown (ll_after ll)) (shown (ll_before ll)) &&
    py_lt (PyInt 0) (ll_after ll) &&
    negb (py_le (ll_after ll) (PyInt 0)) &&
    py_lt (PyInt 500) (ll_accrued ll)
  else
    (if ll_month ll =? 44
     then py_lt (ll_after ll) (ll_before ll) &&
          py_lt (shown (ll_after ll)) (shown (ll_before ll))
     else true) &&
    py_le (ll_accrued ll) (PyInt 500) &&
    py_le (ll_after ll) (PyInt 0) &&
    is_pos_zero (ll_after ll) &&
    is_pos_zero (shown (ll_after ll)).

(** The scenario as inputs: no income, nothing saved, no inheritance. *)
Definition scenario_inputs : inputs := {|
  loan_balance := 20000;
  loan_payment := 500;
  savings_pct := 0;
  years := 5;
  retirement_year := 5;
  inheritances := [];
  income_schedule :=
    [ {| start_year := 1; end_year := 5; monthly_income := 0 |} ]
|}.

(** Inputs the widgets accept, with a negative balance and a negative
    payment. *)
Definition negative_inputs : inputs := {|
  loan_balance := -1000;
  loan_payment := -100;
  savings_pct := 20;
  years := 5;
  retirement_year := 5;
  inheritances := [];
  income_schedule :=
    [ {| start_year := 1; end_year := 5; monthly_income := 4000 |} ]
|}.

(** A run used to exercise the statements: two overlapping income
    periods, retirement after year 3, two inheritances in month 24. *)
Definition sample_inputs : inputs := {|
  loan_balance := 20000;
  loan_payment := 500;
  savings_pct := 20;
  years := 5;
  retirement_year := 3;
  inheritances := [Inh.mk 24 50000; Inh.mk 24 1000];
  income_schedule :=
    [ {| start_year := 1; end_year := 3; monthly_income := 4000 |};
      {| start_year := 2; end_year := 4; monthly_income := 5000 |} ]
|}.

(** ** Progress overview *)

(** [df_projection[column][-1]]: the data frame is taken to hold the
    rows as they were appended, so the last entry of a column is that
    field of the last row.  [None] stands for the error raised when
    there is no row. *)
Definition last_entry (column : row → pynum) (st : state) : option pynum :=
  column <$> last (rows st).

Definition final_loan_balance (st : state) : option pynum :=
  last_entry LoanBalance st.

Definition loan_paid (i : inputs) (st : state) : option pynum :=
  final ← final_loan_balance st;
  py_sub (PyInt (loan_balance i)) final.

Definition loan_progress (i : inputs) (st : state) : option pynum :=
  paid ← loan_paid i st;
  if decide (0 < loan_balance i)
  then py_truediv paid (PyInt (loan_balance i))
  else Some (PyInt 1).

Definition final_investment (st : state) : option pynum :=
  last_entry TotalInvested st.

(** The month and the year the success message shows.  [None]: the
    message is not shown, [if loan_paid_off_month:] being false for
    [None] and for [0]. *)
Definition payoff_message (st : state) : option (Z * Z) :=
  match loan_paid_off_month st with
  | Some m => if decide (m = 0) then None else Some (m, m `div` 12)
  | None => None
  end.

(** ** Further vocabulary *)

(** The [inheritances] list the widgets build from the years and
    amounts entered. *)
Definition inheritances_of (entries : list (Z * Z)) : list Inh.t :=
  (λ e, inheritance_entry e.1 e.2) <$> entries.

(** A loan that is already paid when the simulation starts. *)
Definition no_loan_inputs : inputs := {|
  loan_balance := 0;
  loan_payment := 500;
  savings_pct := 20;
  years := 5;
  retirement_year := 5;
  inheritances := [];
  income_schedule :=
    [ {| start_year := 1; end_year := 5; monthly_income := 4000 |} ]
|}.

(** The sample run simulated for one more year. *)
Definition longer_sample_inputs : inputs := {|
  loan_balance := 20000;
  loan_payment := 500;
  savings_pct := 20;
  years := 6;
  retirement_year := 3;
  inheritances := [Inh.mk 24 50000; Inh.mk 24 1000];
  income_schedule :=
    [ {| start_year := 1; end_year := 3; monthly_income := 4000 |};
      {| start_year := 2; end_year := 4; monthly_income := 5000 |} ]
|}.

(** A fixed payment below the monthly interest: the loan grows. *)
Definition growing_loan_inputs : inputs := {|
  loan_balance := 20000;
  loan_payment := 50;
  savings_pct := 20;
  years := 5;
  retirement_year := 5;
  inheritances := [];
  income_schedule :=
    [ {| start_year := 1; end_year := 5; monthly_income := 4000 |} ]
|}.


(** * Proofs *)

(** ** Binary64 rounding *)

(** Arithmetic goals with powers of two: every power becomes an opaque
    positive number before [lia] or [nia] runs. *)
Ltac hide_pow e :=
  let Hx := fresh "Hpw" in
  first [ assert (Hx : 0 < 2 ^ e) by (apply Z.pow_pos_nonneg; lia)
        | pose proof (Z.pow_nonneg 2 e ltac:(lia)) as Hx ];
  generalize dependent (2 ^ e); intros.

Ltac hide_pows :=
  repeat match goal with
         | |- context [2 ^ ?e] => hide_pow e
         | H : context [2 ^ ?e] |- _ => hide_pow e
         end.

Ltac plia := hide_pows; lia.
Ltac pnia := hide_pows; nia.

Section Digits.

Lemma digits2_pos_bounds (p : positive) :
  2 ^ (Zpos (digits2_pos p) - 1) ≤ Zpos p < 2 ^ Zpos (digits2_pos p).
Proof.
  induction p as [p IH|p IH|]; simpl digits2_pos.
  - rewrite Pos2Z.inj_succ, Pos2Z.inj_xI.
    replace (Z.succ (Zpos (digits2_pos p)) - 1) with (Z.succ (Zpos (digits2_pos p) - 1)) by lia.
    rewrite !Z.pow_succ_r by lia. plia.
  - rewrite Pos2Z.inj_succ. change (Zpos p~0) with (2 * Zpos p).
    replace (Z.succ (Zpos (digits2_pos p)) - 1) with (Z.succ (Zpos (digits2_pos p) - 1)) by lia.
    rewrite !Z.pow_succ_r by lia. plia.
  - simpl. lia.
Qed.

Lemma Zdigits2_bounds (m : Z) :
  0 < m → 2 ^ (Zdigits2 m - 1) ≤ m < 2 ^ Zdigits2 m.
Proof. destruct m as [|p|p]; try lia. intros _. apply digits2_pos_bounds. Qed.

Lemma Zdigits2_pos (m : Z) : 0 < m → 0 < Zdigits2 m.
Proof. destruct m; simpl; lia. Qed.

Lemma Zdigits2_unique (m d : Z) :
  2 ^ (d - 1) ≤ m < 2 ^ d → 0 < m → Zdigits2 m = d.
Proof.
  intros [Hlo Hhi] Hm.
  pose proof (Zdigits2_bounds m Hm) as [Hlo' Hhi'].
  pose proof (Zdigits2_pos m Hm) as Hd.
  assert (0 < d).
  { destruct (Z_lt_le_dec 0 d) as [|Hle]; [done|].
    destruct (Z.eq_dec d 0) as [->|]; [simpl in Hhi; lia|].
    rewrite Z.pow_neg_r in Hhi by lia. lia. }
  destruct (Z.lt_trichotomy (Zdigits2 m) d) as [Hlt|[Heq|Hgt]]; [|done|].
  - assert (2 ^ Zdigits2 m ≤ 2 ^ (d - 1)) by (apply Z.pow_le_mono_r; lia). lia.
  - assert (2 ^ d ≤ 2 ^ (Zdigits2 m - 1)) by (apply Z.pow_le_mono_r; lia). lia.
Qed.

Lemma Zdigits2_mul_pow2 (m k : Z) :
  0 < m → 0 ≤ k → Zdigits2 (m * 2 ^ k) = Zdigits2 m + k.
Proof.
  intros Hm Hk. pose proof (Zdigits2_bounds m Hm) as [Hlo Hhi].
  pose proof (Zdigits2_pos m Hm).
  assert (0 < 2 ^ k) by (apply Z.pow_pos_nonneg; lia).
  apply Zdigits2_unique; [|nia].
  replace (Zdigits2 m + k - 1) with (Zdigits2 m - 1 + k) by lia.
  rewrite !Z.pow_add_r by lia. nia.
Qed.

Lemma Zdigits2_div_pow2 (m k : Z) :
  0 < m → 0 ≤ k < Zdigits2 m → Zdigits2 (m / 2 ^ k) = Zdigits2 m - k.
Proof.
  intros Hm Hk. pose proof (Zdigits2_bounds m Hm) as [Hlo Hhi].
  assert (0 < 2 ^ k) by (apply Z.pow_pos_nonneg; lia).
  assert (Hlo' : 2 ^ (Zdigits2 m - k - 1) ≤ m / 2 ^ k).
  { apply Z.div_le_lower_bound; [lia|].
    rewrite <- Z.pow_add_r by lia.
    replace (k + (Zdigits2 m - k - 1)) with (Zdigits2 m - 1) by lia. done. }
  assert (0 < 2 ^ (Zdigits2 m - k - 1)) by (apply Z.pow_pos_nonneg; lia).
  apply Zdigits2_unique; [split; [done|]|lia].
  apply Z.div_lt_upper_bound; [lia|].
  rewrite <- Z.pow_add_r by lia.
  replace (k + (Zdigits2 m - k)) with (Zdigits2 m) by lia. done.
Qed.

Lemma Zdigits2_le (m n : Z) : 0 < m → m ≤ n → Zdigits2 m ≤ Zdigits2 n.
Proof.
  intros Hm Hmn.
  pose proof (Zdigits2_bounds m Hm) as [Hlo _].
  pose proof (Zdigits2_bounds n ltac:(lia)) as [_ Hhi].
  destruct (Z_lt_le_dec (Zdigits2 n) (Zdigits2 m)) as [Hlt|]; [|done].
  pose proof (Zdigits2_pos n ltac:(lia)).
  assert (2 ^ Zdigits2 n ≤ 2 ^ (Zdigits2 m - 1)) by (apply Z.pow_le_mono_r; lia). lia.
Qed.

Lemma Zdigits2_small (m : Z) : 0 ≤ m → m / 2 ^ Zdigits2 m = 0.
Proof.
  intros Hm. destruct (Z.eq_dec m 0) as [->|]; [done|].
  apply Z.div_small. pose proof (Zdigits2_bounds m ltac:(lia)). lia.
Qed.

End Digits.

Section Rounding.

Abbreviation fexp := (fexp B64.prec B64.emax).
Abbreviation shr_fexp := (shr_fexp B64.prec B64.emax).
Abbreviation binary_round_aux := (binary_round_aux B64.prec B64.emax).
Abbreviation binary_round := (binary_round B64.prec B64.emax).
Abbreviation bounded := (bounded B64.prec B64.emax).

Lemma fexp_unfold (e : Z) : fexp e = Z.max (e - 53) (-1074).
Proof. reflexivity. Qed.

Lemma shr_1_m (mrs : shr_record) :
  0 ≤ shr_m mrs → shr_m (shr_1 mrs) = shr_m mrs / 2.
Proof.
  destruct mrs as [m r s]; cbn [shr_m shr_1].
  destruct m as [|[p|p|]|p]; cbn [shr_m]; intros Hm; try done.
  - rewrite Pos2Z.inj_xI. Z.to_euclidean_division_equations. lia.
  - change (Zpos p~0) with (2 * Zpos p). Z.to_euclidean_division_equations. lia.
Qed.

Lemma iter_shr_1_m (p : positive) (mrs : shr_record) :
  0 ≤ shr_m mrs → shr_m (SpecFloat.iter_pos shr_1 p mrs) = shr_m mrs / 2 ^ Zpos p.
Proof.
  revert mrs. induction p as [p IH|p IH|]; intros mrs Hm; simpl SpecFloat.iter_pos.
  - assert (H1 : 0 ≤ shr_m (shr_1 mrs)).
    { rewrite shr_1_m by done. apply Z.div_pos; lia. }
    assert (H2 : 0 ≤ shr_m (SpecFloat.iter_pos shr_1 p (shr_1 mrs))).
    { rewrite IH by done. apply Z.div_pos; [done|]. apply Z.pow_pos_nonneg; lia. }
    rewrite !IH, shr_1_m by done.
    rewrite !Z.div_div by (try apply Z.pow_pos_nonneg; lia).
    rewrite Pos2Z.inj_xI.
    replace (2 * Zpos p + 1) with (1 + Zpos p + Zpos p) by lia.
    rewrite !Z.pow_add_r by lia. rewrite Z.pow_1_r. f_equal. ring.
  - assert (H2 : 0 ≤ shr_m (SpecFloat.iter_pos shr_1 p mrs)).
    { rewrite IH by done. apply Z.div_pos; [done|]. apply Z.pow_pos_nonneg; lia. }
    rewrite !IH by done.
    rewrite !Z.div_div by (try apply Z.pow_pos_nonneg; lia).
    change (Zpos p~0) with (2 * Zpos p).
    replace (2 * Zpos p) with (Zpos p + Zpos p) by lia.
    rewrite !Z.pow_add_r by lia. done.
  - rewrite shr_1_m by done. done.
Qed.

Lemma shr_m_record_of_loc (m : Z) (l : location) :
  shr_m (shr_record_of_loc m l) = m.
Proof. by destruct l as [|[| |]]. Qed.

(** What a right shift to the canonical exponent yields. *)
Lemma shr_fexp_spec (m e : Z) (l : location) :
  0 ≤ m →
  e ≤ fexp (Zdigits2 m + e) →
  snd (shr_fexp m e l) = fexp (Zdigits2 m + e) ∧
  shr_m (fst (shr_fexp m e l)) = m / 2 ^ (fexp (Zdigits2 m + e) - e).
Proof.
  intros Hm He. unfold SpecFloat.shr_fexp, shr.
  destruct (fexp (Zdigits2 m + e) - e) as [|n|n] eqn:Hn; simpl; try lia.
  - rewrite shr_m_record_of_loc, Z.div_1_r. lia.
  - rewrite iter_shr_1_m by (rewrite shr_m_record_of_loc; done).
    rewrite shr_m_record_of_loc. lia.
Qed.

Lemma shr_fexp_nonneg (m e : Z) (l : location) :
  0 ≤ m → 0 ≤ shr_m (fst (shr_fexp m e l)).
Proof.
  intros Hm. unfold SpecFloat.shr_fexp, shr.
  destruct (fexp (Zdigits2 m + e) - e) as [|n|n]; simpl;
    rewrite ?shr_m_record_of_loc; try done.
  rewrite iter_shr_1_m by (rewrite shr_m_record_of_loc; done).
  rewrite shr_m_record_of_loc.
  apply Z.div_pos; [done|]. apply Z.pow_pos_nonneg; lia.
Qed.

Lemma round_nearest_even_range (m : Z) (l : location) :
  m ≤ round_nearest_even m l ≤ m + 1.
Proof. destruct l as [|[| |]]; simpl; try destruct (Z.even m); lia. Qed.

(** The sign of a rounded value is the sign that was asked for. *)
Lemma binary_round_aux_sign (s : bool) (m e : Z) (l : location) :
  0 ≤ m → B64.has_sign s (binary_round_aux s m e l).
Proof.
  intros Hm. unfold SpecFloat.binary_round_aux.
  destruct (shr_fexp m e l) as [mrs1 e1] eqn:H1.
  pose proof (shr_fexp_nonneg m e l Hm) as Hq. rewrite H1 in Hq. simpl in Hq.
  pose proof (round_nearest_even_range (shr_m mrs1) (loc_of_shr_record mrs1)) as Hr.
  set (m1 := round_nearest_even (shr_m mrs1) (loc_of_shr_record mrs1)) in *.
  destruct (shr_fexp m1 e1 loc_Exact) as [mrs2 e2] eqn:H2.
  pose proof (shr_fexp_nonneg m1 e1 loc_Exact ltac:(lia)) as Hq2.
  rewrite H2 in Hq2. simpl in Hq2.
  destruct (shr_m mrs2) as [|p|p]; simpl; try done.
  by destruct (e2 <=? B64.emax - B64.prec).
Qed.

Lemma Zdigits2_succ (q : Z) :
  0 < q → Zdigits2 q ≤ Zdigits2 (q + 1) ≤ Zdigits2 q + 1.
Proof.
  intros Hq. split; [apply Zdigits2_le; lia|].
  pose proof (Zdigits2_bounds q Hq) as [_ Hhi].
  pose proof (Zdigits2_bounds (q + 1) ltac:(lia)) as [Hlo _].
  pose proof (Zdigits2_pos q Hq).
  destruct (Z_lt_le_dec (Zdigits2 q + 1) (Zdigits2 (q + 1))) as [Hlt|]; [|done].
  assert (2 ^ (Zdigits2 q + 1) ≤ 2 ^ (Zdigits2 (q + 1) - 1))
    by (apply Z.pow_le_mono_r; lia).
  rewrite Z.pow_add_r, Z.pow_1_r in * by lia. plia.
Qed.

(** Rounding a non-negative mantissa whose exponent is at most the
    canonical one: the sign, the validity and the magnitude of the
    result. *)
Lemma binary_round_aux_spec (s : bool) (m e : Z) (l : location) :
  0 ≤ m →
  e ≤ fexp (Zdigits2 m + e) →
  let E := fexp (Zdigits2 m + e) in
  let q := m / 2 ^ (E - e) in
  match binary_round_aux s m e l with
  | S754_zero s' => s' = s ∧ q = 0
  | S754_infinity s' => s' = s ∧ 971 ≤ E
  | S754_finite s' m' e' =>
      s' = s ∧ bounded m' e' = true ∧ E ≤ e' ≤ E + 1 ∧
      q ≤ Zpos m' * 2 ^ (e' - E) ≤ q + 1
  | S754_nan => False
  end.
Proof.
  intros Hm He E q. unfold SpecFloat.binary_round_aux.
  destruct (shr_fexp_spec m e l Hm He) as [He1 Hq1].
  destruct (shr_fexp m e l) as [mrs1 e1]. simpl in He1, Hq1.
  fold E in He1, Hq1. fold q in Hq1. subst e1. rewrite Hq1.
  assert (Hq : 0 ≤ q) by (apply Z.div_pos; [done|apply Z.pow_pos_nonneg; lia]).
  pose proof (round_nearest_even_range q (loc_of_shr_record mrs1)) as Hr.
  set (m1 := round_nearest_even q (loc_of_shr_record mrs1)) in *.
  (* the exponent after rounding moves by at most one *)
  assert (HE2 : (q = 0 ∧ fexp (Zdigits2 m1 + E) = E) ∨
                (0 < q ∧ fexp (Zdigits2 q + E) = E ∧
                 Zdigits2 q ≤ Zdigits2 m1 ≤ Zdigits2 q + 1)).
  { destruct (Z.eq_dec q 0) as [Hq0|Hq0]; [left|right].
    - split; [done|].
      assert (HE : E = -1074).
      { destruct (Z.eq_dec m 0) as [->|Hm0].
        - subst E. simpl Zdigits2 in *. rewrite fexp_unfold in *. lia.
        - assert (Zdigits2 m ≤ E - e).
          { destruct (Z_lt_le_dec (E - e) (Zdigits2 m)) as [Hlt|]; [|done].
            pose proof (Zdigits2_div_pow2 m (E - e) ltac:(lia) ltac:(lia)) as Hd.
            fold q in Hd. rewrite Hq0 in Hd. simpl in Hd. lia. }
          subst E. rewrite fexp_unfold in *. lia. }
      assert (Hm1 : m1 = 0 ∨ m1 = 1) by lia.
      rewrite HE, fexp_unfold. destruct Hm1 as [->| ->]; simpl; lia.
    - assert (Hlt : E - e < Zdigits2 m).
      { destruct (Z_lt_le_dec (E - e) (Zdigits2 m)) as [|Hle]; [done|].
        exfalso. apply Hq0. subst q. apply Z.div_small. split; [done|].
        destruct (Z.eq_dec m 0) as [->|]; [apply Z.pow_pos_nonneg; lia|].
        pose proof (Zdigits2_bounds m ltac:(lia)) as [_ Hhi].
        assert (2 ^ Zdigits2 m ≤ 2 ^ (E - e)) by (apply Z.pow_le_mono_r; lia).
        lia. }
      assert (Hm0 : 0 < m).
      { destruct (Z.eq_dec m 0) as [->|]; [|lia]. simpl in Hlt. lia. }
      pose proof (Zdigits2_div_pow2 m (E - e) Hm0 ltac:(lia)) as Hd. fold q in Hd.
      split; [lia|]. split.
      + rewrite Hd. replace (Zdigits2 m - (E - e) + E) with (Zdigits2 m + e) by lia. done.
      + pose proof (Zdigits2_succ q ltac:(lia)).
        assert (Hm1 : m1 = q ∨ m1 = q + 1) by lia.
        destruct Hm1 as [-> | ->]; lia. }
  assert (Hn2 : E ≤ fexp (Zdigits2 m1 + E) ≤ E + 1).
  { destruct HE2 as [[_ ->]|(_ & HqE & Hd)]; [lia|].
    rewrite fexp_unfold in *. lia. }
  destruct (shr_fexp_spec m1 E loc_Exact ltac:(lia) ltac:(lia)) as [He2 Hq2].
  destruct (shr_fexp m1 E loc_Exact) as [mrs2 e2]. simpl in He2, Hq2.
  set (E2 := fexp (Zdigits2 m1 + E)) in *. subst e2.
  (* the final mantissa, doubled when the exponent moved, is [m1] *)
  assert (Hback : shr_m mrs2 * 2 ^ (E2 - E) = m1 ∧
                  (0 < m1 → Zdigits2 (shr_m mrs2) + E2 = Zdigits2 m1 + E)).
  { rewrite Hq2. destruct (Z.eq_dec E2 E) as [Heq|Hne].
    - rewrite Heq, Z.sub_diag. simpl. rewrite Z.div_1_r. lia.
    - replace (E2 - E) with 1 by lia. rewrite Z.pow_1_r.
      destruct HE2 as [[_ HE]|(Hq0 & HqE & Hd)]; [subst E2; lia|].
      assert (Hd1 : Zdigits2 m1 = Zdigits2 q + 1).
      { destruct (Z.eq_dec (Zdigits2 m1) (Zdigits2 q)) as [Hdq|]; [|lia].
        subst E2. rewrite Hdq in Hne. lia. }
      pose proof (Zdigits2_bounds q Hq0) as [_ Hhi].
      pose proof (Zdigits2_bounds m1 ltac:(lia)) as [Hlo _].
      pose proof (Zdigits2_pos q Hq0) as Hdpos.
      rewrite Hd1 in Hlo. replace (Zdigits2 q + 1 - 1) with (Zdigits2 q) in Hlo by lia.
      assert (Hm1 : m1 = 2 ^ Zdigits2 q) by lia.
      replace (Zdigits2 q) with (1 + (Zdigits2 q - 1)) in Hm1 by lia.
      rewrite Z.pow_add_r, Z.pow_1_r in Hm1 by lia.
      split.
      + rewrite Hm1. rewrite (Z.mul_comm 2), Z.div_mul by lia. ring.
      + intros _. pose proof (Zdigits2_div_pow2 m1 1 ltac:(lia) ltac:(lia)) as Hdd.
        rewrite Z.pow_1_r in Hdd. lia. }
  destruct Hback as [Hback Hdig].
  destruct (shr_m mrs2) as [|m'|m'] eqn:Hm'.
  - split; [done|]. simpl in Hback. lia.
  - destruct (E2 <=? B64.emax - B64.prec) eqn:Hov.
    + apply Z.leb_le in Hov. unfold B64.emax, B64.prec in Hov.
      split; [done|]. split; [|split; [lia|]].
      * unfold SpecFloat.bounded, canonical_mantissa.
        apply andb_true_intro. split; [|apply Z.leb_le; unfold B64.emax, B64.prec; lia].
        apply Z.eqb_eq. change (Zpos (digits2_pos m')) with (Zdigits2 (Zpos m')).
        rewrite Hdig by lia. done.
      * rewrite Hback. lia.
    + apply Z.leb_gt in Hov. unfold B64.emax, B64.prec in Hov. split; [done|lia].
  - pose proof (Z.pow_pos_nonneg 2 (E2 - E) ltac:(lia) ltac:(lia)). nia.
Qed.

Lemma binary_round_aux_exact (s : bool) (m : positive) (e : Z) :
  fexp (Zdigits2 (Zpos m) + e) = e →
  binary_round_aux s (Zpos m) e loc_Exact =
    if e <=? 971 then S754_finite s m e else S754_infinity s.
Proof.
  intros He. unfold SpecFloat.binary_round_aux, SpecFloat.shr_fexp.
  rewrite He, Z.sub_diag. simpl shr. cbn [shr_m shr_record_of_loc loc_of_shr_record round_nearest_even].
  rewrite He, Z.sub_diag. simpl. done.
Qed.

Lemma pos_iter_xO (m d : positive) :
  Zpos (Pos.iter xO m d) = Zpos m * 2 ^ Zpos d.
Proof.
  induction d as [|d IH] using Pos.peano_ind.
  - simpl. lia.
  - rewrite Pos.iter_succ, Pos2Z.inj_succ, Z.pow_succ_r by lia.
    change (Zpos (Pos.iter xO m d)~0) with (2 * Zpos (Pos.iter xO m d)).
    rewrite IH. ring.
Qed.

Lemma shl_align_spec (mx : positive) (ex ex' : Z) :
  snd (shl_align mx ex ex') = Z.min ex ex' ∧
  Zpos (fst (shl_align mx ex ex')) = Zpos mx * 2 ^ (ex - Z.min ex ex').
Proof.
  unfold shl_align. destruct (ex' - ex) as [|d|d] eqn:Hd; simpl.
  - replace (Z.min ex ex') with ex by lia. rewrite Z.sub_diag. simpl. lia.
  - replace (Z.min ex ex') with ex by lia. rewrite Z.sub_diag. simpl. lia.
  - replace (Z.min ex ex') with ex' by lia. split; [done|].
    rewrite pos_iter_xO. f_equal. f_equal. lia.
Qed.

(** Rounding [mx * 2^ex]: the mantissa is first brought to the
    canonical exponent or below. *)
Lemma binary_round_spec (s : bool) (mx : positive) (ex : Z) :
  let E := fexp (Zdigits2 (Zpos mx) + ex) in
  let ez := Z.min ex E in
  let q := (Zpos mx * 2 ^ (ex - ez)) / 2 ^ (E - ez) in
  match binary_round s mx ex with
  | S754_zero s' => s' = s ∧ q = 0
  | S754_infinity s' => s' = s ∧ 971 ≤ E
  | S754_finite s' m' e' =>
      s' = s ∧ bounded m' e' = true ∧ E ≤ e' ≤ E + 1 ∧
      q ≤ Zpos m' * 2 ^ (e' - E) ≤ q + 1
  | S754_nan => False
  end.
Proof.
  intros E ez q. unfold SpecFloat.binary_round.
  change (Zpos (digits2_pos mx)) with (Zdigits2 (Zpos mx)). fold E.
  destruct (shl_align_spec mx ex E) as [Hez Hmz].
  destruct (shl_align mx ex E) as [mz ez']. simpl in Hez, Hmz.
  fold ez in Hez, Hmz. subst ez'.
  assert (Hd : Zdigits2 (Zpos mz) + ez = Zdigits2 (Zpos mx) + ex).
  { rewrite Hmz, Zdigits2_mul_pow2 by lia. lia. }
  pose proof (binary_round_aux_spec s (Zpos mz) ez loc_Exact ltac:(lia)) as H.
  cbv zeta in H. rewrite Hd in H. fold E in H.
  specialize (H ltac:(lia)). revert H.
  destruct (binary_round_aux s (Zpos mz) ez loc_Exact); rewrite ?Hmz; done.
Qed.

Lemma binary_round_sign (s : bool) (mx : positive) (ex : Z) :
  B64.has_sign s (binary_round s mx ex).
Proof.
  pose proof (binary_round_spec s mx ex) as H.
  destruct (binary_round s mx ex); simpl in *; tauto.
Qed.

Lemma binary_round_valid (s : bool) (mx : positive) (ex : Z) :
  B64.valid (binary_round s mx ex) = true.
Proof.
  pose proof (binary_round_spec s mx ex) as H.
  destruct (binary_round s mx ex); simpl in *; try done. tauto.
Qed.

End Rounding.

Section Arithmetic.

Abbreviation binary_normalize := (binary_normalize B64.prec B64.emax).
Abbreviation binary_round := (binary_round B64.prec B64.emax).
Abbreviation binary_round_aux := (binary_round_aux B64.prec B64.emax).

Lemma has_sign_nonneg (x : spec_float) : B64.has_sign false x → B64.nonneg x = true.
Proof. destruct x; simpl; try done; by intros ->. Qed.

Lemma binary_normalize_valid (m e : Z) (sz : bool) :
  B64.valid (binary_normalize m e sz) = true.
Proof. destruct m; simpl; try done; apply binary_round_valid. Qed.

Lemma binary_normalize_nonneg (m e : Z) :
  0 ≤ m → B64.nonneg (binary_normalize m e false) = true.
Proof.
  destruct m as [|p|p]; simpl; try done; intros _.
  apply has_sign_nonneg, binary_round_sign.
Qed.

Lemma of_Z_valid (z : Z) : B64.valid (B64.of_Z z) = true.
Proof. apply binary_normalize_valid. Qed.

Lemma of_Z_nonneg (z : Z) : 0 ≤ z → B64.nonneg (B64.of_Z z) = true.
Proof. apply binary_normalize_nonneg. Qed.

Lemma add_valid (x y : spec_float) :
  B64.valid x = true → B64.valid y = true → B64.valid (B64.add x y) = true.
Proof.
  destruct x as [sx|sx| |sx mx ex], y as [sy|sy| |sy my ey]; simpl; try done;
    try (by destruct sx, sy).
  intros _ _. apply binary_normalize_valid.
Qed.

Lemma sub_valid (x y : spec_float) :
  B64.valid x = true → B64.valid y = true → B64.valid (B64.sub x y) = true.
Proof.
  destruct x as [sx|sx| |sx mx ex], y as [sy|sy| |sy my ey]; simpl; try done;
    try (by destruct sx, sy).
  intros _ _. apply binary_normalize_valid.
Qed.

Lemma add_nonneg (x y : spec_float) :
  B64.nonneg x = true → B64.nonneg y = true → B64.nonneg (B64.add x y) = true.
Proof.
  destruct x as [sx|sx| |sx mx ex], y as [sy|sy| |sy my ey]; simpl; try done;
    try (by destruct sx, sy).
  destruct sx, sy; try done. intros _ _.
  apply binary_normalize_nonneg. simpl. lia.
Qed.

Lemma mul_nonneg_finite (x : spec_float) (m : positive) (e : Z) :
  B64.nonneg x = true → B64.nonneg (B64.mul x (S754_finite false m e)) = true.
Proof.
  destruct x as [sx|sx| |sx mx ex]; simpl; try done;
    try (by destruct sx).
  destruct sx; [done|]. intros _.
  apply has_sign_nonneg. apply (binary_round_aux_sign false). lia.
Qed.

(** Accruing interest keeps a valid value valid, whatever the rate. *)
Lemma accrue_valid (x c : spec_float) :
  B64.valid x = true → B64.valid (B64.add x (B64.mul x c)) = true.
Proof.
  intros Hx. destruct (B64.mul x c) as [sy|sy| |sy my ey] eqn:Hy.
  - destruct x as [sx|sx| |sx mx ex]; simpl; try done; by destruct sx, sy.
  - destruct x as [sx|sx| |sx mx ex]; simpl; try done; by destruct sx, sy.
  - by destruct x.
  - destruct x as [sx|sx| |sx mx ex]; simpl; try done.
    + (* a zero times a finite value is a zero *)
      destruct c; simpl in Hy; done.
    + apply binary_normalize_valid.
Qed.

End Arithmetic.

Section Conversion.

Abbreviation binary_round := (binary_round B64.prec B64.emax).
Abbreviation binary_normalize := (binary_normalize B64.prec B64.emax).

Lemma pow2_split (a b : Z) : 0 ≤ a → 0 ≤ b → 2 ^ (a + b) = 2 ^ a * 2 ^ b.
Proof. intros. by rewrite Z.pow_add_r. Qed.

Lemma pow2_pos (a : Z) : 0 ≤ a → 0 < 2 ^ a.
Proof. intros. apply Z.pow_pos_nonneg; lia. Qed.

Lemma valid_finite_digits (s : bool) (m : positive) (e : Z) :
  B64.valid (S754_finite s m e) = true →
  Zdigits2 (Zpos m) ≤ 53 ∧ Zpos m < 2 ^ 53.
Proof.
  simpl. unfold bounded, canonical_mantissa. intros H.
  apply andb_true_iff in H as [H _]. apply Z.eqb_eq in H.
  change (Zpos (digits2_pos m)) with (Zdigits2 (Zpos m)) in H.
  rewrite fexp_unfold in H.
  assert (Hd : Zdigits2 (Zpos m) ≤ 53) by lia. split; [done|].
  pose proof (Zdigits2_bounds (Zpos m) ltac:(lia)) as [_ Hhi].
  assert (2 ^ Zdigits2 (Zpos m) ≤ 2 ^ 53) by (apply Z.pow_le_mono_r; lia). lia.
Qed.

Lemma compare_Z_finite (z : Z) (s : bool) (m : positive) (e : Z) :
  B64.compare_Z z (S754_finite s m e) =
    Some (z * 2 ^ Z.max 0 (- e) ?= cond_Zopp s (Zpos m) * 2 ^ Z.max 0 e).
Proof.
  unfold B64.compare_Z. destruct e as [|p|p].
  - simpl Z.max. by rewrite Z.pow_0_r, !Z.mul_1_r.
  - replace (Z.max 0 (- Zpos p)) with 0 by lia.
    replace (Z.max 0 (Zpos p)) with (Zpos p) by lia.
    by rewrite Z.pow_0_r, Z.mul_1_r.
  - replace (Z.max 0 (- Zneg p)) with (Zpos p) by lia.
    replace (Z.max 0 (Zneg p)) with 0 by lia.
    by rewrite Z.pow_0_r, Z.mul_1_r.
Qed.

(** An integer and a mantissa with its exponent, both brought to a
    common exponent [k] that is at most [e] and at most [0]. *)
Lemma scale_lt (z v e k : Z) :
  k ≤ e → k ≤ 0 →
  z * 2 ^ Z.max 0 (- e) < v * 2 ^ Z.max 0 e ↔ z * 2 ^ (- k) < v * 2 ^ (e - k).
Proof.
  intros Hke Hk0. destruct (Z_lt_le_dec e 0) as [He|He].
  - replace (Z.max 0 (- e)) with (- e) by lia.
    replace (Z.max 0 e) with 0 by lia. rewrite Z.pow_0_r, Z.mul_1_r.
    replace (- k) with (- e + (e - k)) by lia.
    rewrite pow2_split by lia.
    pose proof (pow2_pos (e - k) ltac:(lia)). pose proof (pow2_pos (- e) ltac:(lia)).
    split; intros; pnia.
  - replace (Z.max 0 (- e)) with 0 by lia.
    replace (Z.max 0 e) with e by lia. rewrite Z.pow_0_r, Z.mul_1_r.
    replace (e - k) with (e + (- k)) by lia.
    rewrite pow2_split by lia.
    pose proof (pow2_pos (- k) ltac:(lia)). pose proof (pow2_pos e ltac:(lia)).
    split; intros; pnia.
Qed.

Lemma sub_finite (sx sy : bool) (mx my : positive) (ex ey : Z) :
  B64.sub (S754_finite sx mx ex) (S754_finite sy my ey) =
    binary_normalize
      (cond_Zopp sx (Zpos mx * 2 ^ (ex - Z.min ex ey)) -
       cond_Zopp sy (Zpos my * 2 ^ (ey - Z.min ex ey)))
      (Z.min ex ey) false.
Proof.
  unfold B64.sub, SFsub.
  destruct (shl_align_spec mx ex (Z.min ex ey)) as [_ ->].
  destruct (shl_align_spec my ey (Z.min ex ey)) as [_ ->].
  replace (Z.min ex (Z.min ex ey)) with (Z.min ex ey) by lia.
  replace (Z.min ey (Z.min ex ey)) with (Z.min ex ey) by lia.
  done.
Qed.

(** Integers of at most 53 bits convert exactly. *)
Lemma binary_round_int_small (s : bool) (p : positive) :
  let d := Zdigits2 (Zpos p) in
  d ≤ 53 →
  ∃ my, binary_round s p 0 = S754_finite s my (d - 53) ∧
        Zpos my = Zpos p * 2 ^ (53 - d).
Proof.
  intros d Hd. pose proof (Zdigits2_pos (Zpos p) ltac:(lia)) as Hd0. fold d in Hd0.
  unfold SpecFloat.binary_round.
  change (Zpos (digits2_pos p)) with d. rewrite Z.add_0_r.
  assert (HE : fexp B64.prec B64.emax d = d - 53) by (rewrite fexp_unfold; lia).
  rewrite HE.
  destruct (shl_align_spec p 0 (d - 53)) as [Hez Hmz].
  destruct (shl_align p 0 (d - 53)) as [mz ez]. simpl in Hez, Hmz.
  replace (Z.min 0 (d - 53)) with (d - 53) in * by lia. subst ez.
  replace (0 - (d - 53)) with (53 - d) in Hmz by lia.
  rewrite binary_round_aux_exact.
  - replace (d - 53 <=? 971) with true by (symmetry; apply Z.leb_le; lia).
    by exists mz.
  - rewrite Hmz, Zdigits2_mul_pow2 by lia. fold d.
    replace (d + (53 - d) + (d - 53)) with d by lia. done.
Qed.

(** Larger integers lose their low [d - 53] bits, rounded either way. *)
Lemma binary_round_int_large (s : bool) (p : positive) :
  let d := Zdigits2 (Zpos p) in
  let n := d - 53 in
  53 < d →
  match binary_round s p 0 with
  | S754_infinity s' => s' = s ∧ 1024 ≤ d
  | S754_finite s' my ey =>
      s' = s ∧ n ≤ ey ∧
      Zpos p / 2 ^ n ≤ Zpos my * 2 ^ (ey - n) ≤ Zpos p / 2 ^ n + 1
  | _ => False
  end.
Proof.
  intros d n Hd. pose proof (binary_round_spec s p 0) as H. cbv zeta in H.
  fold d in H. rewrite Z.add_0_r in H.
  assert (HE : fexp B64.prec B64.emax d = n) by (rewrite fexp_unfold; lia).
  rewrite HE in H. replace (Z.min 0 n) with 0 in H by lia.
  rewrite !Z.sub_0_r, Z.pow_0_r, Z.mul_1_r in H.
  assert (Hq : 2 ^ 52 ≤ Zpos p / 2 ^ n).
  { pose proof (Zdigits2_bounds (Zpos p) ltac:(lia)) as [Hlo _]. fold d in Hlo.
    apply Z.div_le_lower_bound; [apply pow2_pos; lia|].
    rewrite <- pow2_split by lia. replace (n + 52) with (d - 1) by lia. done. }
  assert (0 < 2 ^ 52) by done.
  destruct (binary_round s p 0) as [s'|s'| |s' my ey]; try done.
  - destruct H as [_ H]. rewrite H in Hq. plia.
  - destruct H as [-> HE']. split; [done|lia].
  - destruct H as (-> & _ & He & Hv). split; [done|]. split; [lia|done].
Qed.

Lemma scale_gt (z v e k : Z) :
  k ≤ e → k ≤ 0 →
  v * 2 ^ Z.max 0 e < z * 2 ^ Z.max 0 (- e) ↔ v * 2 ^ (e - k) < z * 2 ^ (- k).
Proof.
  intros Hke Hk0. destruct (Z_lt_le_dec e 0) as [He|He].
  - replace (Z.max 0 (- e)) with (- e) by lia.
    replace (Z.max 0 e) with 0 by lia. rewrite Z.pow_0_r, Z.mul_1_r.
    replace (- k) with (- e + (e - k)) by lia.
    rewrite pow2_split by lia.
    pose proof (pow2_pos (e - k) ltac:(lia)). pose proof (pow2_pos (- e) ltac:(lia)).
    split; intros; pnia.
  - replace (Z.max 0 (- e)) with 0 by lia.
    replace (Z.max 0 e) with e by lia. rewrite Z.pow_0_r, Z.mul_1_r.
    replace (e - k) with (e + (- k)) by lia.
    rewrite pow2_split by lia.
    pose proof (pow2_pos (- k) ltac:(lia)). pose proof (pow2_pos e ltac:(lia)).
    split; intros; pnia.
Qed.

Lemma int_large_quotient (p : positive) :
  let d := Zdigits2 (Zpos p) in
  53 < d → 2 ^ 52 ≤ Zpos p / 2 ^ (d - 53).
Proof.
  intros d Hd. pose proof (Zdigits2_bounds (Zpos p) ltac:(lia)) as [Hlo _]. fold d in Hlo.
  apply Z.div_le_lower_bound; [apply pow2_pos; lia|].
  rewrite <- pow2_split by lia. replace (d - 53 + 52) with (d - 1) by lia. done.
Qed.

(** Two mantissas compared at exponent [n] compare the same way at
    any exponent between [n] and both of theirs. *)
Lemma rescale_le (a b ea eb n k : Z) :
  n ≤ k → k ≤ ea → k ≤ eb →
  a * 2 ^ (ea - n) ≤ b * 2 ^ (eb - n) →
  a * 2 ^ (ea - k) ≤ b * 2 ^ (eb - k).
Proof.
  intros Hnk Hka Hkb H.
  replace (ea - n) with (ea - k + (k - n)) in H by lia.
  replace (eb - n) with (eb - k + (k - n)) in H by lia.
  rewrite !pow2_split in H by lia.
  pose proof (pow2_pos (k - n) ltac:(lia)). pnia.
Qed.

(** Conversion is monotone against a binary64 value above the integer. *)
Lemma round_int_below (s : bool) (p my mv : positive) (ey ev : Z) :
  binary_round s p 0 = S754_finite s my ey →
  Zpos mv < 2 ^ 53 →
  Zpos p * 2 ^ Z.max 0 (- ev) < Zpos mv * 2 ^ Z.max 0 ev →
  Zpos my * 2 ^ (ey - Z.min ev ey) ≤ Zpos mv * 2 ^ (ev - Z.min ev ey).
Proof.
  intros Hy Hmv Hlt. set (d := Zdigits2 (Zpos p)).
  pose proof (Zdigits2_pos (Zpos p) ltac:(lia)) as Hd0. fold d in Hd0.
  destruct (Z_le_gt_dec d 53) as [Hd|Hd].
  - destruct (binary_round_int_small s p Hd) as (my' & Hy' & Hm).
    rewrite Hy in Hy'. injection Hy' as <- ->. fold d in Hm. fold d.
    set (ez := Z.min ev (d - 53)).
    apply (scale_lt _ _ _ ez) in Hlt; [|lia|lia].
    rewrite Hm. replace (- ez) with (53 - d + (d - 53 - ez)) in Hlt by lia.
    rewrite pow2_split in Hlt by lia.
    change (Zpos (digits2_pos p)) with d. fold ez. plia.
  - pose proof (binary_round_int_large s p ltac:(fold d; lia)) as H.
    fold d in H. cbv zeta in H. rewrite Hy in H. destruct H as (_ & Hn & Hq).
    set (n := d - 53) in *.
    pose proof (Zdigits2_bounds (Zpos p) ltac:(lia)) as [Hlo _]. fold d in Hlo.
    replace (d - 1) with (52 + n) in Hlo by lia.
    assert (Hev : n ≤ ev).
    { destruct (Z_le_gt_dec n ev) as [|Hgt]; [done|exfalso].
      set (k := Z.min ev 0).
      apply (scale_lt _ _ _ k) in Hlt; [|lia|lia].
      assert (H1 : 2 ^ (52 + n) * 2 ^ (- k) < 2 ^ 53 * 2 ^ (ev - k)).
      { pose proof (pow2_pos (- k) ltac:(lia)). pose proof (pow2_pos (ev - k) ltac:(lia)).
        pnia. }
      rewrite <- !pow2_split in H1 by lia.
      apply Z.pow_lt_mono_r_iff in H1; lia. }
    replace (Z.max 0 (- ev)) with 0 in Hlt by lia.
    replace (Z.max 0 ev) with (ev - n + n) in Hlt by lia.
    rewrite Z.pow_0_r, Z.mul_1_r, pow2_split, Z.mul_assoc in Hlt by lia.
    assert (Hq' : Zpos p / 2 ^ n < Zpos mv * 2 ^ (ev - n)).
    { apply Z.div_lt_upper_bound; [apply pow2_pos; lia|]. lia. }
    apply (rescale_le _ _ _ _ n); lia.
Qed.

(** Conversion is monotone against a binary64 value below the integer. *)
Lemma round_int_above (s : bool) (p my mv : positive) (ey ev : Z) :
  binary_round s p 0 = S754_finite s my ey →
  Zpos mv < 2 ^ 53 →
  Zpos mv * 2 ^ Z.max 0 ev < Zpos p * 2 ^ Z.max 0 (- ev) →
  Zpos mv * 2 ^ (ev - Z.min ev ey) ≤ Zpos my * 2 ^ (ey - Z.min ev ey).
Proof.
  intros Hy Hmv Hlt. set (d := Zdigits2 (Zpos p)).
  pose proof (Zdigits2_pos (Zpos p) ltac:(lia)) as Hd0. fold d in Hd0.
  destruct (Z_le_gt_dec d 53) as [Hd|Hd].
  - destruct (binary_round_int_small s p Hd) as (my' & Hy' & Hm).
    rewrite Hy in Hy'. injection Hy' as <- ->. fold d in Hm. fold d.
    set (ez := Z.min ev (d - 53)).
    apply (scale_gt _ _ _ ez) in Hlt; [|lia|lia].
    rewrite Hm. replace (- ez) with (53 - d + (d - 53 - ez)) in Hlt by lia.
    rewrite pow2_split in Hlt by lia.
    change (Zpos (digits2_pos p)) with d. fold ez. plia.
  - pose proof (binary_round_int_large s p ltac:(fold d; lia)) as H.
    fold d in H. cbv zeta in H. rewrite Hy in H. destruct H as (_ & Hn & Hq).
    pose proof (int_large_quotient p ltac:(fold d; lia)) as Hq52. fold d in Hq52.
    cbv zeta in Hq52.
    set (n := d - 53) in *.
    destruct (Z_le_gt_dec n ev) as [Hev|Hev].
    + replace (Z.max 0 (- ev)) with 0 in Hlt by lia.
      replace (Z.max 0 ev) with (ev - n + n) in Hlt by lia.
      rewrite Z.pow_0_r, Z.mul_1_r, pow2_split, Z.mul_assoc in Hlt by lia.
      assert (Hq' : Zpos mv * 2 ^ (ev - n) ≤ Zpos p / 2 ^ n).
      { apply Z.div_le_lower_bound; [apply pow2_pos; lia|]. lia. }
      apply (rescale_le _ _ _ _ n); lia.
    + replace (Z.min ev ey) with ev by lia. rewrite Z.sub_diag, Z.pow_0_r, Z.mul_1_r.
      replace (ey - ev) with (ey - n + (n - ev - 1) + 1) by lia.
      rewrite !pow2_split, Z.pow_1_r by lia.
      pose proof (pow2_pos (n - ev - 1) ltac:(lia)).
      assert (2 ^ 53 = 2 ^ 52 * 2) by done.
      pnia.
Qed.

Lemma binary_round_int_finite (s : bool) (p : positive) :
  B64.is_infinity (binary_round s p 0) = false →
  ∃ my ey, binary_round s p 0 = S754_finite s my ey.
Proof.
  intros Hinf. destruct (Z_le_gt_dec (Zdigits2 (Zpos p)) 53) as [Hd|Hd].
  - destruct (binary_round_int_small s p Hd) as (my & Hy & _). eauto.
  - pose proof (binary_round_int_large s p ltac:(lia)) as H. cbv zeta in H.
    destruct (binary_round s p 0) as [| | |s' my ey]; try done.
    destruct H as [-> _]. eauto.
Qed.

End Conversion.

Section Payment.

Abbreviation binary_round := (binary_round B64.prec B64.emax).

Lemma float_of_int_Some (z : Z) (y : spec_float) :
  float_of_int z = Some y → y = B64.of_Z z ∧ B64.is_infinity y = false.
Proof.
  unfold float_of_int. destruct (B64.is_infinity (B64.of_Z z)) eqn:H; [done|].
  by intros [= <-].
Qed.

Lemma compare_Z_finite_lt (z : Z) (s : bool) (m : positive) (e : Z) :
  B64.compare_Z z (S754_finite s m e) = Some Lt →
  z * 2 ^ Z.max 0 (- e) < cond_Zopp s (Zpos m) * 2 ^ Z.max 0 e.
Proof. rewrite compare_Z_finite. intros [= H]. by apply Z.compare_lt_iff. Qed.

(** Subtracting the converted integer [z] from a binary64 value that is
    above [z] never goes below zero. *)
Lemma sub_of_Z_nonneg (v : spec_float) (z : Z) (y : spec_float) :
  B64.valid v = true →
  B64.compare_Z z v = Some Lt →
  float_of_int z = Some y →
  B64.nonneg (B64.sub v y) = true.
Proof.
  intros Hv Hlt Hy. apply float_of_int_Some in Hy as [-> Hinf].
  destruct z as [|p|p]; unfold B64.of_Z in *; simpl SpecFloat.binary_normalize in *.
  - (* z = 0 *)
    destruct v as [sv|sv| |sv mv ev]; try done.
    + simpl in Hlt. by destruct sv.
    + apply compare_Z_finite_lt in Hlt. destruct sv; [|done]. simpl in Hlt.
      pose proof (pow2_pos (Z.max 0 ev) ltac:(lia)). pnia.
  - (* z > 0 *)
    destruct (binary_round_int_finite false p Hinf) as (my & ey & Hy).
    rewrite Hy.
    destruct v as [sv|sv| |sv mv ev]; try done.
    + simpl in Hlt. by destruct sv.
    + apply compare_Z_finite_lt in Hlt.
      destruct (valid_finite_digits _ _ _ Hv) as [_ Hmv].
      destruct sv; simpl in Hlt.
      { pose proof (pow2_pos (Z.max 0 ev) ltac:(lia)).
        pose proof (pow2_pos (Z.max 0 (- ev)) ltac:(lia)). pnia. }
      rewrite sub_finite. apply binary_normalize_nonneg. simpl cond_Zopp.
      pose proof (round_int_below false p my mv ey ev Hy Hmv Hlt). lia.
  - (* z < 0 *)
    destruct (binary_round_int_finite true p Hinf) as (my & ey & Hy).
    rewrite Hy.
    destruct v as [sv|sv| |sv mv ev]; try done.
    + simpl in Hlt. by destruct sv.
    + apply compare_Z_finite_lt in Hlt.
      destruct (valid_finite_digits _ _ _ Hv) as [_ Hmv].
      rewrite sub_finite. apply binary_normalize_nonneg.
      pose proof (pow2_pos (ev - Z.min ev ey) ltac:(lia)).
      pose proof (pow2_pos (ey - Z.min ev ey) ltac:(lia)).
      destruct sv; simpl cond_Zopp in *; [|pnia].
      assert (Hlt' : Zpos mv * 2 ^ Z.max 0 ev < Zpos p * 2 ^ Z.max 0 (- ev)).
      { change (Zneg p) with (- Zpos p) in Hlt. lia. }
      pose proof (round_int_above true p my mv ey ev Hy Hmv Hlt'). lia.
Qed.

(** A value minus itself is [+0], unless it is an infinity or a NaN. *)
Lemma sub_diag (x : spec_float) :
  B64.sub x x = if B64.is_infinity x || B64.is_nan x then S754_nan else B64.zero.
Proof.
  destruct x as [s|s| |s m e]; try done; try by destruct s.
  rewrite sub_finite, Z.sub_diag. done.
Qed.

End Payment.


(** ** Python comparisons against zero *)

Section Comparisons.

Lemma compare_Z_0_nonneg (x : spec_float) :
  B64.nonneg x = true →
  B64.compare_Z 0 x = Some (if B64.is_zero x then Eq else Lt).
Proof.
  destruct x as [s|s| |s m e]; intros H; try done.
  - by destruct s.
  - destruct s; [done|]. simpl B64.is_zero. cbv iota.
    rewrite compare_Z_finite. f_equal. apply Z.compare_lt_iff. simpl.
    pose proof (pow2_pos (Z.max 0 e) ltac:(lia)). pnia.
Qed.

Lemma py_le_0_nonneg (x : spec_float) :
  B64.nonneg x = true → py_le (PyInt 0) (PyFloat x) = true.
Proof.
  intros H. unfold py_le, py_compare. rewrite compare_Z_0_nonneg by done.
  by destruct (B64.is_zero x).
Qed.

Lemma py_lt_nonneg_0 (x : spec_float) :
  B64.nonneg x = true → py_lt (PyFloat x) (PyInt 0) = false.
Proof.
  intros H. unfold py_lt, py_compare. rewrite compare_Z_0_nonneg by done.
  by destruct (B64.is_zero x).
Qed.

Lemma py_le_nonneg_0 (x : spec_float) :
  B64.nonneg x = true → py_le (PyFloat x) (PyInt 0) = B64.is_zero x.
Proof.
  intros H. unfold py_le, py_compare. rewrite compare_Z_0_nonneg by done.
  by destruct (B64.is_zero x).
Qed.

Lemma py_lt_nan_l (b : pynum) : py_lt (PyFloat S754_nan) b = false.
Proof. by destruct b as [z|[| | |]]. Qed.

Lemma py_le_nan_l (b : pynum) : py_le (PyFloat S754_nan) b = false.
Proof. by destruct b as [z|[| | |]]. Qed.

Lemma SFcompare_refl (x : spec_float) :
  SFcompare x x = if B64.is_nan x then None else Some Eq.
Proof.
  destruct x as [s|s| |s m e]; simpl; try done.
  - by destruct s.
  - rewrite Z.compare_refl, Pos.compare_cont_refl. by destruct s.
Qed.

Lemma py_lt_irrefl (a : pynum) : py_lt a a = false.
Proof.
  destruct a as [z|x]; unfold py_lt, py_compare.
  - by rewrite Z.compare_refl.
  - rewrite SFcompare_refl. by destruct (B64.is_nan x).
Qed.

Lemma py_le_refl_float (x : spec_float) :
  B64.is_nan x = false → py_le (PyFloat x) (PyFloat x) = true.
Proof. intros H. unfold py_le, py_compare. by rewrite SFcompare_refl, H. Qed.

(** [b < a] excludes [a < b], for an integer against a float. *)
Lemma py_lt_asym_int_float (z : Z) (x : spec_float) :
  py_lt (PyInt z) (PyFloat x) = true → py_lt (PyFloat x) (PyInt z) = false.
Proof.
  unfold py_lt, py_compare. by destruct (B64.compare_Z z x) as [[| |]|].
Qed.

Lemma py_lt_le_int_float (z : Z) (x : spec_float) :
  py_lt (PyInt z) (PyFloat x) = true → py_le (PyInt z) (PyFloat x) = true.
Proof.
  unfold py_lt, py_le, py_compare. by destruct (B64.compare_Z z x) as [[| |]|].
Qed.

Lemma nonneg_not_nan (x : spec_float) : B64.nonneg x = true → B64.is_nan x = false.
Proof. by destruct x. Qed.

End Comparisons.

(** ** The loan lines *)

Section LoanLines.

Lemma loan_interest_monthly_finite :
  loan_interest_monthly = S754_finite false 4803839602528529 (-60).
Proof. reflexivity. Qed.

Lemma to_float_valid (a : pynum) (x : spec_float) :
  py_valid a → to_float a = Some x → B64.valid x = true.
Proof.
  destruct a as [z|y]; simpl.
  - intros _ H. apply float_of_int_Some in H as [-> _]. apply of_Z_valid.
  - by intros H [= <-].
Qed.

(** The interest line: the balance, as a float, plus itself times the
    monthly rate. *)
Lemma accrue_inv (loan interest accrued : pynum) :
  py_mul loan (PyFloat loan_interest_monthly) = Some interest →
  py_add loan interest = Some accrued →
  ∃ x, to_float loan = Some x ∧
       accrued = PyFloat (B64.add x (B64.mul x loan_interest_monthly)).
Proof.
  intros Hmul Hadd. destruct loan as [z|x]; simpl in *.
  - unfold float_binop in Hmul. simpl in Hmul.
    destruct (float_of_int z) as [x|] eqn:Hx; [|done]. simpl in Hmul.
    injection Hmul as <-. simpl in Hadd. unfold float_binop in Hadd. simpl in Hadd.
    rewrite Hx in Hadd. simpl in Hadd. injection Hadd as <-. eauto.
  - injection Hmul as <-. simpl in Hadd. injection Hadd as <-. eauto.
Qed.

(** The payment lines on a float balance [a]: either the fixed payment
    is strictly below [a] and is subtracted, or [a] itself is. *)
Lemma payment_inv (a : spec_float) (P : Z) (loan' : pynum) :
  py_sub (PyFloat a) (py_min (PyFloat a) (PyInt P)) = Some loan' →
  (B64.compare_Z P a = Some Lt ∧ py_min (PyFloat a) (PyInt P) = PyInt P ∧
   ∃ y, float_of_int P = Some y ∧ loan' = PyFloat (B64.sub a y)) ∨
  (B64.compare_Z P a ≠ Some Lt ∧ py_min (PyFloat a) (PyInt P) = PyFloat a ∧
   loan' = PyFloat (B64.sub a a)).
Proof.
  unfold py_min, py_lt, py_compare.
  destruct (B64.compare_Z P a) as [[| |]|] eqn:Hc; simpl;
    try (intros [= <-]; right; split; [done|split; done]).
  unfold float_binop. simpl. destruct (float_of_int P) as [y|]; [|done]. simpl.
  intros [= <-]. left. eauto.
Qed.

Lemma compare_Z_infinity (z : Z) : B64.compare_Z z (S754_infinity false) = Some Lt.
Proof. done. Qed.

(** After the payment the balance is a well-formed float that is
    either not below zero or a NaN. *)
Lemma payment_result (a : spec_float) (P : Z) (loan' : pynum) :
  B64.valid a = true →
  py_sub (PyFloat a) (py_min (PyFloat a) (PyInt P)) = Some loan' →
  ∃ l, loan' = PyFloat l ∧ B64.valid l = true ∧
       (B64.nonneg l = true ∨ l = S754_nan) ∧
       (B64.nonneg a = true → B64.nonneg l = true).
Proof.
  intros Ha H. apply payment_inv in H as [(Hc & _ & y & Hy & ->)|(Hc & _ & ->)].
  - exists (B64.sub a y). split; [done|].
    pose proof (sub_of_Z_nonneg a P y Ha Hc Hy) as Hn. split; [|by auto].
    apply sub_valid; [done|]. apply float_of_int_Some in Hy as [-> _]. apply of_Z_valid.
  - exists (B64.sub a a). split; [done|]. rewrite sub_diag.
    destruct a as [s|s| |s m e]; simpl; try (by auto).
    split; [done|]. split; [by right|]. destruct s; [done|]. by rewrite compare_Z_infinity in Hc.
Qed.

Lemma accrue_nonneg (x : spec_float) :
  B64.nonneg x = true →
  B64.nonneg (B64.add x (B64.mul x loan_interest_monthly)) = true.
Proof.
  intros H. apply add_nonneg; [done|].
  rewrite loan_interest_monthly_finite. by apply mul_nonneg_finite.
Qed.

Lemma accrue_zero (x : spec_float) :
  B64.is_zero x = true →
  B64.add x (B64.mul x loan_interest_monthly) = x.
Proof. destruct x as [[|]| | |]; done. Qed.

End LoanLines.

(** ** The loop and its trace *)

Section LoopFacts.

Variable ibm : gmap Z Z.
Variable P : Z.
Variable sr : pynum.
Variable inhs : list Inh.t.

(** What one successful iteration computed, line by line. *)
Lemma iteration_inv (st : state) (m : Z) (f : frame) :
  iteration ibm P sr inhs st m = Some f →
  ∃ interest growth grown saved,
    py_mul (loan st) (PyFloat loan_interest_monthly) = Some interest ∧
    py_add (loan st) interest = Some (f_accrued f) ∧
    f_loan_payment_actual f = py_min (f_accrued f) (PyInt P) ∧
    py_sub (f_accrued f) (f_loan_payment_actual f) = Some (f_loan f) ∧
    f_loan_paid_off_month f =
      (if py_le (f_loan f) (PyInt 0) && bool_decide (loan_paid_off_month st = None)
       then Some m else loan_paid_off_month st) ∧
    py_sub (PyInt (f_current_income f)) (f_loan_payment_actual f) = Some (f_leftover f) ∧
    (if py_le (f_loan f) (PyInt 0) then py_mul (f_leftover f) sr
     else Some (PyFloat B64.zero)) = Some (f_savings_contrib f) ∧
    py_add (PyInt 1) (PyFloat investment_return_monthly) = Some growth ∧
    py_mul (invested st) growth = Some grown ∧
    py_add grown (f_savings_contrib f) = Some saved ∧
    py_add saved (PyInt (f_inheritance_this_month f)) = Some (f_invested f) ∧
    f_month f = m ∧
    f_year f = (m - 1) `div` 12 + 1 ∧
    f_current_income f = default 0 (ibm !! m) ∧
    f_inheritance_this_month f = inheritance_this_month inhs m.
Proof.
  unfold iteration. intros H.
  apply bind_Some in H as (interest & Hint & H).
  apply bind_Some in H as (accrued & Hacc & H).
  apply bind_Some in H as (loan' & Hloan & H).
  apply bind_Some in H as (leftover & Hleft & H).
  apply bind_Some in H as (sc & Hsc & H).
  apply bind_Some in H as (growth & Hg & H).
  apply bind_Some in H as (grown & Hgr & H).
  apply bind_Some in H as (saved & Hsv & H).
  apply bind_Some in H as (invested' & Hinv & H).
  injection H as <-. simpl.
  exists interest, growth, grown, saved. repeat split; done.
Qed.

Lemma trace_foldl_advance (fs : list frame) (st : state) :
  trace (foldl advance st fs) = trace st ++ fs.
Proof.
  revert st. induction fs as [|f fs IH]; intros st; simpl.
  - by rewrite app_nil_r.
  - rewrite IH. simpl. by rewrite <- app_assoc.
Qed.

Lemma rows_foldl_advance (fs : list frame) (st : state) :
  rows (foldl advance st fs) = rows st ++ (row_of <$> fs).
Proof.
  revert st. induction fs as [|f fs IH]; intros st; simpl.
  - by rewrite app_nil_r.
  - rewrite IH. simpl. by rewrite <- app_assoc.
Qed.

Lemma simulation_loop_spec (ms : list Z) (st st' : state) :
  simulation_loop ibm P sr inhs ms st = Some st' →
  ∃ fs, st' = foldl advance st fs ∧ length fs = length ms ∧
        ∀ (k : nat) m f, ms !! k = Some m → fs !! k = Some f →
          iteration ibm P sr inhs (foldl advance st (take k fs)) m = Some f.
Proof.
  revert st. induction ms as [|m ms IH]; intros st H; simpl in H.
  - injection H as <-. exists []. split; [done|]. split; [done|]. by intros k m f.
  - apply bind_Some in H as (f & Hf & H).
    destruct (IH _ H) as (fs & -> & Hlen & Hfs).
    exists (f :: fs). split; [done|]. split; [simpl; lia|].
    intros [|k] m' f' Hm Hf'; simpl in *.
    + by injection Hm as <-; injection Hf' as <-.
    + by apply Hfs.
Qed.

End LoopFacts.

Section StateBefore.

Variable i : inputs.
Variable tr : list frame.

Lemma state_before_0 : state_before i tr 0 = initial_state (loan_balance i).
Proof. unfold state_before. by rewrite take_0. Qed.

Lemma state_before_S (k : nat) (f : frame) :
  tr !! k = Some f → state_before i tr (S k) = advance (state_before i tr k) f.
Proof.
  intros H. unfold state_before.
  by rewrite (take_S_r _ _ _ H), foldl_app.
Qed.

Lemma state_before_all :
  state_before i tr (length tr) = foldl advance (initial_state (loan_balance i)) tr.
Proof. unfold state_before. by rewrite firstn_all. Qed.

End StateBefore.

(** A successful run: the savings rate, the trace, the rows, and the
    iteration that produced each frame. *)
Lemma projection_spec (i : inputs) (st : state) :
  projection i = Some st →
  ∃ savings_rate,
    py_truediv (PyInt (savings_pct i)) (PyInt 100) = Some savings_rate ∧
    st = state_before i (trace st) (length (trace st)) ∧
    rows st = row_of <$> trace st ∧
    length (trace st) = Z.to_nat (years i * 12) ∧
    ∀ (k : nat) f, trace st !! k = Some f →
      iteration (income_by_month (income_schedule i) (retirement_year i * 12))
        (loan_payment i) savings_rate (inheritances i)
        (state_before i (trace st) k) (Z.of_nat k + 1) = Some f.
Proof.
  unfold projection. intros H.
  apply bind_Some in H as (savings_rate & Hsr & H). cbv zeta in H.
  apply simulation_loop_spec in H as (fs & -> & Hlen & Hfs).
  exists savings_rate.
  rewrite trace_foldl_advance, rows_foldl_advance. simpl.
  split; [done|]. split; [by rewrite state_before_all|]. split; [done|].
  unfold py_range in Hlen. rewrite length_seqZ in Hlen.
  split; [rewrite Hlen; f_equal; lia|].
  intros k f Hf. apply Hfs; [|done].
  unfold py_range. apply lookup_seqZ. split; [lia|].
  apply lookup_lt_Some in Hf. lia.
Qed.

(** ** Invariants of the loan balance *)

Section LoanInvariants.

Variable i : inputs.
Variable st : state.
Hypothesis Hrun : projection i = Some st.

(** The balance carried into iteration [k] is an [int] or a
    well-formed float. *)
Lemma loan_before_valid (k : nat) :
  (k ≤ length (trace st))%nat → py_valid (loan (state_before i (trace st) k)).
Proof.
  destruct (projection_spec i st Hrun) as (savings_rate & _ & _ & _ & _ & Hit).
  induction k as [|k IH]; intros Hk.
  - by rewrite state_before_0.
  - destruct (lookup_lt_is_Some_2 (trace st) k ltac:(lia)) as [f Hf].
    rewrite (state_before_S _ _ _ _ Hf). simpl.
    destruct (iteration_inv _ _ _ _ _ _ _ (Hit k f Hf))
      as (interest & gr1 & gr2 & gr3 & Hmul & Hadd & Hpay & Hsub & _).
    destruct (accrue_inv _ _ _ Hmul Hadd) as (x & Hx & Ha).
    pose proof (to_float_valid _ _ (IH ltac:(lia)) Hx) as Hvx.
    rewrite Hpay, Ha in Hsub.
    destruct (payment_result _ _ _ (accrue_valid x _ Hvx) Hsub) as (l & -> & Hl & _).
    done.
Qed.

(** The loan values of a frame: the balance carried in, as a float
    [x], the accrued balance [a] and the balance [l] after the
    payment. *)
Lemma frame_loan (k : nat) (f : frame) :
  trace st !! k = Some f →
  ∃ x a l,
    to_float (loan (state_before i (trace st) k)) = Some x ∧
    B64.valid x = true ∧
    a = B64.add x (B64.mul x loan_interest_monthly) ∧
    B64.valid a = true ∧
    f_accrued f = PyFloat a ∧
    f_loan_payment_actual f = py_min (PyFloat a) (PyInt (loan_payment i)) ∧
    py_sub (PyFloat a) (f_loan_payment_actual f) = Some (PyFloat l) ∧
    f_loan f = PyFloat l ∧
    B64.valid l = true ∧
    (B64.nonneg l = true ∨ l = S754_nan) ∧
    (B64.nonneg a = true → B64.nonneg l = true).
Proof.
  intros Hf.
  destruct (projection_spec i st Hrun) as (savings_rate & _ & _ & _ & _ & Hit).
  destruct (iteration_inv _ _ _ _ _ _ _ (Hit k f Hf))
    as (interest & gr1 & gr2 & gr3 & Hmul & Hadd & Hpay & Hsub & _).
  destruct (accrue_inv _ _ _ Hmul Hadd) as (x & Hx & Ha).
  pose proof (lookup_lt_Some _ _ _ Hf) as Hk.
  pose proof (to_float_valid _ _ (loan_before_valid k ltac:(lia)) Hx) as Hvx.
  pose proof (accrue_valid x loan_interest_monthly Hvx) as Hva.
  rewrite Ha in Hpay. rewrite Hpay, Ha in Hsub.
  destruct (payment_result _ _ _ Hva Hsub) as (l & Hl & Hvl & Hnn & Himp).
  exists x, (B64.add x (B64.mul x loan_interest_monthly)), l.
  rewrite Hpay, Ha. rewrite <- Hl. repeat split; done.
Qed.

Lemma loan_before_S (k : nat) (f : frame) :
  trace st !! k = Some f →
  loan (state_before i (trace st) (S k)) = f_loan f ∧
  invested (state_before i (trace st) (S k)) = f_invested f ∧
  loan_paid_off_month (state_before i (trace st) (S k)) = f_loan_paid_off_month f.
Proof. intros Hf. by rewrite (state_before_S _ _ _ _ Hf). Qed.

(** When the initial balance is not negative, no balance ever is. *)
Lemma loan_nonneg (k : nat) (f : frame) :
  0 ≤ loan_balance i →
  trace st !! k = Some f →
  ∃ a l, f_accrued f = PyFloat a ∧ f_loan f = PyFloat l ∧
         B64.nonneg a = true ∧ B64.nonneg l = true.
Proof.
  intros Hlb. revert f. induction k as [|k IH]; intros f Hf;
    destruct (frame_loan _ f Hf)
      as (x & a & l & Hx & _ & Ha & _ & Hfa & _ & _ & Hfl & _ & _ & Himp);
    exists a, l; split; try done; split; try done.
  - rewrite state_before_0 in Hx. simpl in Hx.
    apply float_of_int_Some in Hx as [-> _].
    assert (B64.nonneg a = true) by (rewrite Ha; apply accrue_nonneg, of_Z_nonneg; lia).
    auto.
  - destruct (lookup_lt_is_Some_2 (trace st) k) as [g Hg].
    { apply lookup_lt_Some in Hf. lia. }
    destruct (IH g Hg) as (_ & l' & _ & Hgl & _ & Hnl).
    destruct (loan_before_S k g Hg) as (Hloan & _). rewrite Hloan, Hgl in Hx.
    injection Hx as <-.
    assert (B64.nonneg a = true) by (rewrite Ha; by apply accrue_nonneg).
    auto.
Qed.

End LoanInvariants.

(** ** The payoff month *)

Section Payoff.

Variable i : inputs.
Variable st : state.
Hypothesis Hrun : projection i = Some st.

Lemma first_paid_unique (tr : list frame) (j1 j2 : nat) (g1 g2 : frame) :
  first_paid tr j1 g1 → first_paid tr j2 g2 → j1 = j2 ∧ g1 = g2.
Proof.
  intros (H1 & Hle1 & Hmin1) (H2 & Hle2 & Hmin2).
  assert (j1 = j2) as ->.
  { destruct (Nat.lt_trichotomy j1 j2) as [Hlt|[Heq|Hgt]]; [|done|].
    - rewrite (Hmin2 j1 g1 Hlt H1) in Hle1. done.
    - rewrite (Hmin1 j2 g2 Hgt H2) in Hle2. done. }
  split; [done|]. congruence.
Qed.

Lemma frame_paid (k : nat) (f : frame) :
  trace st !! k = Some f →
  f_month f = Z.of_nat k + 1 ∧
  f_loan_paid_off_month f =
    (if py_le (f_loan f) (PyInt 0) &&
        bool_decide (loan_paid_off_month (state_before i (trace st) k) = None)
     then Some (f_month f)
     else loan_paid_off_month (state_before i (trace st) k)).
Proof.
  intros Hf.
  destruct (projection_spec i st Hrun) as (savings_rate & _ & _ & _ & _ & Hit).
  destruct (iteration_inv _ _ _ _ _ _ _ (Hit k f Hf))
    as (_ & _ & _ & _ & _ & _ & _ & _ & Hp & _ & _ & _ & _ & _ & _ & Hm & _).
  by rewrite Hm.
Qed.

(** Before iteration [k]: nothing is recorded while every balance so
    far was above zero, and otherwise the month of the first one that
    was not. *)
Lemma paid_before (k : nat) :
  (k ≤ length (trace st))%nat →
  match loan_paid_off_month (state_before i (trace st) k) with
  | None => ∀ (j : nat) g, (j < k)%nat → trace st !! j = Some g →
                           py_le (f_loan g) (PyInt 0) = false
  | Some m => ∃ (j : nat) g, (j < k)%nat ∧ first_paid (trace st) j g ∧ f_month g = m
  end.
Proof.
  induction k as [|k IH]; intros Hk.
  - rewrite state_before_0. simpl. intros j g Hj. lia.
  - destruct (lookup_lt_is_Some_2 (trace st) k ltac:(lia)) as [f Hf].
    destruct (loan_before_S i st k f Hf) as (_ & _ & ->).
    destruct (frame_paid k f Hf) as [Hm ->].
    specialize (IH ltac:(lia)).
    destruct (loan_paid_off_month (state_before i (trace st) k)) as [m|].
    + rewrite andb_false_r. destruct IH as (j & g & Hj & Hfirst & Hg).
      exists j, g. split; [lia|done].
    + rewrite andb_true_r. destruct (py_le (f_loan f) (PyInt 0)) eqn:Hle.
      * exists k, f. split; [lia|]. split; [|done]. split; [done|]. split; [done|].
        intros j' g' Hj' Hg'. by apply (IH j' g').
      * intros j g Hj Hg. destruct (decide (j = k)) as [->|Hne].
        -- rewrite Hf in Hg. by injection Hg as <-.
        -- apply (IH j g); [lia|done].
Qed.

(** Once a frame carries a payoff month, every later frame carries
    the same one. *)
Lemma paid_stable (k k' : nat) (f f' : frame) (m : Z) :
  trace st !! k = Some f → f_loan_paid_off_month f = Some m →
  (k ≤ k')%nat → trace st !! k' = Some f' →
  f_loan_paid_off_month f' = Some m.
Proof.
  intros Hf Hm Hle. revert f'. induction Hle as [|k' Hle IH]; intros f' Hf'.
  - rewrite Hf in Hf'. by injection Hf' as <-.
  - destruct (lookup_lt_is_Some_2 (trace st) k') as [g Hg].
    { apply lookup_lt_Some in Hf'. lia. }
    destruct (frame_paid (S k') f' Hf') as [_ ->].
    destruct (loan_before_S i st k' g Hg) as (_ & _ & ->).
    rewrite (IH g Hg). by rewrite andb_false_r.
Qed.

Lemma final_paid :
  loan_paid_off_month st =
    loan_paid_off_month (state_before i (trace st) (length (trace st))).
Proof.
  destruct (projection_spec i st Hrun) as (_ & _ & Hst & _). by rewrite <- Hst.
Qed.

End Payoff.

(** ** Once the balance is zero *)

Section PaidOff.

Variable i : inputs.
Variable st : state.
Hypothesis Hrun : projection i = Some st.

(** A balance after the payment that is at most zero is a zero. *)
Lemma paid_is_zero (k : nat) (f : frame) :
  trace st !! k = Some f →
  py_le (f_loan f) (PyInt 0) = true →
  ∃ z, f_loan f = PyFloat z ∧ B64.is_zero z = true.
Proof.
  intros Hf Hle.
  destruct (frame_loan i st Hrun k f Hf)
    as (x & a & l & _ & _ & _ & _ & _ & _ & _ & Hfl & _ & Hnn & _).
  rewrite Hfl in Hle. exists l. split; [done|].
  destruct Hnn as [Hnn| ->]; [|by rewrite py_le_nan_l in Hle].
  by rewrite py_le_nonneg_0 in Hle.
Qed.

(** With a payment that is not negative, a zero balance carried into a
    month leaves it as [+0.0], and nothing is paid. *)
Lemma zero_step (k : nat) (g f : frame) (z : spec_float) :
  0 ≤ loan_payment i →
  trace st !! k = Some g → f_loan g = PyFloat z → B64.is_zero z = true →
  trace st !! S k = Some f →
  f_accrued f = PyFloat z ∧ f_loan_payment_actual f = PyFloat z ∧
  f_loan f = PyFloat B64.zero.
Proof.
  intros HP Hg Hgl Hz Hf.
  destruct (frame_loan i st Hrun (S k) f Hf)
    as (x & a & l & Hx & _ & Ha & _ & Hfa & Hpay & Hsub & Hfl & _).
  destruct (loan_before_S i st k g Hg) as (Hloan & _).
  rewrite Hloan, Hgl in Hx. injection Hx as <-.
  rewrite accrue_zero in Ha by done. subst a.
  assert (Hmin : py_min (PyFloat z) (PyInt (loan_payment i)) = PyFloat z).
  { unfold py_min, py_lt, py_compare. destruct z as [s| | |]; try done. simpl.
    destruct (Z.compare_spec (loan_payment i) 0); try done. lia. }
  rewrite Hmin in Hpay. rewrite Hpay in Hsub. simpl in Hsub.
  injection Hsub as Hl. rewrite sub_diag in Hl.
  destruct z as [s| | |]; try done. simpl in Hl. subst l. done.
Qed.

(** From the first zero balance on, every balance is a zero. *)
Lemma zero_from (j k : nat) (g f : frame) :
  0 ≤ loan_payment i →
  trace st !! j = Some g → py_le (f_loan g) (PyInt 0) = true →
  (j ≤ k)%nat → trace st !! k = Some f →
  ∃ z, f_loan f = PyFloat z ∧ B64.is_zero z = true ∧
       ((j < k)%nat →
        z = B64.zero ∧
        ∃ a, f_accrued f = PyFloat a ∧ f_loan_payment_actual f = PyFloat a ∧
             B64.is_zero a = true).
Proof.
  intros HP Hg Hle Hjk. revert f. induction Hjk as [|k Hjk IH]; intros f Hf.
  - rewrite Hg in Hf. injection Hf as <-.
    destruct (paid_is_zero j g Hg Hle) as (z & Hz & Hzz).
    exists z. split; [done|]. split; [done|]. lia.
  - destruct (lookup_lt_is_Some_2 (trace st) k) as [h Hh].
    { apply lookup_lt_Some in Hf. lia. }
    destruct (IH h Hh) as (z & Hhl & Hz & _).
    destruct (zero_step k h f z HP Hh Hhl Hz Hf) as (Ha & Hpay & Hl).
    exists B64.zero. split; [done|]. split; [done|]. intros _. split; [done|].
    by exists z.
Qed.

End PaidOff.

(** ** Rounding to two places *)

Section Round2.

Lemma div_nonneg (q d : positive) :
  B64.nonneg (B64.div (S754_finite false q 0) (S754_finite false d 0)) = true.
Proof.
  unfold B64.div, SFdiv, SFdiv_core_binary.
  set (e' := Z.min _ _). set (m' := match 0 - 0 - e' with Z0 => _ | _ => _ end).
  assert (Hm' : 0 ≤ m').
  { subst m'. destruct (0 - 0 - e'); try done. by apply Z.shiftl_nonneg. }
  pose proof (Z_div_mod m' (Zpos d) ltac:(lia)) as Hdm.
  destruct (Z.div_eucl m' (Zpos d)) as [mz r]. simpl.
  apply has_sign_nonneg, (binary_round_aux_sign false). nia.
Qed.

Lemma round2_nonneg (x : spec_float) :
  B64.nonneg x = true → B64.nonneg (B64.round2 x) = true.
Proof.
  destruct x as [s|s| |s m e]; simpl; try done.
  destruct s; [done|]. intros _.
  destruct (B64.hundredths m e); try done. apply div_nonneg.
Qed.

Lemma py_max_nonneg (l : spec_float) :
  B64.nonneg l = true → py_max (PyFloat l) (PyInt 0) = PyFloat l.
Proof. intros H. unfold py_max. by rewrite py_lt_nonneg_0. Qed.

End Round2.

(** ** Facts shared by the statements about savings *)

Lemma savings_and_investment_facts (i : inputs) (st : state) :
  projection i = Some st →
  ∃ savings_rate,
    py_truediv (PyInt (savings_pct i)) (PyInt 100) = Some savings_rate ∧
    ∀ (k : nat) (f : frame), trace st !! k = Some f →
      py_sub (PyInt (f_current_income f)) (f_loan_payment_actual f)
        = Some (f_leftover f) ∧
      (if py_le (f_loan f) (PyInt 0)
       then py_mul (f_leftover f) savings_rate = Some (f_savings_contrib f)
       else f_savings_contrib f = PyFloat B64.zero).
Proof.
  intros Hrun.
  destruct (projection_spec i st Hrun) as (savings_rate & Hsr & _ & _ & _ & Hit).
  exists savings_rate. split; [done|]. intros k f Hf.
  destruct (iteration_inv _ _ _ _ _ _ _ (Hit k f Hf))
    as (_ & _ & _ & _ & _ & _ & _ & _ & _ & Hleft & Hsc & _).
  split; [done|].
  destruct (py_le (f_loan f) (PyInt 0)); [done|]. by injection Hsc.
Qed.

(** The recorded payoff month is the month of the first frame whose
    balance is at most zero. *)
Lemma paid_month_first (i : inputs) (st : state) (m : Z) :
  projection i = Some st →
  loan_paid_off_month st = Some m →
  ∃ (j : nat) g, trace st !! j = Some g ∧ f_month g = m ∧
    py_le (f_loan g) (PyInt 0) = true ∧
    ∀ (j' : nat) g', (j' < j)%nat → trace st !! j' = Some g' →
                     py_le (f_loan g') (PyInt 0) = false.
Proof.
  intros Hrun Hm. rewrite (final_paid i st Hrun) in Hm.
  pose proof (paid_before i st Hrun (length (trace st)) (le_n _)) as H.
  rewrite Hm in H. destruct H as (j & g & _ & (Hg & Hle & Hmin) & Hgm).
  by exists j, g.
Qed.

(** ** The income mapping *)

Section IncomeByMonth.

Variable retirement_month : Z.

Lemma foldl_insert_lookup (v : Z) (l : list Z) (acc : gmap Z Z) (m : Z) :
  foldl (λ acc month,
           if decide (month ≤ retirement_month) then <[month := v]> acc else acc)
        acc l !! m
  = if decide (m ∈ l ∧ m ≤ retirement_month) then Some v else acc !! m.
Proof.
  revert acc. induction l as [|x l IH]; intros acc; simpl.
  - destruct (decide (m ∈ [] ∧ m ≤ retirement_month)) as [[H _]|];
      [by apply elem_of_nil in H|done].
  - rewrite IH. destruct (decide (m ∈ l ∧ m ≤ retirement_month)) as [[Hin Hle]|Hn].
    + rewrite decide_True; [done|]. split; [by apply elem_of_cons; right|done].
    + destruct (decide (x ≤ retirement_month)) as [Hx|Hx].
      * destruct (decide (x = m)) as [->|Hne].
        -- rewrite lookup_insert_eq. rewrite decide_True; [done|].
           split; [apply elem_of_cons; by left|done].
        -- rewrite lookup_insert_ne by done. rewrite decide_False; [done|].
           intros [Hin Hle]. apply elem_of_cons in Hin as [->|Hin]; [done|].
           by apply Hn.
      * rewrite decide_False; [done|].
        intros [Hin Hle]. apply elem_of_cons in Hin as [->|Hin]; [lia|].
        by apply Hn.
Qed.

Lemma add_period_lookup (acc : gmap Z Z) (period : income_period) (m : Z) :
  add_period retirement_month acc period !! m
  = if decide (covers period m ∧ m ≤ retirement_month)
    then Some (monthly_income period) else acc !! m.
Proof.
  unfold add_period. rewrite foldl_insert_lookup.
  unfold py_range, covers.
  destruct (decide (_ ∧ m ≤ retirement_month)) as [[Hin Hle]|Hn].
  - apply elem_of_seqZ in Hin. rewrite decide_True; [done|]. lia.
  - rewrite decide_False; [done|]. intros [Hc Hle]. apply Hn.
    split; [|done]. apply elem_of_seqZ. lia.
Qed.

Lemma income_by_month_lookup (schedule : list income_period) (m v : Z) :
  income_by_month schedule retirement_month !! m = Some v ↔
  m ≤ retirement_month ∧
  ∃ (k : nat) period,
    schedule !! k = Some period ∧ covers period m ∧ monthly_income period = v ∧
    ∀ (k' : nat) period', (k < k')%nat → schedule !! k' = Some period' →
                          ¬ covers period' m.
Proof.
  unfold income_by_month. induction schedule as [|p l IH] using rev_ind.
  - simpl. rewrite lookup_empty. split; [done|].
    intros (_ & k & period & H & _). by rewrite lookup_nil in H.
  - rewrite foldl_app. simpl. rewrite add_period_lookup.
    destruct (decide (covers p m ∧ m ≤ retirement_month)) as [[Hc Hle]|Hn].
    + split.
      * intros [= <-]. split; [done|]. exists (length l), p.
        split; [by rewrite list_lookup_middle|]. split; [done|]. split; [done|].
        intros k' p' Hk' Hp'. apply lookup_lt_Some in Hp'.
        rewrite length_app in Hp'. simpl in Hp'. lia.
      * intros (_ & k & period & Hk & Hcov & Hv & Hlast).
        destruct (decide (k = length l)) as [->|Hne].
        -- rewrite list_lookup_middle in Hk by done. injection Hk as <-. by rewrite Hv.
        -- exfalso. apply (Hlast (length l) p); [|by rewrite list_lookup_middle|done].
           apply lookup_lt_Some in Hk. rewrite length_app in Hk. simpl in Hk. lia.
    + rewrite IH. split.
      * intros (Hle & k & period & Hk & Hcov & Hv & Hlast). split; [done|].
        exists k, period. split; [by apply lookup_app_l_Some|].
        split; [done|]. split; [done|].
        intros k' p' Hk' Hp'.
        destruct (decide (k' = length l)) as [->|Hne].
        -- rewrite list_lookup_middle in Hp' by done. injection Hp' as <-.
           intros Hc. by apply Hn.
        -- apply (Hlast k' p' Hk').
           rewrite lookup_app_l in Hp'; [done|].
           apply lookup_lt_Some in Hp'. rewrite length_app in Hp'. simpl in Hp'. lia.
      * intros (Hle & k & period & Hk & Hcov & Hv & Hlast). split; [done|].
        destruct (decide (k = length l)) as [->|Hne].
        { rewrite list_lookup_middle in Hk by done. injection Hk as <-.
          exfalso. by apply Hn. }
        assert (Hkl : (k < length l)%nat).
        { apply lookup_lt_Some in Hk. rewrite length_app in Hk. simpl in Hk. lia. }
        exists k, period. rewrite lookup_app_l in Hk by done.
        split; [done|]. split; [done|]. split; [done|].
        intros k' p' Hk' Hp'. apply (Hlast k' p' Hk').
        by apply lookup_app_l_Some.
Qed.

End IncomeByMonth.

(** ** Sums of inheritances *)

Section Sums.

Lemma foldl_add_shift (a : Z) (l : list Z) :
  foldl Z.add a l = a + foldl Z.add 0 l.
Proof.
  revert a. induction l as [|x l IH]; intros a; simpl; [lia|].
  rewrite (IH (a + x)), (IH (0 + x)). lia.
Qed.

Lemma py_sum_cons (x : Z) (l : list Z) : py_sum (x :: l) = x + py_sum l.
Proof. unfold py_sum. simpl. apply foldl_add_shift. Qed.

Lemma py_sum_nil : py_sum [] = 0.
Proof. done. Qed.

Lemma py_sum_fmap_add {A : Type} (f g : A → Z) (l : list A) :
  py_sum ((λ x, f x + g x) <$> l) = py_sum (f <$> l) + py_sum (g <$> l).
Proof.
  induction l as [|x l IH]; [done|].
  rewrite !fmap_cons, !py_sum_cons, IH. lia.
Qed.

Lemma py_sum_fmap_zero {A : Type} (l : list A) : py_sum ((λ _, 0) <$> l) = 0.
Proof. induction l as [|x l IH]; [done|]. by rewrite fmap_cons, py_sum_cons, IH. Qed.

(** An amount counted in the one month that equals [c]. *)
Lemma py_sum_indicator (c a : Z) (ms : list Z) :
  NoDup ms →
  py_sum ((λ m, if decide (c = m) then a else 0) <$> ms)
  = if decide (c ∈ ms) then a else 0.
Proof.
  induction 1 as [|x ms Hx Hnd IH]; [done|].
  rewrite fmap_cons, py_sum_cons, IH.
  destruct (decide (c = x)) as [->|Hne].
  - rewrite (decide_False (P := x ∈ ms)) by done.
    rewrite decide_True by (apply elem_of_cons; by left). lia.
  - destruct (decide (c ∈ ms)) as [Hin|Hnin].
    + rewrite decide_True by (apply elem_of_cons; by right). lia.
    + rewrite decide_False; [lia|].
      intros [->|Hin]%elem_of_cons; done.
Qed.

Lemma inheritance_this_month_cons (inh : Inh.t) (l : list Inh.t) (m : Z) :
  inheritance_this_month (inh :: l) m
  = (if decide (Inh.month inh = m) then Inh.amount inh else 0)
    + inheritance_this_month l m.
Proof.
  unfold inheritance_this_month. rewrite filter_cons.
  destruct (decide (Inh.month inh = m)); [|lia].
  by rewrite fmap_cons, py_sum_cons.
Qed.

(** Summed over months [1 .. n], the monthly sums count every
    inheritance whose month is in that range exactly once. *)
Lemma inheritance_months_total (inhs : list Inh.t) (n : Z) :
  Forall (λ inh, 1 ≤ Inh.month inh ≤ n) inhs →
  py_sum (inheritance_this_month inhs <$> seqZ 1 n)
  = py_sum (Inh.amount <$> inhs).
Proof.
  induction 1 as [|inh l Hinh Hl IH].
  - unfold inheritance_this_month. simpl. apply py_sum_fmap_zero.
  - rewrite fmap_cons, py_sum_cons, <- IH.
    rewrite (list_fmap_ext _ (λ m, (if decide (Inh.month inh = m)
                                    then Inh.amount inh else 0)
                                   + inheritance_this_month l m) (seqZ 1 n))
      by (intros; apply inheritance_this_month_cons).
    rewrite (py_sum_fmap_add
               (λ m, if decide (Inh.month inh = m) then Inh.amount inh else 0)
               (inheritance_this_month l)).
    rewrite py_sum_indicator by apply NoDup_seqZ.
    rewrite decide_True; [done|]. apply elem_of_seqZ. lia.
Qed.

End Sums.

(** The [Inheritance] column of a successful run. *)
Lemma inheritance_column (i : inputs) (st : state) :
  projection i = Some st →
  Inheritance <$> rows st
  = inheritance_this_month (inheritances i) <$> seqZ 1 (years i * 12).
Proof.
  intros Hrun.
  destruct (projection_spec i st Hrun) as (sr & _ & _ & Hrows & Hlen & Hit).
  apply list_eq. intros k. rewrite Hrows, !list_lookup_fmap.
  destruct (trace st !! k) as [f|] eqn:Hf; simpl.
  - destruct (iteration_inv _ _ _ _ _ _ _ (Hit k f Hf))
      as (_ & _ & _ & _ & _ & _ & _ & _ & _ & _ & _ & _ & _ & _ & _ & _ & _ & _ & Hinh).
    pose proof (lookup_lt_Some _ _ _ Hf) as Hk.
    rewrite lookup_seqZ_lt by lia. simpl. rewrite Hinh. do 2 f_equal. lia.
  - apply lookup_ge_None in Hf. rewrite lookup_seqZ_ge; [done|lia].
Qed.

(** ** A run on valid inputs completes *)

Section Totality.

Lemma float_of_int_small (z : Z) :
  Z.abs z < 2 ^ 1023 → ∃ x, float_of_int z = Some x.
Proof.
  intros Hz. unfold float_of_int.
  enough (B64.is_infinity (B64.of_Z z) = false) as -> by eauto.
  assert (Hp : ∀ s p, Zpos p < 2 ^ 1023 →
               B64.is_infinity (binary_round B64.prec B64.emax s p 0) = false).
  { intros s p Hlt.
    assert (Hd : Zdigits2 (Zpos p) ≤ 1023).
    { pose proof (Zdigits2_bounds (Zpos p) ltac:(lia)) as [Hlo _].
      destruct (Z_le_gt_dec (Zdigits2 (Zpos p)) 1023) as [|Hgt]; [done|].
      assert (2 ^ 1023 ≤ 2 ^ (Zdigits2 (Zpos p) - 1)) by (apply Z.pow_le_mono_r; lia).
      plia. }
    destruct (Z_le_gt_dec (Zdigits2 (Zpos p)) 53) as [Hs|Hl].
    - destruct (binary_round_int_small s p Hs) as (my & -> & _). done.
    - pose proof (binary_round_int_large s p ltac:(lia)) as H. cbv zeta in H.
      destruct (binary_round B64.prec B64.emax s p 0); try done. lia. }
  destruct z as [|p|p]; [done| |]; apply Hp; lia.
Qed.

(** Integers a number input can return, and small sums of them. *)
Lemma float_of_int_widget (z : Z) :
  Z.abs z < 2 ^ 56 → ∃ x, float_of_int z = Some x.
Proof.
  intros Hz. apply float_of_int_small.
  assert (2 ^ 56 ≤ 2 ^ 1023) by (apply Z.pow_le_mono_r; lia). plia.
Qed.

Lemma savings_rate_total (pct : Z) :
  0 ≤ pct ≤ 100 →
  ∃ x, py_truediv (PyInt pct) (PyInt 100) = Some (PyFloat x).
Proof.
  intros Hpct.
  assert (Hall : forallb (λ z, match py_truediv (PyInt z) (PyInt 100) with
                                | Some (PyFloat _) => true
                                | _ => false
                                end) (seqZ 0 101) = true) by (vm_compute; reflexivity).
  rewrite forallb_forall in Hall.
  specialize (Hall pct). rewrite <- list_elem_of_In in Hall.
  specialize (Hall ltac:(apply elem_of_seqZ; lia)).
  destruct (py_truediv (PyInt pct) (PyInt 100)) as [[|x]|]; try done. eauto.
Qed.

Lemma float_binop_Some (op : spec_float → spec_float → spec_float)
    (a b : pynum) (x y : spec_float) :
  to_float a = Some x → to_float b = Some y →
  float_binop op a b = Some (PyFloat (op x y)).
Proof. intros Ha Hb. unfold float_binop. by rewrite Ha, Hb. Qed.

Lemma py_add_float_r (a : pynum) (x y : spec_float) :
  to_float a = Some x → py_add a (PyFloat y) = Some (PyFloat (B64.add x y)).
Proof. intros Ha. destruct a; by apply float_binop_Some. Qed.

Lemma py_add_float_l (b : pynum) (x y : spec_float) :
  to_float b = Some y → py_add (PyFloat x) b = Some (PyFloat (B64.add x y)).
Proof. intros Hb. by apply float_binop_Some. Qed.

Lemma py_sub_float_r (a : pynum) (x y : spec_float) :
  to_float a = Some x → py_sub a (PyFloat y) = Some (PyFloat (B64.sub x y)).
Proof. intros Ha. destruct a; by apply float_binop_Some. Qed.

Lemma py_sub_float_l (b : pynum) (x y : spec_float) :
  to_float b = Some y → py_sub (PyFloat x) b = Some (PyFloat (B64.sub x y)).
Proof. intros Hb. by apply float_binop_Some. Qed.

Lemma py_mul_float_r (a : pynum) (x y : spec_float) :
  to_float a = Some x → py_mul a (PyFloat y) = Some (PyFloat (B64.mul x y)).
Proof. intros Ha. destruct a; by apply float_binop_Some. Qed.

Variable ibm : gmap Z Z.
Variable P : Z.
Variable srx : spec_float.
Variable inhs : list Inh.t.

(** One iteration completes when every integer it converts fits in a
    float; it leaves floats in [loan] and [invested]. *)
Lemma iteration_total (st : state) (m : Z) (x v : spec_float) :
  to_float (loan st) = Some x →
  invested st = PyFloat v →
  is_Some (float_of_int P) →
  is_Some (float_of_int (default 0 (ibm !! m))) →
  is_Some (float_of_int (default 0 (ibm !! m) - P)) →
  is_Some (float_of_int (inheritance_this_month inhs m)) →
  ∃ f l v', iteration ibm P (PyFloat srx) inhs st m = Some f ∧
            f_loan f = PyFloat l ∧ f_invested f = PyFloat v'.
Proof.
  intros Hx Hv [y Hy] [inc Hinc] [left Hleft] [inh Hinh].
  unfold iteration.
  rewrite (py_mul_float_r _ _ _ Hx). cbn [mbind option_bind].
  rewrite (py_add_float_r _ _ _ Hx). cbn [mbind option_bind].
  set (a := B64.add x (B64.mul x loan_interest_monthly)).
  assert (Hpay : ∃ l leftover lf,
    py_sub (PyFloat a) (py_min (PyFloat a) (PyInt P)) = Some (PyFloat l) ∧
    py_sub (PyInt (default 0 (ibm !! m))) (py_min (PyFloat a) (PyInt P))
      = Some leftover ∧
    to_float leftover = Some lf).
  { unfold py_min. destruct (py_lt (PyInt P) (PyFloat a)).
    - exists (B64.sub a y), (PyInt (default 0 (ibm !! m) - P)), left.
      split; [by apply py_sub_float_l|]. done.
    - exists (B64.sub a a), (PyFloat (B64.sub inc a)), (B64.sub inc a).
      split; [done|]. split; [|done]. by apply py_sub_float_r. }
  destruct Hpay as (l & leftover & lf & -> & -> & Hlf).
  cbn [mbind option_bind].
  assert (Hsc : ∃ sc,
    (if py_le (PyFloat l) (PyInt 0) then py_mul leftover (PyFloat srx)
     else Some (PyFloat B64.zero)) = Some (PyFloat sc)).
  { destruct (py_le (PyFloat l) (PyInt 0)); [|by eauto].
    rewrite (py_mul_float_r _ _ _ Hlf). eauto. }
  destruct Hsc as (sc & ->). cbn [mbind option_bind].
  rewrite (py_add_float_r (PyInt 1) (B64.of_Z 1) _ eq_refl). cbn [mbind option_bind].
  rewrite Hv. rewrite (py_mul_float_r (PyFloat v) v _ eq_refl). cbn [mbind option_bind].
  rewrite (py_add_float_r (PyFloat _) _ _ eq_refl). cbn [mbind option_bind].
  rewrite (py_add_float_l (PyInt _) _ _ Hinh). cbn [mbind option_bind].
  eexists _, l, _. split; [reflexivity|]. done.
Qed.

Lemma simulation_loop_total (ms : list Z) (st : state) (x v : spec_float) :
  to_float (loan st) = Some x →
  invested st = PyFloat v →
  is_Some (float_of_int P) →
  Forall (λ m, is_Some (float_of_int (default 0 (ibm !! m))) ∧
               is_Some (float_of_int (default 0 (ibm !! m) - P)) ∧
               is_Some (float_of_int (inheritance_this_month inhs m))) ms →
  is_Some (simulation_loop ibm P (PyFloat srx) inhs ms st).
Proof.
  intros Hx Hv HP Hms. revert st x v Hx Hv.
  induction Hms as [|m ms (Hinc & Hleft & Hinh) Hms IH]; intros st x v Hx Hv; simpl.
  - eauto.
  - destruct (iteration_total st m x v Hx Hv HP Hinc Hleft Hinh)
      as (f & l & v' & -> & Hl & Hv').
    cbn [mbind option_bind].
    apply (IH _ l v'); simpl; [by rewrite Hl|done].
Qed.

End Totality.

Section ValidInputs.

Lemma income_bound (schedule : list income_period) (R m B : Z) :
  0 < B →
  Forall (λ period, 0 ≤ monthly_income period < B) schedule →
  0 ≤ default 0 (income_by_month schedule R !! m) < B.
Proof.
  intros HB Hall.
  destruct (income_by_month schedule R !! m) as [v|] eqn:Hv; simpl; [|lia].
  apply income_by_month_lookup in Hv as (_ & k & period & Hk & _ & <- & _).
  rewrite Forall_forall in Hall. apply Hall.
  by apply list_elem_of_lookup_2 in Hk.
Qed.

Lemma inheritance_bound (inhs : list Inh.t) (m B : Z) :
  0 ≤ B →
  Forall (λ inh, 0 ≤ Inh.amount inh < B) inhs →
  0 ≤ inheritance_this_month inhs m ≤ Z.of_nat (length inhs) * B.
Proof.
  intros HB. induction 1 as [|inh l Hinh Hl IH].
  - unfold inheritance_this_month. simpl. rewrite py_sum_nil. lia.
  - rewrite inheritance_this_month_cons. simpl length.
    destruct (decide (Inh.month inh = m)); nia.
Qed.

Lemma projection_total (i : inputs) :
  valid_inputs i → is_Some (projection i).
Proof.
  intros [Hlb HP Hpct Hyears Hret Hcount Hinhs Hperiods Hsched].
  unfold projection.
  destruct (savings_rate_total (savings_pct i) Hpct) as (srx & ->).
  cbn [mbind option_bind].
  assert (H53 : 2 ^ 53 * 4 < 2 ^ 56) by done.
  assert (Hpos : 0 < 2 ^ 53) by done.
  destruct (float_of_int_widget (loan_balance i)) as [x Hx]; [plia|].
  apply (simulation_loop_total _ _ _ _ _ _ x (S754_zero false)); try done.
  - apply float_of_int_widget. plia.
  - apply Forall_forall. intros m _.
    pose proof (income_bound (income_schedule i) (retirement_year i * 12) m (2 ^ 53) Hpos)
      as Hinc.
    pose proof (inheritance_bound (inheritances i) m (2 ^ 53) ltac:(lia)) as Hinh.
    specialize (Hinc ltac:(eapply Forall_impl; [exact Hsched|]; simpl; tauto)).
    specialize (Hinh ltac:(eapply Forall_impl; [exact Hinhs|]; simpl; tauto)).
    repeat split; apply float_of_int_widget; hide_pows; nia.
Qed.

End ValidInputs.

(** ** The loan lines along a run *)

Section LoanPath.

Variable ibm : gmap Z Z.
Variable P : Z.
Variable sr : pynum.
Variable inhs : list Inh.t.

Lemma iteration_loan_update (st : state) (m : Z) (f : frame) :
  iteration ibm P sr inhs st m = Some f →
  loan_update P m (loan st)
  = Some {| ll_month := m; ll_before := loan st; ll_accrued := f_accrued f;
            ll_paid := f_loan_payment_actual f; ll_after := f_loan f |}.
Proof.
  intros H. destruct (iteration_inv _ _ _ _ _ _ _ H)
    as (interest & _ & _ & _ & Hmul & Hadd & Hpay & Hsub & _).
  unfold loan_update. rewrite Hmul. cbn [mbind option_bind].
  rewrite Hadd. cbn [mbind option_bind]. rewrite <- Hpay, Hsub. done.
Qed.

Lemma loan_path_trace (fs : list frame) :
  ∀ (st0 : state) (m0 : Z) (n : nat),
    (∀ (k : nat) f, fs !! k = Some f →
       iteration ibm P sr inhs (foldl advance st0 (take k fs)) (m0 + Z.of_nat k)
       = Some f) →
    (length fs ≤ n)%nat →
    ∀ (k : nat) f, fs !! k = Some f →
      loan_path P n m0 (loan st0) !! k
      = Some {| ll_month := m0 + Z.of_nat k;
                ll_before := loan (foldl advance st0 (take k fs));
                ll_accrued := f_accrued f;
                ll_paid := f_loan_payment_actual f;
                ll_after := f_loan f |}.
Proof.
  induction fs as [|f0 fs IH]; intros st0 m0 n Hit Hn k f Hf; [done|].
  destruct n as [|n]; [simpl in Hn; lia|]. simpl loan_path.
  pose proof (Hit 0%nat f0 eq_refl) as H0. simpl in H0.
  rewrite Z.add_0_r in H0.
  rewrite (iteration_loan_update _ _ _ H0).
  destruct k as [|k]; simpl in Hf.
  - injection Hf as <-. simpl. by rewrite Z.add_0_r.
  - assert (Hit' : ∀ (k' : nat) f', fs !! k' = Some f' →
              iteration ibm P sr inhs (foldl advance (advance st0 f0) (take k' fs))
                (m0 + 1 + Z.of_nat k') = Some f').
    { intros k' f' Hf'. pose proof (Hit (S k') f' Hf') as H. simpl in H.
      rewrite <- H. f_equal. lia. }
    pose proof (IH (advance st0 f0) (m0 + 1) n Hit' ltac:(simpl in Hn; lia) k f Hf)
      as E.
    simpl. etrans; [exact E|]. do 2 f_equal. lia.
Qed.

(** A longer path starts with the shorter one. *)
Lemma loan_path_prefix (n n' : nat) (m0 : Z) (l0 : pynum) (k : nat) (ll : loan_lines) :
  (n ≤ n')%nat →
  loan_path P n m0 l0 !! k = Some ll → loan_path P n' m0 l0 !! k = Some ll.
Proof.
  revert n' m0 l0 k. induction n as [|n IH]; intros n' m0 l0 k Hn; [done|].
  destruct n' as [|n']; [lia|]. simpl.
  destruct (loan_update P m0 l0) as [ll0|]; [|done].
  destruct k as [|k]; [done|]. simpl. apply IH. lia.
Qed.

End LoanPath.

(** The loan lines of frame [k] of a successful run are entry [k] of
    the path computed from the inputs alone. *)
Lemma projection_loan_path (i : inputs) (st : state) (n : nat) (k : nat) (f : frame) :
  projection i = Some st →
  (length (trace st) ≤ n)%nat →
  trace st !! k = Some f →
  loan_path (loan_payment i) n 1 (PyInt (loan_balance i)) !! k
  = Some {| ll_month := f_month f;
            ll_before := loan (state_before i (trace st) k);
            ll_accrued := f_accrued f;
            ll_paid := f_loan_payment_actual f;
            ll_after := f_loan f |}.
Proof.
  intros Hrun Hn Hf.
  destruct (projection_spec i st Hrun) as (sr & _ & _ & _ & _ & Hit).
  destruct (frame_paid i st Hrun k f Hf) as [Hm _].
  rewrite Hm, (Z.add_comm (Z.of_nat k) 1).
  apply (loan_path_trace
           (income_by_month (income_schedule i) (retirement_year i * 12))
           (loan_payment i) sr (inheritances i) (trace st)
           (initial_state (loan_balance i)) 1 n); try done.
  intros k' f' Hf'. rewrite (Z.add_comm 1). by apply Hit.
Qed.

(** The month of the first frame whose balance is at most zero is the
    one recorded. *)
Lemma paid_month_of_first (i : inputs) (st : state) (j : nat) (g : frame) :
  projection i = Some st →
  first_paid (trace st) j g →
  loan_paid_off_month st = Some (f_month g).
Proof.
  intros Hrun Hfirst. rewrite (final_paid i st Hrun).
  pose proof (paid_before i st Hrun (length (trace st)) (le_n _)) as H.
  destruct (loan_paid_off_month (state_before i (trace st) (length (trace st))))
    as [m|].
  - destruct H as (j' & g' & _ & Hfirst' & <-).
    by destruct (first_paid_unique _ _ _ _ _ Hfirst Hfirst') as [_ ->].
  - destruct Hfirst as (Hg & Hle & _).
    rewrite (H j g (lookup_lt_Some _ _ _ Hg) Hg) in Hle. done.
Qed.

(** ** The scenario of the specification *)

Lemma scenario_path_run : loan_path 500 480 1 (PyInt 20000) = scenario_path.
Proof. vm_compute. reflexivity. Qed.

Lemma scenario_path_checked : forallb scenario_month scenario_path = true.
Proof. vm_compute. reflexivity. Qed.

Lemma scenario_frame (i : inputs) (st : state) (k : nat) (f : frame) :
  loan_balance i = 20000 → loan_payment i = 500 → years i ≤ 40 →
  projection i = Some st →
  trace st !! k = Some f →
  scenario_month {| ll_month := f_month f;
                    ll_before := loan (state_before i (trace st) k);
                    ll_accrued := f_accrued f;
                    ll_paid := f_loan_payment_actual f;
                    ll_after := f_loan f |} = true.
Proof.
  intros Hlb HP Hyears Hrun Hf.
  destruct (projection_spec i st Hrun) as (_ & _ & _ & _ & Hlen & _).
  pose proof (projection_loan_path i st 480 k f Hrun ltac:(lia) Hf) as Hpath.
  rewrite Hlb, HP, scenario_path_run in Hpath.
  pose proof scenario_path_checked as Hall. rewrite forallb_forall in Hall.
  apply Hall. apply list_elem_of_In. by apply list_elem_of_lookup_2 in Hpath.
Qed.

(** ** The constants of the model *)

(** The literals [0.05] and [0.07] denote the binary64 values nearest to
    5/100 and 7/100, and the monthly rates are the source's divisions by
    the int [12]. *)
Lemma lit_0_05_nearest : B64.of_quotient 5 100 = B64.lit_0_05.
Proof. vm_compute. reflexivity. Qed.

Lemma lit_0_07_nearest : B64.of_quotient 7 100 = B64.lit_0_07.
Proof. vm_compute. reflexivity. Qed.

Lemma loan_interest_monthly_py :
  py_truediv (PyFloat loan_interest_annual) (PyInt 12)
    = Some (PyFloat loan_interest_monthly).
Proof. vm_compute. reflexivity. Qed.

Lemma investment_return_monthly_py :
  py_truediv (PyFloat investment_return_annual) (PyInt 12)
    = Some (PyFloat investment_return_monthly).
Proof. vm_compute. reflexivity. Qed.


(** * The claims *)

(** C1: the run has one frame and one row for each of the
    [years * 12] months, in order, and ends in the state reached after
    the last one.  In every month the savings contribution is leftover
    times the savings rate when the balance after the payment is at
    most zero and [0.0] otherwise, leftover being income minus the
    actual payment with no clamping; [invested] starts at [0.0] and
    each month becomes
    [invested * (1 + 0.07/12) + savings_contrib + inheritance_this_month],
    the value the next month starts from and the row shows rounded. *)
Theorem savings_and_investment (i : inputs) (st : state) :
  projection i = Some st →
  ∃ savings_rate,
    py_truediv (PyInt (savings_pct i)) (PyInt 100) = Some savings_rate ∧
    length (trace st) = Z.to_nat (years i * 12) ∧
    rows st = row_of <$> trace st ∧
    st = state_before i (trace st) (length (trace st)) ∧
    invested (state_before i (trace st) 0) = PyFloat B64.zero ∧
    ∀ (k : nat) (f : frame), trace st !! k = Some f →
      py_sub (PyInt (f_current_income f)) (f_loan_payment_actual f)
        = Some (f_leftover f) ∧
      (if py_le (f_loan f) (PyInt 0)
       then py_mul (f_leftover f) savings_rate = Some (f_savings_contrib f)
       else f_savings_contrib f = PyFloat B64.zero) ∧
      (∃ growth grown saved,
         py_add (PyInt 1) (PyFloat (B64.div B64.lit_0_07 (B64.of_Z 12)))
           = Some growth ∧
         py_mul (invested (state_before i (trace st) k)) growth = Some grown ∧
         py_add grown (f_savings_contrib f) = Some saved ∧
         py_add saved (PyInt (f_inheritance_this_month f))
           = Some (f_invested f)) ∧
      invested (state_before i (trace st) (S k)) = f_invested f ∧
      f_month f = Z.of_nat k + 1 ∧
      f_current_income f
        = default 0 (income_by_month (income_schedule i) (retirement_year i * 12)
                       !! f_month f) ∧
      f_inheritance_this_month f
        = inheritance_this_month (inheritances i) (f_month f) ∧
      rows st !! k = Some (row_of f) ∧
      RemainingIncome (row_of f) = py_round2 (f_leftover f) ∧
      SavedThisMonth (row_of f) = py_round2 (f_savings_contrib f) ∧
      TotalInvested (row_of f) = py_round2 (f_invested f).
Proof.
  intros Hrun.
  destruct (projection_spec i st Hrun)
    as (savings_rate & Hsr & Hst & Hrows & Hlen & Hit).
  exists savings_rate. split; [done|]. split; [done|]. split; [done|].
  split; [done|]. split; [by rewrite state_before_0|].
  intros k f Hf.
  destruct (iteration_inv _ _ _ _ _ _ _ (Hit k f Hf))
    as (interest & growth & grown & saved & _ & _ & _ & _ & _ & Hleft & Hsc &
        Hg & Hgr & Hsv & Hinv & Hm & _ & Hinc & Hinh).
  split; [done|]. split.
  { destruct (py_le (f_loan f) (PyInt 0)); [done|]. by injection Hsc. }
  split; [by exists growth, grown, saved|].
  split; [by apply (loan_before_S i st k f)|].
  split; [done|]. split; [by rewrite Hm|]. split; [by rewrite Hm|].
  split; [|done]. by rewrite Hrows, list_lookup_fmap, Hf.
Qed.

Lemma savings_and_investment_witness :
  ∃ st f,
    projection sample_inputs = Some st ∧
    trace st !! 44%nat = Some f ∧
    length (trace st) = 60%nat ∧
    rows st !! 44%nat = Some (row_of f) ∧
    f_month f = 45 ∧
    invested (state_before sample_inputs (trace st) 45) = f_invested f ∧
    ∃ savings_rate,
      py_truediv (PyInt 20) (PyInt 100) = Some savings_rate ∧
      py_mul (f_leftover f) savings_rate = Some (f_savings_contrib f).
Proof.
  eexists. eexists. split; [vm_compute; reflexivity|].
  split; [vm_compute; reflexivity|].
  destruct (savings_and_investment sample_inputs _ ltac:(vm_compute; reflexivity))
    as (sr & Hsr & Hlen & _ & _ & _ & H).
  destruct (H 44%nat _ ltac:(vm_compute; reflexivity))
    as (_ & Hsc & _ & Hinv & Hm & _ & _ & Hrow & _).
  split; [exact Hlen|]. split; [exact Hrow|]. split; [exact Hm|].
  split; [exact Hinv|]. exists sr. split; [exact Hsr|exact Hsc].
Defined.

(** C2: the run has one frame and one row for each of the
    [years * 12] months, in order, starts from the balance entered and
    ends in the state reached after the last month.  In every month
    the balance first accrues interest at the monthly rate [0.05/12],
    then the actual payment is the minimum of that balance and the
    fixed payment and is subtracted, leaving the balance the next month
    starts from; the payment is never above the accrued balance and the
    balance after the payment is never below zero. *)
Theorem interest_then_payment (i : inputs) (st : state) :
  projection i = Some st →
  length (trace st) = Z.to_nat (years i * 12) ∧
  rows st = row_of <$> trace st ∧
  st = state_before i (trace st) (length (trace st)) ∧
  loan (state_before i (trace st) 0) = PyInt (loan_balance i) ∧
  ∀ (k : nat) (f : frame), trace st !! k = Some f →
    (∃ interest,
       py_mul (loan (state_before i (trace st) k))
              (PyFloat (B64.div B64.lit_0_05 (B64.of_Z 12))) = Some interest ∧
       py_add (loan (state_before i (trace st) k)) interest
         = Some (f_accrued f)) ∧
    f_loan_payment_actual f = py_min (f_accrued f) (PyInt (loan_payment i)) ∧
    py_sub (f_accrued f) (f_loan_payment_actual f) = Some (f_loan f) ∧
    loan (state_before i (trace st) (S k)) = f_loan f ∧
    py_lt (f_accrued f) (f_loan_payment_actual f) = false ∧
    py_lt (f_loan f) (PyInt 0) = false ∧
    (0 ≤ loan_balance i →
     py_le (f_loan_payment_actual f) (f_accrued f) = true ∧
     py_le (PyInt 0) (f_loan f) = true) ∧
    f_month f = Z.of_nat k + 1 ∧
    rows st !! k = Some (row_of f) ∧
    LoanPayment (row_of f) = py_round2 (f_loan_payment_actual f) ∧
    LoanBalance (row_of f) = py_round2 (py_max (f_loan f) (PyInt 0)).
Proof.
  intros Hrun.
  destruct (projection_spec i st Hrun)
    as (savings_rate & _ & Hst & Hrows & Hlen & Hit).
  split; [done|]. split; [done|]. split; [done|].
  split; [by rewrite state_before_0|]. intros k f Hf.
  destruct (iteration_inv _ _ _ _ _ _ _ (Hit k f Hf))
    as (interest & _ & _ & _ & Hmul & Hadd & Hpay & Hsub & _ & _ & _ & _ & _ &
        _ & _ & Hm & _).
  destruct (frame_loan i st Hrun k f Hf)
    as (x & a & l & _ & _ & _ & _ & Hfa & Hpay' & _ & Hfl & _ & Hnn & _).
  split; [by exists interest|]. split; [done|]. split; [done|].
  split; [by apply (loan_before_S i st k f)|].
  assert (Hrow : rows st !! k = Some (row_of f))
    by (by rewrite Hrows, list_lookup_fmap, Hf).
  enough (py_lt (f_accrued f) (f_loan_payment_actual f) = false ∧
          py_lt (f_loan f) (PyInt 0) = false ∧
          (0 ≤ loan_balance i →
           py_le (f_loan_payment_actual f) (f_accrued f) = true ∧
           py_le (PyInt 0) (f_loan f) = true)) as (H1 & H2 & H3).
  { exact (conj H1 (conj H2 (conj H3 (conj Hm (conj Hrow (conj eq_refl eq_refl)))))). }
  rewrite Hpay', Hfa, Hfl. unfold py_min.
  split; [|split].
  - destruct (py_lt (PyInt (loan_payment i)) (PyFloat a)) eqn:Hlt.
    + by apply py_lt_asym_int_float.
    + apply py_lt_irrefl.
  - destruct Hnn as [Hnn| ->]; [by apply py_lt_nonneg_0|apply py_lt_nan_l].
  - intros Hlb.
    destruct (loan_nonneg i st Hrun k f Hlb Hf) as (a' & l' & Ha' & Hl' & Hna & Hnl).
    rewrite Hfa in Ha'. rewrite Hfl in Hl'. injection Ha' as <-. injection Hl' as <-.
    split; [|by apply py_le_0_nonneg].
    destruct (py_lt (PyInt (loan_payment i)) (PyFloat a)) eqn:Hlt.
    + by apply py_lt_le_int_float.
    + apply py_le_refl_float. by apply nonneg_not_nan.
Qed.

Lemma interest_then_payment_witness :
  ∃ st f,
    projection sample_inputs = Some st ∧
    trace st !! 0%nat = Some f ∧
    length (trace st) = 60%nat ∧
    rows st !! 0%nat = Some (row_of f) ∧
    loan (state_before sample_inputs (trace st) 0) = PyInt 20000 ∧
    f_loan_payment_actual f = PyInt 500 ∧
    py_sub (f_accrued f) (PyInt 500) = Some (f_loan f) ∧
    loan (state_before sample_inputs (trace st) 1) = f_loan f.
Proof.
  eexists. eexists. split; [vm_compute; reflexivity|].
  split; [vm_compute; reflexivity|].
  destruct (interest_then_payment sample_inputs _ ltac:(vm_compute; reflexivity))
    as (Hlen & _ & _ & H0 & H).
  destruct (H 0%nat _ ltac:(vm_compute; reflexivity))
    as (_ & Hpay & Hsub & Hnext & _ & _ & _ & _ & Hrow & _).
  split; [exact Hlen|]. split; [exact Hrow|]. split; [exact H0|].
  split; [exact Hpay|]. split; [exact Hsub|exact Hnext].
Defined.

(** C3: the recorded payoff month, when there is one, is the month of
    the first frame whose balance after the payment is at most zero; it
    is recorded in that month and no later month changes it. *)
Theorem payoff_month_is_first (i : inputs) (st : state) :
  projection i = Some st →
  (∀ m, loan_paid_off_month st = Some m ↔
        ∃ (j : nat) g, trace st !! j = Some g ∧ f_month g = m ∧
          py_le (f_loan g) (PyInt 0) = true ∧
          ∀ (j' : nat) g', (j' < j)%nat → trace st !! j' = Some g' →
                           py_le (f_loan g') (PyInt 0) = false) ∧
  (∀ (k : nat) f m, trace st !! k = Some f →
     (f_loan_paid_off_month f = Some m ↔
      ∃ (j : nat) g, (j ≤ k)%nat ∧ trace st !! j = Some g ∧ f_month g = m ∧
        py_le (f_loan g) (PyInt 0) = true ∧
        ∀ (j' : nat) g', (j' < j)%nat → trace st !! j' = Some g' →
                         py_le (f_loan g') (PyInt 0) = false)) ∧
  (∀ (k k' : nat) f f' m,
     trace st !! k = Some f → f_loan_paid_off_month f = Some m →
     (k ≤ k')%nat → trace st !! k' = Some f' →
     f_loan_paid_off_month f' = Some m ∧ loan_paid_off_month st = Some m).
Proof.
  intros Hrun.
  assert (Hbefore : ∀ (k : nat) m, (k ≤ length (trace st))%nat →
    (loan_paid_off_month (state_before i (trace st) k) = Some m ↔
     ∃ (j : nat) g, (j < k)%nat ∧ first_paid (trace st) j g ∧ f_month g = m)).
  { intros k m Hk. pose proof (paid_before i st Hrun k Hk) as H.
    destruct (loan_paid_off_month (state_before i (trace st) k)) as [m0|]; split.
    - intros [= <-]. done.
    - intros (j & g & Hj & Hfirst & Hg). destruct H as (j0 & g0 & _ & Hfirst0 & Hg0).
      destruct (first_paid_unique _ _ _ _ _ Hfirst Hfirst0) as [_ ->]. congruence.
    - done.
    - intros (j & g & Hj & (Hg & Hle & _) & _). rewrite (H j g Hj Hg) in Hle. done. }
  split; [|split].
  - intros m. rewrite (final_paid i st Hrun), (Hbefore _ m (le_n _)).
    split.
    + intros (j & g & _ & (Hg & Hle & Hmin) & Hm). by exists j, g.
    + intros (j & g & Hg & Hm & Hle & Hmin). exists j, g.
      split; [by apply lookup_lt_Some in Hg|done].
  - intros k f m Hf. pose proof (lookup_lt_Some _ _ _ Hf) as Hk.
    destruct (loan_before_S i st k f Hf) as (_ & _ & <-).
    rewrite (Hbefore (S k) m ltac:(lia)). split.
    + intros (j & g & Hj & (Hg & Hle & Hmin) & Hm). exists j, g.
      split; [lia|done].
    + intros (j & g & Hj & Hg & Hm & Hle & Hmin). exists j, g.
      split; [lia|done].
  - intros k k' f f' m Hf Hm Hle Hf'.
    split; [by apply (paid_stable i st Hrun k k' f f' m)|].
    rewrite (final_paid i st Hrun).
    pose proof (lookup_lt_Some _ _ _ Hf) as Hk.
    destruct (lookup_lt_is_Some_2 (trace st) (length (trace st) - 1) ltac:(lia))
      as [g Hg].
    replace (state_before i (trace st) (length (trace st)))
      with (state_before i (trace st) (S (length (trace st) - 1)))
      by (f_equal; lia).
    destruct (loan_before_S i st _ g Hg) as (_ & _ & ->).
    apply (paid_stable i st Hrun k (length (trace st) - 1) f g m); try done. lia.
Qed.

Lemma payoff_month_is_first_witness :
  ∃ st, projection sample_inputs = Some st ∧
        ∃ (j : nat) g, trace st !! j = Some g ∧ f_month g = 44 ∧
          py_le (f_loan g) (PyInt 0) = true ∧
          ∀ (j' : nat) g', (j' < j)%nat → trace st !! j' = Some g' →
                           py_le (f_loan g') (PyInt 0) = false.
Proof.
  eexists. split; [vm_compute; reflexivity|].
  apply (proj1 (payoff_month_is_first sample_inputs _ ltac:(vm_compute; reflexivity))).
  vm_compute. reflexivity.
Defined.

(** C6: when a payoff month is recorded (and the fixed payment is not
    negative), every month at or after it has a balance of at most zero
    after the payment and so takes the savings branch: its
    [SavedThisMonth] is the rounded product of leftover and the savings
    rate. *)
Theorem savings_after_payoff (i : inputs) (st : state) (m : Z) :
  projection i = Some st →
  0 ≤ loan_payment i →
  loan_paid_off_month st = Some m →
  ∃ savings_rate,
    py_truediv (PyInt (savings_pct i)) (PyInt 100) = Some savings_rate ∧
    ∀ (k : nat) f r, trace st !! k = Some f → rows st !! k = Some r →
      m ≤ Month r →
      Month r = f_month f ∧
      py_le (f_loan f) (PyInt 0) = true ∧
      py_mul (f_leftover f) savings_rate = Some (f_savings_contrib f) ∧
      RemainingIncome r = py_round2 (f_leftover f) ∧
      SavedThisMonth r = py_round2 (f_savings_contrib f).
Proof.
  intros Hrun HP Hm.
  destruct (savings_and_investment_facts i st Hrun) as (savings_rate & Hsr & Hframes).
  exists savings_rate. split; [done|]. intros k f r Hf Hr Hmr.
  destruct (projection_spec i st Hrun) as (_ & _ & _ & Hrows & _).
  rewrite Hrows, list_lookup_fmap, Hf in Hr. injection Hr as <-.
  cbn [row_of Month RemainingIncome SavedThisMonth] in *.
  destruct (paid_month_first i st m Hrun Hm) as (j & g & Hg & Hgm & Hle & _).
  destruct (frame_paid i st Hrun j g Hg) as [Hj _].
  destruct (frame_paid i st Hrun k f Hf) as [Hk _].
  destruct (zero_from i st Hrun j k g f HP Hg Hle ltac:(lia) Hf) as (z & Hz & Hzz & _).
  assert (Hlef : py_le (f_loan f) (PyInt 0) = true).
  { rewrite Hz, py_le_nonneg_0; [done|by destruct z]. }
  destruct (Hframes k f Hf) as (_ & Hsc).
  rewrite Hlef in Hsc. done.
Qed.

(** C10: when the initial balance and the fixed payment are not
    negative, the balance is at least zero after the interest line and
    after the payment of every month; once it is zero it is exactly
    [+0.0] in every later month; so [max(loan, 0)] returns [loan]
    itself and [LoanBalance] is [round(loan, 2)]. *)
Theorem loan_never_negative (i : inputs) (st : state) :
  projection i = Some st →
  0 ≤ loan_balance i →
  0 ≤ loan_payment i →
  ∀ (k : nat) (f : frame), trace st !! k = Some f →
    py_le (PyInt 0) (f_accrued f) = true ∧
    py_le (PyInt 0) (f_loan f) = true ∧
    py_max (f_loan f) (PyInt 0) = f_loan f ∧
    rows st !! k = Some (row_of f) ∧
    LoanBalance (row_of f) = py_round2 (f_loan f) ∧
    (py_le (f_loan f) (PyInt 0) = true →
     ∀ (k' : nat) f', (k < k')%nat → trace st !! k' = Some f' →
       py_compare (f_accrued f') (PyInt 0) = Some Eq ∧
       f_loan f' = PyFloat B64.zero).
Proof.
  intros Hrun Hlb HP k f Hf.
  destruct (loan_nonneg i st Hrun k f Hlb Hf) as (a & l & Ha & Hl & Hna & Hnl).
  destruct (projection_spec i st Hrun) as (_ & _ & _ & Hrows & _).
  rewrite Ha, Hl. rewrite (py_max_nonneg l Hnl).
  split; [by apply py_le_0_nonneg|]. split; [by apply py_le_0_nonneg|].
  split; [done|]. split; [by rewrite Hrows, list_lookup_fmap, Hf|].
  split; [by cbn [row_of LoanBalance]; rewrite Hl, (py_max_nonneg l Hnl)|].
  intros Hle k' f' Hk' Hf'. rewrite <- Hl in Hle.
  destruct (zero_from i st Hrun k k' f f' HP Hf Hle ltac:(lia) Hf')
    as (z & Hz & _ & Hlater).
  destruct (Hlater Hk') as (-> & a' & Ha' & _ & Hza).
  split; [|done]. rewrite Ha'. by destruct a'.
Qed.

Lemma loan_never_negative_witness :
  ∃ st, projection sample_inputs = Some st ∧
        ∀ (k : nat) (f : frame), trace st !! k = Some f →
          py_le (PyInt 0) (f_loan f) = true.
Proof.
  eexists. split; [vm_compute; reflexivity|]. intros k f Hf.
  refine (proj1 (proj2 (loan_never_negative sample_inputs _ _ _ _ k f Hf))).
  - vm_compute; reflexivity.
  - vm_compute; discriminate.
  - vm_compute; discriminate.
Defined.

(** C4: the income mapping holds key [m] with value [v] exactly when
    [m] is at most the retirement month and [v] is the monthly income of
    the last period, in input order, whose months
    [(start_year-1)*12+1 .. end_year*12] include [m]; a month past the
    retirement month is never a key, and a month no period covers is
    absent. *)
Theorem income_by_month_last_wins
    (schedule : list income_period) (retirement_month : Z) :
  (∀ m v,
     income_by_month schedule retirement_month !! m = Some v ↔
     m ≤ retirement_month ∧
     ∃ (k : nat) period,
       schedule !! k = Some period ∧
       (start_year period - 1) * 12 + 1 ≤ m ≤ end_year period * 12 ∧
       monthly_income period = v ∧
       ∀ (k' : nat) period', (k < k')%nat → schedule !! k' = Some period' →
         ¬ ((start_year period' - 1) * 12 + 1 ≤ m ≤ end_year period' * 12)) ∧
  (∀ m, retirement_month < m →
        income_by_month schedule retirement_month !! m = None) ∧
  (∀ m, (∀ period, period ∈ schedule →
           ¬ ((start_year period - 1) * 12 + 1 ≤ m ≤ end_year period * 12)) →
        income_by_month schedule retirement_month !! m = None).
Proof.
  split; [|split].
  - intros m v. apply income_by_month_lookup.
  - intros m Hm. apply eq_None_not_Some. intros [v Hv].
    apply income_by_month_lookup in Hv as [Hle _]. lia.
  - intros m Hnone. apply eq_None_not_Some. intros [v Hv].
    apply income_by_month_lookup in Hv as (_ & k & period & Hk & Hc & _).
    apply (Hnone period); [|done]. by apply list_elem_of_lookup_2 in Hk.
Qed.

(** C7: when every inheritance falls on month [year * 12] of a year
    between 1 and [years], the [Inheritance] fields of the emitted rows
    add up to the sum of the input amounts, and each row holds the sum
    of all the amounts whose month is the row's month. *)
Theorem inheritance_total (i : inputs) (st : state) :
  projection i = Some st →
  Forall (λ inh, ∃ year, 1 ≤ year ≤ years i ∧ Inh.month inh = year * 12)
         (inheritances i) →
  py_sum (Inheritance <$> rows st) = py_sum (Inh.amount <$> inheritances i) ∧
  ∀ r, r ∈ rows st →
       Inheritance r
       = py_sum (Inh.amount <$>
                 filter (λ inh, Inh.month inh = Month r) (inheritances i)).
Proof.
  intros Hrun Hinh. split.
  - rewrite (inheritance_column i st Hrun). apply inheritance_months_total.
    eapply Forall_impl; [exact Hinh|]. intros inh (year & Hy & ->). lia.
  - intros r Hr.
    destruct (projection_spec i st Hrun) as (sr & _ & _ & Hrows & _ & Hit).
    rewrite Hrows in Hr. apply list_elem_of_fmap in Hr as (f & -> & Hf).
    apply list_elem_of_lookup in Hf as [k Hf].
    destruct (iteration_inv _ _ _ _ _ _ _ (Hit k f Hf))
      as (_ & _ & _ & _ & _ & _ & _ & _ & _ & _ & _ & _ & _ & _ & _ & Hm & _ & _ & Hi).
    cbn [row_of Inheritance Month]. by rewrite Hi, Hm.
Qed.

Lemma inheritance_total_witness :
  ∃ st, projection sample_inputs = Some st ∧
        py_sum (Inheritance <$> rows st) = 51000.
Proof.
  eexists. split; [vm_compute; reflexivity|].
  refine (proj1 (inheritance_total sample_inputs _ _ _)).
  - vm_compute; reflexivity.
  - repeat constructor; [exists 2|exists 2]; vm_compute; repeat split; discriminate.
Defined.

Lemma sample_inputs_valid : valid_inputs sample_inputs.
Proof.
  split; simpl; try done; try lia.
  - repeat constructor; try done; by exists 2.
  - repeat constructor; done.
Qed.

(** C5: on valid inputs the projection emits exactly [years * 12] rows;
    their [Month] fields are [1, 2, ..., years * 12] in order and each
    [Year] field is [(month - 1) // 12 + 1]. *)
Theorem one_row_per_month (i : inputs) :
  valid_inputs i →
  ∃ st, projection i = Some st ∧
        Z.of_nat (length (rows st)) = years i * 12 ∧
        Month <$> rows st = seqZ 1 (years i * 12) ∧
        ∀ r, r ∈ rows st → Year r = (Month r - 1) `div` 12 + 1.
Proof.
  intros Hvalid. destruct (projection_total i Hvalid) as [st Hrun].
  exists st. split; [done|].
  destruct (projection_spec i st Hrun) as (sr & _ & _ & Hrows & Hlen & Hit).
  pose proof (valid_years i Hvalid) as Hyears.
  assert (Hframe : ∀ (k : nat) f, trace st !! k = Some f →
            f_month f = Z.of_nat k + 1 ∧ f_year f = (f_month f - 1) `div` 12 + 1).
  { intros k f Hf.
    destruct (iteration_inv _ _ _ _ _ _ _ (Hit k f Hf))
      as (_ & _ & _ & _ & _ & _ & _ & _ & _ & _ & _ & _ & _ & _ & _ & Hm & Hy & _).
    by rewrite Hm. }
  split; [|split].
  - rewrite Hrows, length_fmap, Hlen. lia.
  - apply list_eq. intros k. rewrite Hrows, !list_lookup_fmap.
    destruct (trace st !! k) as [f|] eqn:Hf; simpl.
    + pose proof (lookup_lt_Some _ _ _ Hf) as Hk.
      rewrite lookup_seqZ_lt by lia. destruct (Hframe k f Hf) as [-> _].
      f_equal. lia.
    + apply lookup_ge_None in Hf. rewrite lookup_seqZ_ge; [done|lia].
  - intros r Hr. rewrite Hrows in Hr.
    apply list_elem_of_fmap in Hr as (f & -> & Hf).
    apply list_elem_of_lookup in Hf as [k Hf].
    by destruct (Hframe k f Hf) as [_ ?].
Qed.

Lemma one_row_per_month_witness :
  ∃ st, projection sample_inputs = Some st ∧
        Z.of_nat (length (rows st)) = 60.
Proof.
  destruct (one_row_per_month sample_inputs sample_inputs_valid)
    as (st & Hrun & Hlen & _).
  exists st. split; [exact Hrun|exact Hlen].
Defined.

(** C8: on valid inputs the [LoanBalance] field of every emitted row is
    at least zero. *)
Theorem loan_balance_field_nonneg (i : inputs) :
  valid_inputs i →
  ∃ st, projection i = Some st ∧
        ∀ r, r ∈ rows st → py_le (PyInt 0) (LoanBalance r) = true.
Proof.
  intros Hvalid. destruct (projection_total i Hvalid) as [st Hrun].
  exists st. split; [done|]. intros r Hr.
  destruct (projection_spec i st Hrun) as (sr & _ & _ & Hrows & _).
  rewrite Hrows in Hr. apply list_elem_of_fmap in Hr as (f & -> & Hf).
  apply list_elem_of_lookup in Hf as [k Hf].
  pose proof (valid_loan_balance i Hvalid) as [Hlb _].
  destruct (loan_nonneg i st Hrun k f Hlb Hf) as (a & l & _ & Hl & _ & Hnl).
  cbn [row_of LoanBalance]. rewrite Hl, (py_max_nonneg l Hnl).
  cbn [py_round2]. by apply py_le_0_nonneg, round2_nonneg.
Qed.

Lemma loan_balance_field_nonneg_witness :
  ∃ st, projection sample_inputs = Some st ∧
        ∀ r, r ∈ rows st → py_le (PyInt 0) (LoanBalance r) = true.
Proof. exact (loan_balance_field_nonneg sample_inputs sample_inputs_valid). Defined.

(** C9: with a balance of 20000, a payment of 500 and the 5% annual
    rate, the balance (the variable and the [LoanBalance] shown) falls
    strictly every month up to month 44; before month 44 it is above
    zero and the accrued balance is above the payment; from month 44 on
    the accrued balance is at most the payment and the balance is
    exactly [+0.0]; the recorded payoff month is 44.  Neither the
    income nor the savings rate enters the loan lines, so the statement
    holds for every such run of 5 to 40 years. *)
Theorem loan_scenario (i : inputs) (st : state) :
  loan_balance i = 20000 →
  loan_payment i = 500 →
  5 ≤ years i ≤ 40 →
  projection i = Some st →
  loan_paid_off_month st = Some 44 ∧
  ∀ (k : nat) (f : frame), trace st !! k = Some f →
    (f_month f ≤ 44 →
       py_lt (f_loan f) (loan (state_before i (trace st) k)) = true ∧
       py_lt (LoanBalance (row_of f))
             (py_round2 (py_max (loan (state_before i (trace st) k)) (PyInt 0)))
         = true) ∧
    (f_month f < 44 →
       py_lt (PyInt 0) (f_loan f) = true ∧
       py_le (f_loan f) (PyInt 0) = false ∧
       py_lt (PyInt 500) (f_accrued f) = true) ∧
    (44 ≤ f_month f →
       py_le (f_accrued f) (PyInt 500) = true ∧
       py_le (f_loan f) (PyInt 0) = true ∧
       f_loan f = PyFloat B64.zero ∧
       LoanBalance (row_of f) = PyFloat B64.zero).
Proof.
  intros Hlb HP Hyears Hrun.
  assert (Hframes : ∀ (k : nat) (f : frame), trace st !! k = Some f →
    (f_month f ≤ 44 →
       py_lt (f_loan f) (loan (state_before i (trace st) k)) = true ∧
       py_lt (LoanBalance (row_of f))
             (py_round2 (py_max (loan (state_before i (trace st) k)) (PyInt 0)))
         = true) ∧
    (f_month f < 44 →
       py_lt (PyInt 0) (f_loan f) = true ∧
       py_le (f_loan f) (PyInt 0) = false ∧
       py_lt (PyInt 500) (f_accrued f) = true) ∧
    (44 ≤ f_month f →
       py_le (f_accrued f) (PyInt 500) = true ∧
       py_le (f_loan f) (PyInt 0) = true ∧
       f_loan f = PyFloat B64.zero ∧
       LoanBalance (row_of f) = PyFloat B64.zero)).
  { intros k f Hf.
    pose proof (scenario_frame i st k f Hlb HP ltac:(lia) Hrun Hf) as Hc.
    unfold scenario_month in Hc. cbn [ll_month ll_before ll_accrued ll_after] in Hc.
    change (LoanBalance (row_of f)) with (shown (f_loan f)).
    change (py_round2 (py_max (loan (state_before i (trace st) k)) (PyInt 0)))
      with (shown (loan (state_before i (trace st) k))).
    destruct (f_month f <? 44) eqn:H44.
    - apply Z.ltb_lt in H44.
      repeat (apply andb_prop in Hc as [Hc ?]).
      split; [done|]. split; [|lia]. intros _.
      split; [done|]. split; [|done]. by apply negb_true_iff.
    - apply Z.ltb_ge in H44.
      repeat (apply andb_prop in Hc as [Hc ?]).
      assert (Hz : f_loan f = PyFloat B64.zero).
      { destruct (f_loan f) as [|[[|]| | |]]; done. }
      assert (Hsz : shown (f_loan f) = PyFloat B64.zero).
      { destruct (shown (f_loan f)) as [|[[|]| | |]]; done. }
      split; [|split; [lia|done]].
      intros Hle. assert (Heq : (f_month f =? 44) = true) by (apply Z.eqb_eq; lia).
      rewrite Heq in Hc. by apply andb_prop in Hc as [? ?]. }
  split; [|done].
  destruct (projection_spec i st Hrun) as (_ & _ & _ & _ & Hlen & _).
  destruct (lookup_lt_is_Some_2 (trace st) 43 ltac:(lia)) as [g Hg].
  destruct (frame_paid i st Hrun 43 g Hg) as [Hgm _].
  replace 44 with (f_month g) by (rewrite Hgm; lia).
  apply (paid_month_of_first i st 43 g Hrun).
  split; [done|]. split.
  - by apply (Hframes 43%nat g Hg); lia.
  - intros j' g' Hj' Hg'. destruct (frame_paid i st Hrun j' g' Hg') as [Hgm' _].
    by apply (Hframes j' g' Hg'); lia.
Qed.

Lemma loan_scenario_witness :
  ∃ st, projection scenario_inputs = Some st ∧ loan_paid_off_month st = Some 44.
Proof.
  eexists. split; [vm_compute; reflexivity|].
  refine (proj1 (loan_scenario scenario_inputs _ _ _ _ _)).
  - reflexivity.
  - reflexivity.
  - simpl; lia.
  - vm_compute; reflexivity.
Defined.

Lemma savings_after_payoff_witness :
  ∃ st, projection sample_inputs = Some st ∧
        ∃ savings_rate,
          py_truediv (PyInt 20) (PyInt 100) = Some savings_rate.
Proof.
  eexists. split; [vm_compute; reflexivity|].
  destruct (savings_after_payoff sample_inputs _ 44
              ltac:(vm_compute; reflexivity) ltac:(vm_compute; discriminate)
              ltac:(vm_compute; reflexivity))
    as (sr & Hsr & _).
  exists sr. exact Hsr.
Defined.

(** C6 as stated, without the condition on the payment, fails: with a
    balance of -1000 and a payment of -100 the payoff is recorded in
    month 1, and in month 2 the balance is above zero again, nothing is
    saved although leftover times the savings rate is 820. *)
Lemma savings_after_payoff_counterexample :
  ∃ st f r,
    projection negative_inputs = Some st ∧
    loan_paid_off_month st = Some 1 ∧
    trace st !! 1%nat = Some f ∧ rows st !! 1%nat = Some r ∧
    Month r = 2 ∧
    py_le (f_loan f) (PyInt 0) = false ∧
    f_leftover f = PyInt 4100 ∧
    RemainingIncome r = PyInt 4100 ∧
    py_mul (PyInt 4100) (PyFloat (B64.of_quotient 20 100))
      = Some (PyFloat (S754_finite false 7212796278210560 (-43))) ∧
    f_savings_contrib f = PyFloat B64.zero ∧
    SavedThisMonth r = PyFloat B64.zero.
Proof.
  do 3 eexists. split; [vm_compute; reflexivity|].
  vm_compute. repeat split; reflexivity.
Qed.


(** * Further properties *)

(** ** Rows and frames *)

Section RowsOfRun.

Variable i : inputs.
Variable st : state.
Hypothesis Hrun : projection i = Some st.

Lemma rows_trace : rows st = row_of <$> trace st.
Proof. by destruct (projection_spec i st Hrun) as (_ & _ & _ & H & _). Qed.

Lemma row_of_frame (k : nat) (f : frame) :
  trace st !! k = Some f → rows st !! k = Some (row_of f).
Proof. intros Hf. by rewrite rows_trace, list_lookup_fmap, Hf. Qed.

Lemma frame_of_row (k : nat) (r : row) :
  rows st !! k = Some r → ∃ f, trace st !! k = Some f ∧ r = row_of f.
Proof.
  rewrite rows_trace, list_lookup_fmap. intros H.
  apply fmap_Some in H as (f & Hf & ->). eauto.
Qed.

Lemma frame_of_elem (r : row) :
  r ∈ rows st → ∃ (k : nat) f, trace st !! k = Some f ∧ r = row_of f.
Proof.
  intros Hr. apply list_elem_of_lookup in Hr as [k Hk].
  destruct (frame_of_row k r Hk) as (f & Hf & ->). eauto.
Qed.

Lemma trace_length : length (trace st) = Z.to_nat (years i * 12).
Proof. by destruct (projection_spec i st Hrun) as (_ & _ & _ & _ & H & _). Qed.

Lemma rows_length : length (rows st) = Z.to_nat (years i * 12).
Proof. by rewrite rows_trace, length_fmap, trace_length. Qed.

Lemma frame_month_year (k : nat) (f : frame) :
  trace st !! k = Some f →
  f_month f = Z.of_nat k + 1 ∧ f_year f = (f_month f - 1) `div` 12 + 1 ∧
  f_current_income f
    = default 0 (income_by_month (income_schedule i) (retirement_year i * 12)
                   !! f_month f) ∧
  f_inheritance_this_month f
    = inheritance_this_month (inheritances i) (f_month f).
Proof.
  intros Hf.
  destruct (projection_spec i st Hrun) as (sr & _ & _ & _ & _ & Hit).
  destruct (iteration_inv _ _ _ _ _ _ _ (Hit k f Hf))
    as (_ & _ & _ & _ & _ & _ & _ & _ & _ & _ & _ & _ & _ & _ & _ &
        Hm & Hy & Hinc & Hinh).
  by rewrite Hm.
Qed.

End RowsOfRun.

(** ** Comparisons of a float with an integer *)

Section MixedComparisons.

Lemma py_lt_int_float_not_le (z : Z) (x : spec_float) :
  py_lt (PyInt z) (PyFloat x) = true → py_le (PyFloat x) (PyInt z) = false.
Proof.
  unfold py_lt, py_le, py_compare.
  by destruct (B64.compare_Z z x) as [[| |]|].
Qed.

Lemma py_lt_0_sub_diag (a : spec_float) :
  py_lt (PyInt 0) (PyFloat (B64.sub a a)) = false.
Proof.
  rewrite sub_diag. by destruct (B64.is_infinity a || B64.is_nan a).
Qed.

End MixedComparisons.

(** X1: the clamp [max(loan, 0)] never changes the balance, whatever the
    inputs: the balance after the payment is never below zero, so every
    [LoanBalance] is [round(loan, 2)] and is a float. *)
Theorem clamp_never_fires (i : inputs) (st : state) :
  projection i = Some st →
  length (trace st) = Z.to_nat (years i * 12) ∧
  rows st = row_of <$> trace st ∧
  ∀ (k : nat) (f : frame), trace st !! k = Some f →
    rows st !! k = Some (row_of f) ∧
    py_max (f_loan f) (PyInt 0) = f_loan f ∧
    LoanBalance (row_of f) = py_round2 (f_loan f) ∧
    ∃ x, LoanBalance (row_of f) = PyFloat x.
Proof.
  intros Hrun. split; [by apply (trace_length i)|]. split; [by apply (rows_trace i)|].
  intros k f Hf. split; [by apply (row_of_frame i)|].
  destruct (frame_loan i st Hrun k f Hf)
    as (x & a & l & _ & _ & _ & _ & _ & _ & _ & Hfl & _ & Hnn & _).
  assert (Hmax : py_max (f_loan f) (PyInt 0) = f_loan f).
  { rewrite Hfl. unfold py_max.
    destruct Hnn as [Hnn| ->]; [by rewrite py_lt_nonneg_0|by rewrite py_lt_nan_l]. }
  split; [done|]. cbn [row_of LoanBalance]. rewrite Hmax. split; [done|].
  rewrite Hfl. simpl. eauto.
Qed.

Lemma clamp_never_fires_witness :
  ∃ st f, projection negative_inputs = Some st ∧ trace st !! 0%nat = Some f ∧
          length (trace st) = 60%nat ∧
          rows st !! 0%nat = Some (row_of f) ∧
          py_max (f_loan f) (PyInt 0) = f_loan f.
Proof.
  eexists. eexists. split; [vm_compute; reflexivity|].
  split; [vm_compute; reflexivity|].
  destruct (clamp_never_fires negative_inputs _ ltac:(vm_compute; reflexivity))
    as (Hlen & _ & H).
  destruct (H 0%nat _ ltac:(vm_compute; reflexivity)) as (Hrow & Hmax & _).
  exact (conj Hlen (conj Hrow Hmax)).
Defined.

(** X2: each month pays either the whole fixed payment, when it is below
    the accrued balance, or the accrued balance itself; never more than
    the fixed payment.  While a balance is left after the payment, the
    row shows the fixed payment as the [int] it is, the remaining
    income is the exact difference [Income - loan_payment], and nothing
    is saved. *)
Theorem payment_full_or_balance (i : inputs) (st : state) :
  projection i = Some st →
  length (trace st) = Z.to_nat (years i * 12) ∧
  rows st = row_of <$> trace st ∧
  ∀ (k : nat) (f : frame), trace st !! k = Some f →
    rows st !! k = Some (row_of f) ∧
    (f_loan_payment_actual f = PyInt (loan_payment i) ∧
     py_lt (PyInt (loan_payment i)) (f_accrued f) = true
     ∨
     f_loan_payment_actual f = f_accrued f ∧
     py_lt (PyInt (loan_payment i)) (f_accrued f) = false) ∧
    py_lt (PyInt (loan_payment i)) (f_loan_payment_actual f) = false ∧
    (py_lt (PyInt 0) (f_loan f) = true →
       LoanPayment (row_of f) = PyInt (loan_payment i) ∧
       RemainingIncome (row_of f) = PyInt (Income (row_of f) - loan_payment i) ∧
       SavedThisMonth (row_of f) = PyFloat B64.zero).
Proof.
  intros Hrun. split; [by apply (trace_length i)|]. split; [by apply (rows_trace i)|].
  intros k f Hf. split; [by apply (row_of_frame i)|].
  destruct (frame_loan i st Hrun k f Hf)
    as (x & a & l & _ & _ & _ & _ & Hfa & Hpay & Hsub & Hfl & _).
  destruct (savings_and_investment_facts i st Hrun) as (sr & _ & Hsav).
  destruct (Hsav k f Hf) as [Hleft Hsc].
  rewrite Hfa, Hfl.
  assert (Hcases :
    f_loan_payment_actual f = PyInt (loan_payment i) ∧
    py_lt (PyInt (loan_payment i)) (PyFloat a) = true
    ∨ f_loan_payment_actual f = PyFloat a ∧
      py_lt (PyInt (loan_payment i)) (PyFloat a) = false).
  { rewrite Hpay. unfold py_min.
    destruct (py_lt (PyInt (loan_payment i)) (PyFloat a)); auto. }
  split; [done|]. split.
  { destruct Hcases as [[-> _]|[-> H]]; [apply py_lt_irrefl|done]. }
  intros Hpos.
  assert (Hfull : f_loan_payment_actual f = PyInt (loan_payment i)).
  { destruct Hcases as [[H _]|[H _]]; [done|exfalso].
    rewrite H in Hsub. simpl in Hsub. injection Hsub as <-.
    by rewrite py_lt_0_sub_diag in Hpos. }
  rewrite Hfl in Hsc. rewrite (py_lt_int_float_not_le _ _ Hpos) in Hsc.
  rewrite Hfull in Hleft. simpl in Hleft. injection Hleft as Hleft.
  cbn [row_of LoanPayment RemainingIncome SavedThisMonth Income].
  rewrite Hfull, Hsc, <- Hleft. done.
Qed.

Lemma payment_full_or_balance_witness :
  ∃ st f, projection sample_inputs = Some st ∧ trace st !! 0%nat = Some f ∧
          length (trace st) = 60%nat ∧
          rows st !! 0%nat = Some (row_of f) ∧
          LoanPayment (row_of f) = PyInt 500 ∧
          RemainingIncome (row_of f) = PyInt 3500.
Proof.
  eexists. eexists. split; [vm_compute; reflexivity|].
  split; [vm_compute; reflexivity|].
  destruct (payment_full_or_balance sample_inputs _ ltac:(vm_compute; reflexivity))
    as (Hlen & _ & H).
  destruct (H 0%nat _ ltac:(vm_compute; reflexivity)) as (Hrow & _ & _ & Hpos).
  destruct (Hpos ltac:(vm_compute; reflexivity)) as (H1 & H2 & _).
  exact (conj Hlen (conj Hrow (conj H1 H2))).
Defined.

(** ** Differences that are zero *)

Section ZeroResults.

Abbreviation binary_round := (binary_round B64.prec B64.emax).
Abbreviation binary_normalize := (binary_normalize B64.prec B64.emax).

Lemma valid_finite_exponent (s : bool) (m : positive) (e : Z) :
  B64.valid (S754_finite s m e) = true → -1074 ≤ e.
Proof.
  simpl. unfold bounded, canonical_mantissa. intros H.
  apply andb_true_iff in H as [H _]. apply Z.eqb_eq in H.
  rewrite fexp_unfold in H. lia.
Qed.

(** A mantissa that is not zero, at an exponent that is not below the
    least one, does not round to zero. *)
Lemma binary_round_nonzero (s : bool) (m : positive) (e : Z) :
  -1074 ≤ e → B64.is_zero (binary_round s m e) = false.
Proof.
  intros He. pose proof (binary_round_spec s m e) as H. cbv zeta in H.
  destruct (binary_round s m e) as [s'| | |]; try done. exfalso.
  destruct H as [_ Hq]. revert Hq. rewrite fexp_unfold.
  set (d := Zdigits2 (Zpos m)).
  pose proof (Zdigits2_bounds (Zpos m) ltac:(lia)) as [Hlo Hhi]. fold d in Hlo, Hhi.
  destruct (Z_le_gt_dec (Z.max (d + e - 53) (-1074)) e) as [Hle|Hgt].
  - replace (Z.min e (Z.max (d + e - 53) (-1074)))
      with (Z.max (d + e - 53) (-1074)) by lia.
    rewrite Z.sub_diag, Z.pow_0_r, Z.div_1_r.
    pose proof (pow2_pos (e - Z.max (d + e - 53) (-1074)) ltac:(lia)). pnia.
  - replace (Z.min e (Z.max (d + e - 53) (-1074))) with e by lia.
    rewrite Z.sub_diag, Z.pow_0_r, Z.mul_1_r.
    replace (Z.max (d + e - 53) (-1074) - e) with (d - 53) by lia.
    pose proof (int_large_quotient m ltac:(fold d; lia)) as H52.
    cbv zeta in H52. fold d in H52. lia.
Qed.

Lemma binary_normalize_zero (m e : Z) :
  -1074 ≤ e → B64.is_zero (binary_normalize m e false) = true →
  binary_normalize m e false = B64.zero.
Proof.
  intros He. destruct m as [|p|p]; simpl; try done;
    by rewrite binary_round_nonzero.
Qed.

(** A difference of two well-formed values that is a zero is [+0.0],
    unless both values are zeros. *)
Lemma sub_zero_positive (a y : spec_float) :
  B64.valid a = true → B64.valid y = true →
  B64.is_zero a && B64.is_zero y = false →
  B64.is_zero (B64.sub a y) = true → B64.sub a y = B64.zero.
Proof.
  intros Ha Hy Hnz.
  destruct a as [sa|sa| |sa ma ea], y as [sy|sy| |sy my ey]; try done;
    try (by destruct sa, sy).
  apply valid_finite_exponent in Ha, Hy.
  rewrite sub_finite. apply binary_normalize_zero. lia.
Qed.

Lemma of_Z_nonzero (z : Z) : z ≠ 0 → B64.is_zero (B64.of_Z z) = false.
Proof.
  destruct z as [|p|p]; [done| |]; intros _; unfold B64.of_Z; simpl;
    by apply binary_round_nonzero.
Qed.

(** [x - 0.0] is [x] for a converted integer. *)
Lemma of_Z_sub_zero (z : Z) (x : spec_float) :
  float_of_int z = Some x → B64.sub x B64.zero = x.
Proof.
  intros H. apply float_of_int_Some in H as [-> Hinf].
  destruct z as [|p|p]; [done| |]; unfold B64.of_Z in *; simpl in *.
  - destruct (binary_round false p 0) as [[|]| | |]; done.
  - destruct (binary_round true p 0) as [[|]| | |]; done.
Qed.

(** A finite value divided by itself is [1.0]. *)
Lemma div_diag (s : bool) (m : positive) (e : Z) :
  B64.div (S754_finite s m e) (S754_finite s m e) = B64.of_Z 1.
Proof.
  unfold B64.div, SFdiv, SFdiv_core_binary.
  replace (Zdigits2 (Zpos m) + e - (Zdigits2 (Zpos m) + e)) with 0 by lia.
  rewrite Z.sub_diag.
  change (Z.min (SpecFloat.fexp B64.prec B64.emax 0) 0) with (-53).
  change (0 - -53) with 53. cbv iota.
  rewrite Z.shiftl_mul_pow2 by lia.
  assert (Hdm : Z.div_eucl (Zpos m * 2 ^ 53) (Zpos m) = (2 ^ 53, 0)).
  { rewrite (Z.mul_comm (Zpos m)).
    pose proof (Z.div_mul (2 ^ 53) (Zpos m) ltac:(lia)) as Hq.
    pose proof (Z.mod_mul (2 ^ 53) (Zpos m) ltac:(lia)) as Hr.
    unfold Z.div, Z.modulo in Hq, Hr.
    destruct (Z.div_eucl (2 ^ 53 * Zpos m) (Zpos m)) as [q r]. by subst. }
  rewrite Hdm. rewrite xorb_nilpotent.
  assert (Hloc : new_location (Zpos m) 0 = loc_Exact).
  { unfold new_location. by destruct (Z.even (Zpos m)). }
  rewrite Hloc. vm_compute. reflexivity.
Qed.

End ZeroResults.

(** ** After the payoff *)

Section AfterPayoff.

Variable i : inputs.
Variable st : state.
Hypothesis Hrun : projection i = Some st.

(** A balance after the payment that is at most zero is [+0.0]. *)
Lemma paid_is_pos_zero (k : nat) (f : frame) :
  trace st !! k = Some f →
  py_le (f_loan f) (PyInt 0) = true →
  f_loan f = PyFloat B64.zero.
Proof.
  intros Hf Hle.
  destruct (paid_is_zero i st Hrun k f Hf Hle) as (z & Hz & Hzz).
  destruct (frame_loan i st Hrun k f Hf)
    as (x & a & l & _ & _ & _ & Hva & _ & Hpay & Hsub & Hfl & _).
  rewrite Hfl in Hz. injection Hz as <-. rewrite Hfl. f_equal.
  rewrite Hpay in Hsub.
  apply payment_inv in Hsub as [(Hc & _ & y & Hy & Hl)|(_ & _ & Hl)];
    injection Hl as ->.
  - apply sub_zero_positive; try done.
    + apply float_of_int_Some in Hy as [-> _]. apply of_Z_valid.
    + destruct (B64.is_zero a) eqn:Ha; [|done]. simpl.
      apply float_of_int_Some in Hy as [-> _]. apply of_Z_nonzero.
      destruct a; try done. unfold B64.compare_Z in Hc. injection Hc as Hc.
      intros Heq. by rewrite Heq in Hc.
  - rewrite sub_diag in *. by destruct (B64.is_infinity a || B64.is_nan a).
Qed.

(** With a payment that is not negative, every month after one that
    left no balance accrues nothing, pays nothing and leaves
    nothing. *)
Lemma after_paid (j k : nat) (g f : frame) :
  0 ≤ loan_payment i →
  trace st !! j = Some g → py_le (f_loan g) (PyInt 0) = true →
  (j < k)%nat → trace st !! k = Some f →
  f_accrued f = PyFloat B64.zero ∧
  f_loan_payment_actual f = PyFloat B64.zero ∧
  f_loan f = PyFloat B64.zero.
Proof.
  intros HP Hg Hle Hjk Hf. destruct k as [|k]; [lia|].
  destruct (lookup_lt_is_Some_2 (trace st) k) as [h Hh].
  { apply lookup_lt_Some in Hf. lia. }
  destruct (zero_from i st Hrun j k g h HP Hg Hle ltac:(lia) Hh)
    as (z & Hhl & Hz & _).
  assert (Hhz : f_loan h = PyFloat B64.zero).
  { apply (paid_is_pos_zero k h Hh). rewrite Hhl.
    rewrite py_le_nonneg_0; [done|by destruct z]. }
  exact (zero_step i st Hrun k h f B64.zero HP Hh Hhz eq_refl Hf).
Qed.

(** The month a payoff is recorded for: a month of the run, whose
    balance after the payment is [+0.0]. *)
Lemma paid_month_frame (m : Z) :
  loan_paid_off_month st = Some m →
  ∃ (j : nat) g, trace st !! j = Some g ∧ m = Z.of_nat j + 1 ∧
                 f_month g = m ∧ py_le (f_loan g) (PyInt 0) = true ∧
                 f_loan g = PyFloat B64.zero.
Proof.
  intros Hm.
  destruct (paid_month_first i st m Hrun Hm) as (j & g & Hg & Hgm & Hle & _).
  exists j, g. destruct (frame_month_year i st Hrun j g Hg) as (Hmj & _).
  repeat split; try done; [lia|by apply (paid_is_pos_zero j)].
Qed.

Lemma last_row :
  last (rows st) = row_of <$> last (trace st).
Proof. by rewrite (rows_trace i st Hrun), fmap_last. Qed.

End AfterPayoff.

(** X3: with a fixed payment that is not negative, nothing is paid in
    any month after the payoff month: the payment and the balance are
    exactly [0.0], also in the row, and the whole income of the month
    (converted to a float) is left over. *)
Theorem nothing_paid_after_payoff (i : inputs) (st : state) (m : Z) :
  projection i = Some st →
  0 ≤ loan_payment i →
  loan_paid_off_month st = Some m →
  length (trace st) = Z.to_nat (years i * 12) ∧
  rows st = row_of <$> trace st ∧
  ∀ (k : nat) (f : frame), trace st !! k = Some f → m < f_month f →
    rows st !! k = Some (row_of f) ∧
    f_loan_payment_actual f = PyFloat B64.zero ∧
    LoanPayment (row_of f) = PyFloat B64.zero ∧
    LoanBalance (row_of f) = PyFloat B64.zero ∧
    ∃ x, float_of_int (Income (row_of f)) = Some x ∧
         f_leftover f = PyFloat x ∧
         RemainingIncome (row_of f) = PyFloat (B64.round2 x).
Proof.
  intros Hrun HP Hm. split; [by apply (trace_length i)|]. split; [by apply (rows_trace i)|].
  intros k f Hf Hlt. split; [by apply (row_of_frame i)|].
  destruct (paid_month_frame i st Hrun m Hm) as (j & g & Hg & Hmj & _ & Hle & _).
  destruct (frame_month_year i st Hrun k f Hf) as (Hmk & _).
  destruct (after_paid i st Hrun j k g f HP Hg Hle ltac:(lia) Hf)
    as (_ & Hpay & Hfl).
  destruct (savings_and_investment_facts i st Hrun) as (sr & _ & Hsav).
  destruct (Hsav k f Hf) as [Hleft _].
  cbn [row_of LoanPayment LoanBalance RemainingIncome Income].
  rewrite Hpay, Hfl. split; [done|]. split; [done|]. split; [done|].
  rewrite Hpay in Hleft. simpl in Hleft. unfold float_binop in Hleft. simpl in Hleft.
  destruct (float_of_int (f_current_income f)) as [x|] eqn:Hx; [|done].
  simpl in Hleft. injection Hleft as Hleft.
  rewrite (of_Z_sub_zero _ _ Hx) in Hleft. rewrite <- Hleft. eauto.
Qed.

Lemma nothing_paid_after_payoff_witness :
  ∃ st f, projection sample_inputs = Some st ∧ trace st !! 44%nat = Some f ∧
          length (trace st) = 60%nat ∧
          rows st !! 44%nat = Some (row_of f) ∧
          LoanPayment (row_of f) = PyFloat B64.zero.
Proof.
  eexists. eexists. split; [vm_compute; reflexivity|].
  split; [vm_compute; reflexivity|].
  destruct (nothing_paid_after_payoff sample_inputs _ 44
              ltac:(vm_compute; reflexivity) ltac:(vm_compute; discriminate)
              ltac:(vm_compute; reflexivity))
    as (Hlen & _ & H).
  destruct (H 44%nat _ ltac:(vm_compute; reflexivity) ltac:(vm_compute; reflexivity))
    as (Hrow & _ & Hpay & _).
  exact (conj Hlen (conj Hrow Hpay)).
Defined.

(** The last balance and the amount paid of a run whose loan is paid
    off. *)
Lemma paid_off_final_balance (i : inputs) (st : state) (m : Z) :
  projection i = Some st →
  0 ≤ loan_payment i →
  loan_paid_off_month st = Some m →
  final_loan_balance st = Some (PyFloat B64.zero) ∧
  ∃ x, float_of_int (loan_balance i) = Some x ∧
       loan_paid i st = Some (PyFloat x).
Proof.
  intros Hrun HP Hm.
  destruct (paid_month_frame i st Hrun m Hm) as (j & g & Hg & _ & _ & Hle & Hgz).
  (* the last frame *)
  pose proof (lookup_lt_Some _ _ _ Hg) as Hj.
  destruct (lookup_lt_is_Some_2 (trace st) (pred (length (trace st))) ltac:(lia))
    as [f Hf].
  assert (Hfz : f_loan f = PyFloat B64.zero).
  { destruct (decide (j = pred (length (trace st)))) as [->|Hne].
    - rewrite Hg in Hf. by injection Hf as <-.
    - assert (Hlt : (j < pred (length (trace st)))%nat) by lia.
      by destruct (after_paid i st Hrun j _ g f HP Hg Hle Hlt Hf) as (_ & _ & ?). }
  assert (Hfinal : final_loan_balance st = Some (PyFloat B64.zero)).
  { unfold final_loan_balance, last_entry.
    rewrite (last_row i st Hrun), last_lookup, Hf. simpl. by rewrite Hfz. }
  (* the initial balance as a float *)
  destruct (lookup_lt_is_Some_2 (trace st) 0 ltac:(lia)) as [f0 Hf0].
  destruct (frame_loan i st Hrun 0 f0 Hf0) as (x & _ & _ & Hx & _).
  rewrite state_before_0 in Hx. simpl in Hx.
  split; [done|]. exists x. split; [done|].
  unfold loan_paid. rewrite Hfinal. simpl. unfold float_binop. simpl.
  rewrite Hx. simpl. by rewrite (of_Z_sub_zero _ _ Hx).
Qed.

(** X4: when a payoff month is recorded (the fixed payment not being
    negative), the last [LoanBalance] is [0.0], [loan_paid] is the
    initial balance as a float, and [loan_progress] is exactly [1.0]
    for a positive initial balance (the [int] [1] otherwise). *)
Theorem progress_after_payoff (i : inputs) (st : state) (m : Z) :
  projection i = Some st →
  0 ≤ loan_payment i →
  loan_paid_off_month st = Some m →
  final_loan_balance st = Some (PyFloat B64.zero) ∧
  (∃ x, float_of_int (loan_balance i) = Some x ∧
        loan_paid i st = Some (PyFloat x)) ∧
  loan_progress i st
    = Some (if decide (0 < loan_balance i) then PyFloat (B64.of_Z 1) else PyInt 1).
Proof.
  intros Hrun HP Hm.
  destruct (paid_off_final_balance i st m Hrun HP Hm) as (Hfinal & x & Hx & Hpaid).
  split; [done|]. split; [by exists x|].
  unfold loan_progress. rewrite Hpaid. simpl.
  destruct (decide (0 < loan_balance i)) as [Hpos|]; [|done].
  simpl. rewrite Hx. simpl.
  pose proof Hx as Hx'. apply float_of_int_Some in Hx' as [-> Hinf].
  rewrite of_Z_nonzero by lia. f_equal. f_equal.
  pose proof (of_Z_nonzero (loan_balance i) ltac:(lia)) as Hnz.
  pose proof (of_Z_valid (loan_balance i)) as Hv.
  destruct (B64.of_Z (loan_balance i)) as [s|s| |s mx ex] eqn:E; try done.
  - exfalso. destruct (loan_balance i) as [|p|p]; [done| |done].
    unfold B64.of_Z in E. simpl in E.
    pose proof (binary_round_sign false p 0) as Hs. by rewrite E in Hs.
  - apply div_diag.
Qed.

Lemma progress_after_payoff_witness :
  ∃ st, projection sample_inputs = Some st ∧
        loan_progress sample_inputs st = Some (PyFloat (B64.of_Z 1)).
Proof.
  eexists. split; [vm_compute; reflexivity|].
  exact (proj2 (proj2 (progress_after_payoff sample_inputs _ 44
                         ltac:(vm_compute; reflexivity)
                         ltac:(vm_compute; discriminate)
                         ltac:(vm_compute; reflexivity)))).
Defined.

(** X5: a run that starts without a loan (the fixed payment not being
    negative): the payoff is recorded in month 1, the message names
    month 1 of year 0, [loan_progress] is the [int] [1], and every row
    shows a balance and a payment of [0.0]. *)
Theorem run_without_loan (i : inputs) (st : state) :
  projection i = Some st →
  loan_balance i = 0 →
  0 ≤ loan_payment i →
  0 < years i →
  loan_paid_off_month st = Some 1 ∧
  payoff_message st = Some (1, 0) ∧
  loan_progress i st = Some (PyInt 1) ∧
  length (rows st) = Z.to_nat (years i * 12) ∧
  ∀ r, r ∈ rows st →
       LoanBalance r = PyFloat B64.zero ∧ LoanPayment r = PyFloat B64.zero.
Proof.
  intros Hrun Hlb HP Hyears.
  pose proof (trace_length i st Hrun) as Hlen.
  destruct (lookup_lt_is_Some_2 (trace st) 0 ltac:(lia)) as [f0 Hf0].
  destruct (frame_loan i st Hrun 0 f0 Hf0)
    as (x & a & l & Hx & _ & Ha & _ & Hfa & Hpay & Hsub & Hfl & _).
  rewrite state_before_0, Hlb in Hx. simpl in Hx. injection Hx as <-.
  rewrite accrue_zero in Ha by done. subst a.
  assert (Hmin : py_min (PyFloat B64.zero) (PyInt (loan_payment i))
                 = PyFloat B64.zero).
  { unfold py_min, py_lt, py_compare. simpl.
    destruct (Z.compare_spec (loan_payment i) 0); try done. lia. }
  unfold B64.zero in Hmin. rewrite Hmin in Hpay. rewrite Hpay in Hsub.
  simpl in Hsub. injection Hsub as <-. fold B64.zero in Hfl, Hpay.
  assert (Hle0 : py_le (f_loan f0) (PyInt 0) = true) by (by rewrite Hfl).
  destruct (frame_month_year i st Hrun 0 f0 Hf0) as (Hm0 & _).
  assert (Hpaid : loan_paid_off_month st = Some 1).
  { rewrite (paid_month_of_first i st 0 f0 Hrun); [by rewrite Hm0|].
    split; [done|]. split; [done|]. intros j' g' Hj'. lia. }
  split; [done|]. split; [unfold payoff_message; by rewrite Hpaid|]. split.
  { destruct (paid_off_final_balance i st 1 Hrun HP Hpaid) as (_ & x & _ & Hp).
    unfold loan_progress. rewrite Hp. simpl. rewrite decide_False; [done|lia]. }
  split; [by apply (rows_length i)|].
  intros r Hr. destruct (frame_of_elem i st Hrun r Hr) as (k & f & Hf & ->).
  cbn [row_of LoanBalance LoanPayment].
  destruct k as [|k].
  - rewrite Hf0 in Hf. injection Hf as <-. by rewrite Hfl, Hpay.
  - destruct (after_paid i st Hrun 0 (S k) f0 f HP Hf0 Hle0 ltac:(lia) Hf)
      as (_ & -> & ->). done.
Qed.

Lemma run_without_loan_witness :
  ∃ st, projection no_loan_inputs = Some st ∧
        loan_paid_off_month st = Some 1 ∧ payoff_message st = Some (1, 0) ∧
        length (rows st) = 60%nat.
Proof.
  eexists. split; [vm_compute; reflexivity|].
  destruct (run_without_loan no_loan_inputs _ ltac:(vm_compute; reflexivity)
              ltac:(reflexivity) ltac:(vm_compute; discriminate)
              ltac:(reflexivity)) as (H1 & H2 & _ & H3 & _).
  exact (conj H1 (conj H2 H3)).
Defined.

(** X6: the success message is shown exactly when a payoff month is
    recorded.  It names the payoff month [m], a month of the run, and
    the year [m // 12]; the row of that month carries the year
    [(m - 1) // 12 + 1], which is the same only when [m] is a multiple
    of 12 and is one more otherwise. *)
Theorem payoff_message_year (i : inputs) (st : state) :
  projection i = Some st →
  (payoff_message st = None ↔ loan_paid_off_month st = None) ∧
  ∀ m, loan_paid_off_month st = Some m →
    1 ≤ m ≤ years i * 12 ∧
    payoff_message st = Some (m, m `div` 12) ∧
    ∃ r, rows st !! Z.to_nat (m - 1) = Some r ∧ Month r = m ∧
         Year r = if decide (m `mod` 12 = 0) then m `div` 12
                  else m `div` 12 + 1.
Proof.
  intros Hrun.
  assert (Hmsg : ∀ m, loan_paid_off_month st = Some m →
            1 ≤ m ≤ years i * 12 ∧
            payoff_message st = Some (m, m `div` 12) ∧
            ∃ r, rows st !! Z.to_nat (m - 1) = Some r ∧ Month r = m ∧
                 Year r = if decide (m `mod` 12 = 0) then m `div` 12
                          else m `div` 12 + 1).
  { intros m Hm.
    destruct (paid_month_frame i st Hrun m Hm) as (j & g & Hg & Hmj & Hgm & _).
    pose proof (lookup_lt_Some _ _ _ Hg) as Hj.
    rewrite (trace_length i st Hrun) in Hj.
    destruct (frame_month_year i st Hrun j g Hg) as (_ & Hy & _).
    split; [lia|]. split.
    { unfold payoff_message. rewrite Hm. rewrite decide_False; [done|lia]. }
    exists (row_of g). replace (Z.to_nat (m - 1)) with j by lia.
    split; [by apply (row_of_frame i)|]. split; [done|].
    cbn [row_of Year]. rewrite Hy, Hgm.
    destruct (decide (m `mod` 12 = 0)); Z.to_euclidean_division_equations; lia. }
  split; [|done]. split.
  - intros Hnone. destruct (loan_paid_off_month st) as [m|] eqn:Hm; [|done].
    destruct (Hmsg m eq_refl) as (_ & H & _). by rewrite H in Hnone.
  - intros Hnone. unfold payoff_message. by rewrite Hnone.
Qed.

Lemma payoff_message_year_witness :
  ∃ st r, projection scenario_inputs = Some st ∧
          payoff_message st = Some (44, 3) ∧
          rows st !! 43%nat = Some r ∧ Year r = 4.
Proof.
  eexists. eexists. split; [vm_compute; reflexivity|].
  destruct (payoff_message_year scenario_inputs _ ltac:(vm_compute; reflexivity))
    as [_ H].
  destruct (H 44 ltac:(vm_compute; reflexivity)) as (_ & Hmsg & r & Hr & _ & Hy).
  split; [exact Hmsg|]. split; [vm_compute; reflexivity|].
  vm_compute. reflexivity.
Defined.

(** ** Nothing invested *)

Section Invested.

Variable i : inputs.
Variable st : state.
Hypothesis Hrun : projection i = Some st.

(** A month that starts with nothing invested, leaves a balance and
    brings no inheritance ends with nothing invested. *)
Lemma invested_stays_zero (k : nat) (f : frame) :
  trace st !! k = Some f →
  invested (state_before i (trace st) k) = PyFloat B64.zero →
  py_le (f_loan f) (PyInt 0) = false →
  f_inheritance_this_month f = 0 →
  f_invested f = PyFloat B64.zero ∧ f_savings_contrib f = PyFloat B64.zero.
Proof.
  intros Hf Hinv0 Hle Hinh.
  destruct (projection_spec i st Hrun) as (sr & _ & _ & _ & _ & Hit).
  destruct (iteration_inv _ _ _ _ _ _ _ (Hit k f Hf))
    as (interest & growth & grown & saved & _ & _ & _ & _ & _ & _ & Hsc &
        Hg & Hgr & Hsv & Hinv & _).
  rewrite Hle in Hsc. injection Hsc as Hsc. rewrite <- Hsc in Hsv |- *.
  remember (f_invested f) as v eqn:Ev. clear Ev.
  vm_compute in Hg. injection Hg as <-.
  rewrite Hinv0 in Hgr. vm_compute in Hgr. injection Hgr as <-.
  vm_compute in Hsv. injection Hsv as <-.
  rewrite Hinh in Hinv. vm_compute in Hinv. by injection Hinv as <-.
Qed.

End Invested.

(** X7: as long as every month so far has left a loan balance and has
    brought no inheritance, nothing is saved and nothing is invested:
    [SavedThisMonth] and [TotalInvested] are exactly [0.0]. *)
Theorem nothing_invested_early (i : inputs) (st : state) (k : nat) (f : frame) :
  projection i = Some st →
  trace st !! k = Some f →
  (∀ (j : nat) g, (j ≤ k)%nat → trace st !! j = Some g →
     py_le (f_loan g) (PyInt 0) = false ∧ Inheritance (row_of g) = 0) →
  length (trace st) = Z.to_nat (years i * 12) ∧
  rows st = row_of <$> trace st ∧
  rows st !! k = Some (row_of f) ∧
  f_invested f = PyFloat B64.zero ∧
  TotalInvested (row_of f) = PyFloat B64.zero ∧
  SavedThisMonth (row_of f) = PyFloat B64.zero.
Proof.
  intros Hrun Hf Hall.
  split; [by apply (trace_length i)|]. split; [by apply (rows_trace i)|].
  split; [by apply (row_of_frame i)|].
  enough (f_invested f = PyFloat B64.zero ∧ f_savings_contrib f = PyFloat B64.zero)
    as [H1 H2].
  { cbn [row_of TotalInvested SavedThisMonth]. by rewrite H1, H2. }
  revert f Hf Hall. induction k as [|k IH]; intros f Hf Hall;
    destruct (Hall _ f (le_n _) Hf) as [Hle Hinh]; cbn [row_of Inheritance] in Hinh.
  - by apply (invested_stays_zero i st Hrun 0 f Hf).
  - destruct (lookup_lt_is_Some_2 (trace st) k) as [h Hh].
    { apply lookup_lt_Some in Hf. lia. }
    destruct (IH h Hh) as [Hh0 _].
    { intros j g Hj. apply Hall. lia. }
    apply (invested_stays_zero i st Hrun (S k) f Hf); try done.
    destruct (loan_before_S i st k h Hh) as (_ & -> & _). done.
Qed.

Lemma nothing_invested_early_witness :
  ∃ st f, projection sample_inputs = Some st ∧ trace st !! 0%nat = Some f ∧
          length (trace st) = 60%nat ∧
          rows st !! 0%nat = Some (row_of f) ∧
          TotalInvested (row_of f) = PyFloat B64.zero.
Proof.
  eexists. eexists. split; [vm_compute; reflexivity|].
  split; [vm_compute; reflexivity|].
  refine ((λ H, conj (proj1 H)
                  (conj (proj1 (proj2 (proj2 H)))
                        (proj1 (proj2 (proj2 (proj2 (proj2 H)))))))
            (nothing_invested_early sample_inputs _ 0%nat _ _ _ _)).
  - vm_compute; reflexivity.
  - vm_compute; reflexivity.
  - intros j g Hj Hg. assert (j = 0%nat) as -> by lia.
    vm_compute in Hg. injection Hg as <-. vm_compute. split; reflexivity.
Defined.

(** X8: the [Income] of a row is 0 in every month after the retirement
    month and in every month no income period covers; otherwise it is
    the monthly income of the last period, in input order, that covers
    the month.  It is never negative when no period has a negative
    income. *)
Theorem income_column (i : inputs) (st : state) :
  projection i = Some st →
  length (rows st) = Z.to_nat (years i * 12) ∧
  ∀ r, r ∈ rows st →
    (retirement_year i * 12 < Month r → Income r = 0) ∧
    ((∀ period, period ∈ income_schedule i → ¬ covers period (Month r)) →
     Income r = 0) ∧
    (∀ (k : nat) period,
       income_schedule i !! k = Some period → covers period (Month r) →
       Month r ≤ retirement_year i * 12 →
       (∀ (k' : nat) period', (k < k')%nat →
          income_schedule i !! k' = Some period' → ¬ covers period' (Month r)) →
       Income r = monthly_income period) ∧
    (Forall (λ period, 0 ≤ monthly_income period) (income_schedule i) →
     0 ≤ Income r).
Proof.
  intros Hrun. split; [by apply (rows_length i)|]. intros r Hr.
  destruct (frame_of_elem i st Hrun r Hr) as (k & f & Hf & ->).
  destruct (frame_month_year i st Hrun k f Hf) as (_ & _ & Hinc & _).
  cbn [row_of Income Month]. rewrite Hinc.
  set (R := retirement_year i * 12). set (m := f_month f).
  repeat split.
  - intros Hlt.
    destruct (income_by_month (income_schedule i) R !! m) as [v|] eqn:Hv; [|done].
    apply income_by_month_lookup in Hv as [Hle _]. lia.
  - intros Hnone.
    destruct (income_by_month (income_schedule i) R !! m) as [v|] eqn:Hv; [|done].
    apply income_by_month_lookup in Hv as (_ & j & period & Hj & Hc & _).
    destruct (Hnone period); [|done]. by apply list_elem_of_lookup_2 in Hj.
  - intros j period Hj Hc Hle Hlast.
    assert (Hv : income_by_month (income_schedule i) R !! m
                 = Some (monthly_income period)).
    { apply income_by_month_lookup. split; [done|]. by exists j, period. }
    by rewrite Hv.
  - intros Hall.
    destruct (income_by_month (income_schedule i) R !! m) as [v|] eqn:Hv; [|done].
    apply income_by_month_lookup in Hv as (_ & j & period & Hj & _ & <- & _).
    rewrite Forall_forall in Hall. apply Hall.
    by apply list_elem_of_lookup_2 in Hj.
Qed.

Lemma income_column_witness :
  ∃ st r, projection sample_inputs = Some st ∧ rows st !! 36%nat = Some r ∧
          length (rows st) = 60%nat ∧ Month r = 37 ∧ Income r = 0.
Proof.
  eexists. eexists. split; [vm_compute; reflexivity|].
  split; [vm_compute; reflexivity|].
  destruct (income_column sample_inputs _ ltac:(vm_compute; reflexivity))
    as (Hlen & H).
  split; [exact Hlen|]. split; [vm_compute; reflexivity|].
  refine (proj1 (H _ _) _).
  - apply (list_elem_of_lookup_2 _ 36%nat). vm_compute; reflexivity.
  - vm_compute; reflexivity.
Defined.

(** X9: with the inheritances the widgets build (month [year * 12] for
    the year entered), a row carries an inheritance only in the twelfth
    month of its year, and there it carries the sum of the amounts
    entered for that year. *)
Theorem inheritance_rows (i : inputs) (st : state) (entries : list (Z * Z)) :
  projection i = Some st →
  inheritances i = inheritances_of entries →
  length (rows st) = Z.to_nat (years i * 12) ∧
  ∀ r, r ∈ rows st →
    Inheritance r = if decide (Month r = Year r * 12)
                    then py_sum (snd <$> filter (λ e, e.1 = Year r) entries)
                    else 0.
Proof.
  intros Hrun Hinhs. split; [by apply (rows_length i)|]. intros r Hr.
  destruct (frame_of_elem i st Hrun r Hr) as (k & f & Hf & ->).
  destruct (frame_month_year i st Hrun k f Hf) as (Hm & Hy & _ & Hinh).
  cbn [row_of Inheritance Month Year]. rewrite Hinh, Hinhs, Hy.
  set (m := f_month f) in *.
  assert (Hmpos : 1 ≤ m) by lia.
  clear Hinh Hinhs Hy. unfold inheritances_of.
  induction entries as [|[y a] l IH].
  - by destruct (decide (m = ((m - 1) `div` 12 + 1) * 12)).
  - rewrite fmap_cons, inheritance_this_month_cons, IH. cbn [fst snd inheritance_entry Inh.month Inh.amount].
    rewrite filter_cons. cbn [fst].
    destruct (decide (m = ((m - 1) `div` 12 + 1) * 12)) as [Hdec|Hdec].
    + destruct (decide (y * 12 = m)) as [Hym|Hym];
        destruct (decide (y = (m - 1) `div` 12 + 1)) as [Hyy|Hyy];
        rewrite ?fmap_cons, ?py_sum_cons; cbn [snd]; try lia.
    + destruct (decide (y * 12 = m)) as [Hym|Hym]; [|lia].
      exfalso. apply Hdec. subst m.
      Z.to_euclidean_division_equations. lia.
Qed.

Lemma inheritance_rows_witness :
  ∃ st r, projection sample_inputs = Some st ∧ rows st !! 23%nat = Some r ∧
          length (rows st) = 60%nat ∧ Inheritance r = 51000.
Proof.
  eexists. eexists. split; [vm_compute; reflexivity|].
  split; [vm_compute; reflexivity|].
  destruct (inheritance_rows sample_inputs _ [(2, 50000); (2, 1000)]
              ltac:(vm_compute; reflexivity) ltac:(reflexivity))
    as (Hlen & H).
  split; [exact Hlen|].
  etrans.
  - apply H. apply (list_elem_of_lookup_2 _ 23%nat). vm_compute; reflexivity.
  - vm_compute. reflexivity.
Defined.

(** ** The income mapping of a longer schedule *)

Lemma income_by_month_snoc (schedule : list income_period)
    (period : income_period) (retirement_month : Z) :
  income_by_month (schedule ++ [period]) retirement_month
  = add_period retirement_month (income_by_month schedule retirement_month) period.
Proof. unfold income_by_month. by rewrite foldl_app. Qed.

(** X10: the mapping of two schedules put one after the other is the
    mapping of the second, completed by the mapping of the first where
    the second has no key. *)
Theorem income_by_month_app
    (schedule1 schedule2 : list income_period) (retirement_month : Z) :
  income_by_month (schedule1 ++ schedule2) retirement_month
  = income_by_month schedule2 retirement_month
    ∪ income_by_month schedule1 retirement_month.
Proof.
  induction schedule2 as [|p l IH] using rev_ind.
  - rewrite app_nil_r. unfold income_by_month at 2. simpl.
    by rewrite (left_id ∅ (∪)).
  - rewrite app_assoc, !income_by_month_snoc, IH.
    apply map_eq. intros m. rewrite lookup_union, !add_period_lookup.
    destruct (decide (covers p m ∧ m ≤ retirement_month)).
    + by destruct (income_by_month schedule1 retirement_month !! m).
    + by rewrite lookup_union.
Qed.

(** X11: a period that ends before it starts, or that starts after the
    retirement month, adds nothing to the mapping. *)
Theorem period_without_months
    (schedule : list income_period) (period : income_period)
    (retirement_month : Z) :
  end_year period < start_year period ∨
  retirement_month < (start_year period - 1) * 12 + 1 →
  income_by_month (schedule ++ [period]) retirement_month
  = income_by_month schedule retirement_month.
Proof.
  intros Hempty. rewrite income_by_month_snoc.
  apply map_eq. intros m. rewrite add_period_lookup.
  rewrite decide_False; [done|]. unfold covers. lia.
Qed.

Lemma period_without_months_witness :
  income_by_month
    ([ {| start_year := 1; end_year := 2; monthly_income := 4000 |} ] ++
     [ {| start_year := 3; end_year := 4; monthly_income := 9000 |} ]) 24
  = income_by_month
      [ {| start_year := 1; end_year := 2; monthly_income := 4000 |} ] 24.
Proof. apply period_without_months. right. vm_compute. reflexivity. Defined.

(** ** Two runs *)

Section TwoRuns.

Variables i i' : inputs.
Variables st st' : state.
Hypothesis Hrun : projection i = Some st.
Hypothesis Hrun' : projection i' = Some st'.
Hypothesis Hlb : loan_balance i = loan_balance i'.
Hypothesis HP : loan_payment i = loan_payment i'.

(** The loan lines of a month depend on the initial balance and on
    the fixed payment only. *)
Lemma loan_lines_agree (k : nat) (f f' : frame) :
  trace st !! k = Some f → trace st' !! k = Some f' →
  f_accrued f = f_accrued f' ∧
  f_loan_payment_actual f = f_loan_payment_actual f' ∧
  f_loan f = f_loan f' ∧
  f_loan_paid_off_month f = f_loan_paid_off_month f'.
Proof.
  revert f f'. induction k as [|k IH]; intros f f' Hf Hf'.
  - destruct (projection_spec i st Hrun) as (sr & _ & _ & _ & _ & Hit).
    destruct (projection_spec i' st' Hrun') as (sr' & _ & _ & _ & _ & Hit').
    destruct (iteration_inv _ _ _ _ _ _ _ (Hit _ f Hf))
      as (x1 & ? & ? & ? & Hmul & Hadd & Hpay & Hsub & Hpaid & _).
    destruct (iteration_inv _ _ _ _ _ _ _ (Hit' _ f' Hf'))
      as (x1' & ? & ? & ? & Hmul' & Hadd' & Hpay' & Hsub' & Hpaid' & _).
    rewrite !state_before_0 in *. simpl in *.
    rewrite <- Hlb in Hmul', Hadd'.
    assert (x1 = x1') as <- by congruence.
    assert (Ha : f_accrued f = f_accrued f') by congruence.
    assert (Hp : f_loan_payment_actual f = f_loan_payment_actual f')
      by (by rewrite Hpay, Hpay', Ha, HP).
    assert (Hl : f_loan f = f_loan f') by congruence.
    repeat split; try done. by rewrite Hpaid, Hpaid', Hl.
  - destruct (lookup_lt_is_Some_2 (trace st) k) as [h Hh].
    { apply lookup_lt_Some in Hf. lia. }
    destruct (lookup_lt_is_Some_2 (trace st') k) as [h' Hh'].
    { apply lookup_lt_Some in Hf'. lia. }
    destruct (IH h h' Hh Hh') as (_ & _ & Hhl & Hhp).
    destruct (loan_before_S i st k h Hh) as (Hl1 & _ & Hp1).
    destruct (loan_before_S i' st' k h' Hh') as (Hl1' & _ & Hp1').
    destruct (projection_spec i st Hrun) as (sr & _ & _ & _ & _ & Hit).
    destruct (projection_spec i' st' Hrun') as (sr' & _ & _ & _ & _ & Hit').
    destruct (iteration_inv _ _ _ _ _ _ _ (Hit _ f Hf))
      as (x1 & ? & ? & ? & Hmul & Hadd & Hpay & Hsub & Hpaid & _).
    destruct (iteration_inv _ _ _ _ _ _ _ (Hit' _ f' Hf'))
      as (x1' & ? & ? & ? & Hmul' & Hadd' & Hpay' & Hsub' & Hpaid' & _).
    rewrite Hl1 in Hmul, Hadd. rewrite Hl1', <- Hhl in Hmul', Hadd'.
    rewrite Hp1 in Hpaid. rewrite Hp1', <- Hhp in Hpaid'.
    assert (x1 = x1') as <- by congruence.
    assert (Ha : f_accrued f = f_accrued f') by congruence.
    assert (Hp : f_loan_payment_actual f = f_loan_payment_actual f')
      by (by rewrite Hpay, Hpay', Ha, HP).
    assert (Hl : f_loan f = f_loan f') by congruence.
    repeat split; try done. by rewrite Hpaid, Hpaid', Hl.
Qed.

End TwoRuns.

(** X12: the loan columns do not depend on the income, the savings rate,
    the retirement year or the inheritances: two runs with the same
    initial balance and the same fixed payment show the same
    [LoanBalance] and [LoanPayment] month by month, and a payoff month
    recorded by one is recorded by the other when it simulates at least
    as many years. *)
Theorem loan_columns_ignore_income (i i' : inputs) (st st' : state) :
  projection i = Some st → projection i' = Some st' →
  loan_balance i = loan_balance i' →
  loan_payment i = loan_payment i' →
  length (rows st) = Z.to_nat (years i * 12) ∧
  length (rows st') = Z.to_nat (years i' * 12) ∧
  (∀ (k : nat) r r', rows st !! k = Some r → rows st' !! k = Some r' →
     LoanBalance r = LoanBalance r' ∧ LoanPayment r = LoanPayment r') ∧
  (years i ≤ years i' →
   ∀ m, loan_paid_off_month st = Some m → loan_paid_off_month st' = Some m).
Proof.
  intros Hrun Hrun' Hlb HP.
  split; [by apply (rows_length i)|]. split; [by apply (rows_length i')|]. split.
  - intros k r r' Hr Hr'.
    destruct (frame_of_row i st Hrun k r Hr) as (f & Hf & ->).
    destruct (frame_of_row i' st' Hrun' k r' Hr') as (f' & Hf' & ->).
    destruct (loan_lines_agree i i' st st' Hrun Hrun' Hlb HP k f f' Hf Hf')
      as (_ & Hp & Hl & _).
    cbn [row_of LoanBalance LoanPayment]. by rewrite Hp, Hl.
  - intros Hyears m Hm.
    destruct (paid_month_first i st m Hrun Hm) as (j & g & Hg & Hgm & Hle & Hmin).
    pose proof (lookup_lt_Some _ _ _ Hg) as Hj.
    rewrite (trace_length i st Hrun) in Hj.
    destruct (lookup_lt_is_Some_2 (trace st') j) as [g' Hg'].
    { rewrite (trace_length i' st' Hrun'). lia. }
    destruct (loan_lines_agree i i' st st' Hrun Hrun' Hlb HP j g g' Hg Hg')
      as (_ & _ & Hl & _).
    destruct (frame_month_year i st Hrun j g Hg) as (Hmj & _).
    destruct (frame_month_year i' st' Hrun' j g' Hg') as (Hmj' & _).
    rewrite (paid_month_of_first i' st' j g' Hrun'); [f_equal; lia|].
    split; [done|]. split; [by rewrite <- Hl|].
    intros j0 g0' Hj0 Hg0'.
    destruct (lookup_lt_is_Some_2 (trace st) j0) as [g0 Hg0].
    { apply lookup_lt_Some in Hg. lia. }
    destruct (loan_lines_agree i i' st st' Hrun Hrun' Hlb HP j0 g0 g0' Hg0 Hg0')
      as (_ & _ & Hl0 & _).
    rewrite <- Hl0. by apply (Hmin j0).
Qed.

Lemma loan_columns_ignore_income_witness :
  ∃ st st' r r',
    projection scenario_inputs = Some st ∧ projection sample_inputs = Some st' ∧
    rows st !! 0%nat = Some r ∧ rows st' !! 0%nat = Some r' ∧
    length (rows st) = 60%nat ∧
    LoanBalance r = LoanBalance r'.
Proof.
  eexists. eexists. eexists. eexists.
  split; [vm_compute; reflexivity|]. split; [vm_compute; reflexivity|].
  split; [vm_compute; reflexivity|]. split; [vm_compute; reflexivity|].
  destruct (loan_columns_ignore_income scenario_inputs sample_inputs _ _
              ltac:(vm_compute; reflexivity) ltac:(vm_compute; reflexivity)
              ltac:(reflexivity) ltac:(reflexivity))
    as (Hlen & _ & H & _).
  split; [exact Hlen|].
  exact (proj1 (H 0%nat _ _ ltac:(vm_compute; reflexivity)
                  ltac:(vm_compute; reflexivity))).
Defined.

(** X13: simulating more years only appends rows: with all other inputs
    the same, the rows of the shorter run are the first rows of the
    longer one. *)
Theorem longer_horizon_extends (i i' : inputs) (st st' : state) :
  projection i = Some st → projection i' = Some st' →
  loan_balance i = loan_balance i' →
  loan_payment i = loan_payment i' →
  savings_pct i = savings_pct i' →
  retirement_year i = retirement_year i' →
  inheritances i = inheritances i' →
  income_schedule i = income_schedule i' →
  years i ≤ years i' →
  length (rows st) = Z.to_nat (years i * 12) ∧
  length (rows st') = Z.to_nat (years i' * 12) ∧
  rows st `prefix_of` rows st'.
Proof.
  intros Hrun Hrun' Hlb HP Hpct Hret Hinh Hsched Hyears.
  split; [by apply (rows_length i)|]. split; [by apply (rows_length i')|].
  destruct (projection_spec i st Hrun) as (sr & Hsr & _ & Hrows & Hlen & Hit).
  destruct (projection_spec i' st' Hrun') as (sr' & Hsr' & _ & Hrows' & Hlen' & Hit').
  rewrite <- Hpct, Hsr in Hsr'. injection Hsr' as <-.
  assert (Htake : ∀ k : nat, (k ≤ length (trace st))%nat →
            take k (trace st) = take k (trace st')).
  { induction k as [|k IH]; intros Hk; [done|].
    destruct (lookup_lt_is_Some_2 (trace st) k ltac:(lia)) as [f Hf].
    destruct (lookup_lt_is_Some_2 (trace st') k ltac:(lia)) as [f' Hf'].
    rewrite (take_S_r _ _ _ Hf), (take_S_r _ _ _ Hf'), IH by lia.
    pose proof (Hit k f Hf) as H1. pose proof (Hit' k f' Hf') as H2.
    unfold state_before in H1, H2.
    rewrite <- Hlb, <- HP, <- Hret, <- Hinh, <- Hsched, <- IH in H2 by lia.
    rewrite H1 in H2. by injection H2 as <-. }
  exists (row_of <$> drop (length (trace st)) (trace st')).
  rewrite Hrows, Hrows', <- fmap_app. f_equal.
  rewrite <- (take_drop (length (trace st)) (trace st')) at 1.
  rewrite <- Htake by lia. by rewrite firstn_all.
Qed.

Lemma longer_horizon_extends_witness :
  ∃ st st', projection sample_inputs = Some st ∧
            projection longer_sample_inputs = Some st' ∧
            length (rows st) = 60%nat ∧ length (rows st') = 72%nat ∧
            rows st `prefix_of` rows st'.
Proof.
  eexists. eexists.
  split; [vm_compute; reflexivity|]. split; [vm_compute; reflexivity|].
  refine (longer_horizon_extends sample_inputs longer_sample_inputs
            _ _ _ _ _ _ _ _ _ _ _);
    first [reflexivity | vm_compute; reflexivity | vm_compute; discriminate].
Defined.

(** ** A payment below the accrued balance *)

Section PaymentBelow.

Abbreviation binary_round := (binary_round B64.prec B64.emax).
Abbreviation binary_normalize := (binary_normalize B64.prec B64.emax).

(** An integer of at most 53 bits converts exactly, so the order
    against a binary64 value above it stays strict. *)
Lemma small_int_below_strict (p my mv : positive) (ey ev : Z) :
  Zdigits2 (Zpos p) ≤ 53 →
  binary_round false p 0 = S754_finite false my ey →
  Zpos p * 2 ^ Z.max 0 (- ev) < Zpos mv * 2 ^ Z.max 0 ev →
  Zpos my * 2 ^ (ey - Z.min ev ey) < Zpos mv * 2 ^ (ev - Z.min ev ey).
Proof.
  intros Hd Hy Hlt. set (d := Zdigits2 (Zpos p)) in *.
  pose proof (Zdigits2_pos (Zpos p) ltac:(lia)) as Hd0. fold d in Hd0.
  destruct (binary_round_int_small false p Hd) as (my' & Hy' & Hm).
  rewrite Hy in Hy'. injection Hy' as <- ->. fold d in Hm. fold d.
  set (ez := Z.min ev (d - 53)).
  apply (scale_lt _ _ _ ez) in Hlt; [|lia|lia].
  rewrite Hm. replace (- ez) with (53 - d + (d - 53 - ez)) in Hlt by lia.
  rewrite pow2_split in Hlt by lia.
  change (Zpos (digits2_pos p)) with d. fold ez. plia.
Qed.

Lemma small_int_digits (p : positive) : Zpos p < 2 ^ 53 → Zdigits2 (Zpos p) ≤ 53.
Proof.
  intros Hp. pose proof (Zdigits2_bounds (Zpos p) ltac:(lia)) as [Hlo _].
  destruct (Z_le_gt_dec (Zdigits2 (Zpos p)) 53) as [|Hgt]; [done|exfalso].
  assert (2 ^ 53 ≤ 2 ^ (Zdigits2 (Zpos p) - 1)) by (apply Z.pow_le_mono_r; lia).
  lia.
Qed.

Lemma binary_normalize_nonzero (m e : Z) :
  m ≠ 0 → -1074 ≤ e → B64.is_zero (binary_normalize m e false) = false.
Proof.
  intros Hm He. destruct m as [|q|q]; [done| |]; simpl;
    by apply binary_round_nonzero.
Qed.

(** Subtracting a payment of at most 53 bits that is strictly below
    the balance leaves a balance that is not zero. *)
Lemma sub_small_int_nonzero (a : spec_float) (P : Z) (y : spec_float) :
  B64.valid a = true → B64.nonneg a = true →
  - 2 ^ 53 < P < 2 ^ 53 →
  B64.compare_Z P a = Some Lt →
  float_of_int P = Some y →
  B64.is_zero (B64.sub a y) = false.
Proof.
  intros Hv Hnn HP Hlt Hy. apply float_of_int_Some in Hy as [-> Hinf].
  destruct a as [sa|sa| |sa ma ea]; try done.
  - (* a zero balance: the payment is negative *)
    simpl in Hlt. injection Hlt as Hlt.
    assert (Hnz : B64.is_zero (B64.of_Z P) = false).
    { apply of_Z_nonzero. intros ->. done. }
    by destruct (B64.of_Z P) as [sy|sy| |sy my ey], sa.
  - by destruct (B64.of_Z P) as [sy|[|]| |sy my ey], sa.
  - destruct sa; [done|].
    pose proof (valid_finite_exponent _ _ _ Hv) as Hea.
    destruct (valid_finite_digits _ _ _ Hv) as [_ Hma].
    apply compare_Z_finite_lt in Hlt. simpl cond_Zopp in Hlt.
    destruct P as [|p|p]; [done| |].
    + destruct (binary_round_int_small false p (small_int_digits p ltac:(lia)))
        as (my & Hy & Hm).
      unfold B64.of_Z. simpl SpecFloat.binary_normalize. rewrite Hy.
      pose proof (Zdigits2_pos (Zpos p) ltac:(lia)) as Hd0.
      pose proof (small_int_below_strict p my ma _ ea
                    (small_int_digits p ltac:(lia)) Hy Hlt) as Hstrict.
      rewrite sub_finite. simpl cond_Zopp.
      apply binary_normalize_nonzero; [|lia].
      change (Zpos (digits2_pos p)) with (Zdigits2 (Zpos p)). lia.
    + assert (Hp : Zpos p < 2 ^ 53) by lia.
      destruct (binary_round_int_small true p (small_int_digits p Hp))
        as (my & Hy & Hm).
      unfold B64.of_Z. simpl SpecFloat.binary_normalize. rewrite Hy.
      pose proof (Zdigits2_pos (Zpos p) ltac:(lia)) as Hd0.
      rewrite sub_finite. simpl cond_Zopp.
      apply binary_normalize_nonzero; [|lia].
      change (Zpos (digits2_pos p)) with (Zdigits2 (Zpos p)).
      pose proof (pow2_pos (ea - Z.min ea (Zdigits2 (Zpos p) - 53)) ltac:(lia)).
      pose proof (pow2_pos (Zdigits2 (Zpos p) - 53
                            - Z.min ea (Zdigits2 (Zpos p) - 53)) ltac:(lia)).
      pnia.
Qed.

End PaymentBelow.

(** X14: with an initial balance that is not negative and a fixed payment
    within 53 bits, a month leaves no balance exactly when its accrued
    balance is at most the fixed payment; then the accrued balance is
    paid and the balance is [+0.0].  Otherwise the fixed payment is
    paid and a balance above zero remains. *)
Theorem paid_when_payment_covers (i : inputs) (st : state) :
  projection i = Some st →
  0 ≤ loan_balance i →
  - 2 ^ 53 < loan_payment i < 2 ^ 53 →
  length (trace st) = Z.to_nat (years i * 12) ∧
  rows st = row_of <$> trace st ∧
  ∀ (k : nat) (f : frame), trace st !! k = Some f →
    (py_le (f_loan f) (PyInt 0) = true ↔
     py_le (f_accrued f) (PyInt (loan_payment i)) = true) ∧
    (py_le (f_accrued f) (PyInt (loan_payment i)) = true →
     f_loan_payment_actual f = f_accrued f ∧ f_loan f = PyFloat B64.zero) ∧
    (py_le (f_accrued f) (PyInt (loan_payment i)) = false →
     f_loan_payment_actual f = PyInt (loan_payment i) ∧
     py_lt (PyInt 0) (f_loan f) = true).
Proof.
  intros Hrun Hlb HP. split; [by apply (trace_length i)|]. split; [by apply (rows_trace i)|].
  intros k f Hf.
  destruct (loan_nonneg i st Hrun k f Hlb Hf) as (a & l & Hfa & Hfl & Hna & Hnl).
  destruct (frame_loan i st Hrun k f Hf)
    as (x & a' & l' & _ & _ & _ & Hva & Hfa' & Hpay & Hsub & Hfl' & _).
  rewrite Hfa in Hfa'. injection Hfa' as <-.
  rewrite Hfl in Hfl'. injection Hfl' as <-.
  rewrite Hpay in Hsub. rewrite Hfa, Hfl.
  apply payment_inv in Hsub as [(Hc & Hmin & y & Hy & Hl)|(Hc & Hmin & Hl)];
    injection Hl as Hl.
  - (* the fixed payment is below the accrued balance *)
    pose proof (sub_small_int_nonzero a _ y Hva Hna HP Hc Hy) as Hnz.
    rewrite <- Hl in Hnz.
    assert (Hle : py_le (PyFloat a) (PyInt (loan_payment i)) = false).
    { unfold py_le, py_compare. by rewrite Hc. }
    assert (Hpos : py_lt (PyInt 0) (PyFloat l) = true).
    { unfold py_lt, py_compare. rewrite compare_Z_0_nonneg by done. by rewrite Hnz. }
    rewrite Hle, py_le_nonneg_0, Hnz by done. rewrite Hpay, Hmin.
    repeat split; done.
  - (* the accrued balance is paid *)
    assert (Hle : py_le (PyFloat a) (PyInt (loan_payment i)) = true).
    { unfold py_le, py_compare.
      destruct a as [sa|sa| |sa ma ea]; try done;
        by destruct (B64.compare_Z (loan_payment i) _) as [[| |]|] eqn:E. }
    assert (Hz : l = B64.zero).
    { rewrite Hl, sub_diag.
      destruct a as [sa|sa| |sa ma ea]; try done. by destruct sa. }
    rewrite Hle, Hz, Hpay, Hmin. repeat split; done.
Qed.

Lemma paid_when_payment_covers_witness :
  ∃ st f, projection sample_inputs = Some st ∧ trace st !! 43%nat = Some f ∧
          length (trace st) = 60%nat ∧
          f_loan_payment_actual f = f_accrued f ∧ f_loan f = PyFloat B64.zero.
Proof.
  eexists. eexists. split; [vm_compute; reflexivity|].
  split; [vm_compute; reflexivity|].
  destruct (paid_when_payment_covers sample_inputs _
              ltac:(vm_compute; reflexivity) ltac:(vm_compute; discriminate)
              ltac:(split; vm_compute; reflexivity))
    as (Hlen & _ & H).
  destruct (H 43%nat _ ltac:(vm_compute; reflexivity)) as (_ & Hcov & _).
  exact (conj Hlen (Hcov ltac:(vm_compute; reflexivity))).
Defined.

(** ** Savings that are not negative *)

Section SavingsSign.

Lemma savings_rate_sign (pct : Z) (sr : pynum) :
  0 ≤ pct ≤ 100 →
  py_truediv (PyInt pct) (PyInt 100) = Some sr →
  ∃ q, sr = PyFloat q ∧
       match q with
       | S754_zero false | S754_finite false _ _ => True
       | _ => False
       end.
Proof.
  intros Hpct Hsr.
  assert (Hall : forallb (λ z, match py_truediv (PyInt z) (PyInt 100) with
                                | Some (PyFloat (S754_zero false))
                                | Some (PyFloat (S754_finite false _ _)) => true
                                | _ => false
                                end) (seqZ 0 101) = true) by (vm_compute; reflexivity).
  rewrite forallb_forall in Hall.
  specialize (Hall pct). rewrite <- list_elem_of_In in Hall.
  specialize (Hall ltac:(apply elem_of_seqZ; lia)).
  rewrite Hsr in Hall. destruct sr as [|q]; [done|]. exists q. split; [done|].
  by destruct q as [[|]| | |[|]].
Qed.

Lemma mul_nonneg_rate (x q : spec_float) :
  B64.nonneg x = true → B64.is_infinity x = false →
  match q with
  | S754_zero false | S754_finite false _ _ => True
  | _ => False
  end →
  B64.nonneg (B64.mul x q) = true.
Proof.
  intros Hx Hinf Hq. destruct q as [[|]|sq| |[|] mq eq]; try done.
  - by destruct x.
  - by apply mul_nonneg_finite.
Qed.

Lemma mul_zero_rate (q : spec_float) :
  match q with
  | S754_zero false | S754_finite false _ _ => True
  | _ => False
  end →
  B64.mul B64.zero q = B64.zero.
Proof. by destruct q as [[|]|sq| |[|] mq eq]. Qed.

End SavingsSign.

(** X15: with a fixed payment, a savings rate and incomes that are not
    negative, the savings contribution of a month can be negative only
    in the payoff month itself: in every other month [SavedThisMonth]
    is not below zero. *)
Theorem savings_negative_only_at_payoff (i : inputs) (st : state) :
  projection i = Some st →
  0 ≤ loan_payment i →
  0 ≤ savings_pct i ≤ 100 →
  Forall (λ period, 0 ≤ monthly_income period) (income_schedule i) →
  length (trace st) = Z.to_nat (years i * 12) ∧
  rows st = row_of <$> trace st ∧
  ∀ (k : nat) (f : frame), trace st !! k = Some f →
    loan_paid_off_month st ≠ Some (f_month f) →
    rows st !! k = Some (row_of f) ∧
    py_lt (f_savings_contrib f) (PyInt 0) = false ∧
    py_lt (SavedThisMonth (row_of f)) (PyInt 0) = false.
Proof.
  intros Hrun HP Hpct Hinc. split; [by apply (trace_length i)|]. split; [by apply (rows_trace i)|].
  intros k f Hf Hnot. split; [by apply (row_of_frame i)|].
  enough (∃ c, f_savings_contrib f = PyFloat c ∧ B64.nonneg c = true)
    as (c & Hc & Hcn).
  { cbn [row_of SavedThisMonth]. rewrite Hc. simpl.
    split; apply py_lt_nonneg_0; [done|by apply round2_nonneg]. }
  destruct (savings_and_investment_facts i st Hrun) as (sr & Hsr & Hsav).
  destruct (Hsav k f Hf) as [Hleft Hsc].
  destruct (py_le (f_loan f) (PyInt 0)) eqn:Hle; [|by exists B64.zero].
  (* the loan is paid off: this month comes after the payoff month *)
  destruct (loan_paid_off_month st) as [m|] eqn:Hm.
  2:{ pose proof (paid_before i st Hrun (length (trace st)) (le_n _)) as Hb.
      rewrite <- (final_paid i st Hrun), Hm in Hb.
      rewrite (Hb k f (lookup_lt_Some _ _ _ Hf) Hf) in Hle. done. }
  destruct (paid_month_first i st m Hrun Hm) as (j & g & Hg & Hgm & Hgle & Hmin).
  destruct (frame_month_year i st Hrun k f Hf) as (Hmk & _ & Hincome & _).
  destruct (frame_month_year i st Hrun j g Hg) as (Hmj & _).
  assert (Hjk : (j < k)%nat).
  { destruct (Nat.lt_total j k) as [|[->|Hlt]]; [done| |].
    - rewrite Hg in Hf. injection Hf as ->. congruence.
    - rewrite (Hmin k f Hlt Hf) in Hle. done. }
  destruct (after_paid i st Hrun j k g f HP Hg Hgle Hjk Hf) as (_ & Hpay & _).
  rewrite Hpay in Hleft. simpl in Hleft. unfold float_binop in Hleft. simpl in Hleft.
  destruct (float_of_int (f_current_income f)) as [x|] eqn:Hx; [|done].
  simpl in Hleft. injection Hleft as Hleft.
  rewrite (of_Z_sub_zero _ _ Hx) in Hleft.
  destruct (savings_rate_sign _ _ Hpct Hsr) as (q & -> & Hq).
  rewrite <- Hleft in Hsc. simpl in Hsc. injection Hsc as Hsc.
  exists (B64.mul x q). split; [done|].
  apply float_of_int_Some in Hx as [-> Hinf].
  apply mul_nonneg_rate; try done. apply of_Z_nonneg.
  rewrite Hincome.
  pose proof (income_bound (income_schedule i) (retirement_year i * 12) (f_month f)) as Hb.
  destruct (income_by_month (income_schedule i) (retirement_year i * 12) !! f_month f)
    as [v|] eqn:Hv; [|done].
  simpl. apply income_by_month_lookup in Hv as (_ & n & period & Hn & _ & <- & _).
  rewrite Forall_forall in Hinc. apply Hinc. by apply list_elem_of_lookup_2 in Hn.
Qed.

Lemma savings_negative_only_at_payoff_witness :
  ∃ st f, projection sample_inputs = Some st ∧ trace st !! 44%nat = Some f ∧
          length (trace st) = 60%nat ∧
          rows st !! 44%nat = Some (row_of f) ∧
          py_lt (SavedThisMonth (row_of f)) (PyInt 0) = false.
Proof.
  eexists. eexists. split; [vm_compute; reflexivity|].
  split; [vm_compute; reflexivity|].
  destruct (savings_negative_only_at_payoff sample_inputs _
              ltac:(vm_compute; reflexivity) ltac:(vm_compute; discriminate)
              ltac:(split; vm_compute; discriminate)
              ltac:(repeat constructor; vm_compute; discriminate))
    as (Hlen & _ & H).
  destruct (H 44%nat _ ltac:(vm_compute; reflexivity) ltac:(vm_compute; discriminate))
    as (Hrow & _ & Hsaved).
  exact (conj Hlen (conj Hrow Hsaved)).
Defined.

(** ** Division *)

Section Division.

Abbreviation fexp := (SpecFloat.fexp B64.prec B64.emax).
Abbreviation binary_round_aux := (SpecFloat.binary_round_aux B64.prec B64.emax).
Abbreviation binary_round := (SpecFloat.binary_round B64.prec B64.emax).
Abbreviation SFdiv_core_binary := (SpecFloat.SFdiv_core_binary B64.prec B64.emax).

(** The quotient and the exponent a division hands to the rounding:
    the exponent is at most the canonical one, and above the least
    exponent the quotient has at least 53 bits. *)
Lemma div_core_spec (m1 m2 : positive) (e1 e2 : Z) :
  ∃ q e' l,
    SFdiv_core_binary (Zpos m1) e1 (Zpos m2) e2 = (q, e', l) ∧
    0 ≤ q ∧
    e' = Z.min (fexp (Zdigits2 (Zpos m1) + e1 - (Zdigits2 (Zpos m2) + e2)))
               (e1 - e2) ∧
    e' ≤ fexp (Zdigits2 q + e') ∧
    (-1074 < e' → 2 ^ 52 ≤ q).
Proof.
  unfold SpecFloat.SFdiv_core_binary.
  set (d1 := Zdigits2 (Zpos m1)). set (d2 := Zdigits2 (Zpos m2)).
  set (e' := Z.min (fexp (d1 + e1 - (d2 + e2))) (e1 - e2)).
  set (s := e1 - e2 - e').
  assert (Hs : 0 ≤ s) by (subst s e'; lia).
  set (m' := match s with Z0 => Zpos m1 | Zpos _ => Z.shiftl (Zpos m1) s | Zneg _ => 0 end).
  assert (Hm' : m' = Zpos m1 * 2 ^ s).
  { subst m'. destruct s as [|n|n] eqn:Es; [simpl; lia| |lia].
    by rewrite Z.shiftl_mul_pow2. }
  destruct (Z.div_eucl m' (Zpos m2)) as [q r] eqn:E.
  assert (Hq : q = m' / Zpos m2) by (unfold Z.div; by rewrite E).
  exists q, e', (new_location (Zpos m2) r). split; [done|].
  pose proof (pow2_pos s Hs) as Hps.
  assert (Hq0 : 0 ≤ q) by (rewrite Hq; apply Z.div_pos; nia).
  split; [done|]. split; [done|].
  assert (Hbig : -1074 < e' → 2 ^ 52 ≤ q).
  { intros He'.
    assert (Hfe : e' ≤ fexp (d1 + e1 - (d2 + e2))) by (subst e'; lia).
    rewrite fexp_unfold in Hfe.
    assert (Hs53 : 53 - d1 + d2 ≤ s) by (subst s; lia).
    pose proof (Zdigits2_bounds (Zpos m1) ltac:(lia)) as [Hlo1 _]. fold d1 in Hlo1.
    pose proof (Zdigits2_bounds (Zpos m2) ltac:(lia)) as [_ Hhi2]. fold d2 in Hhi2.
    pose proof (Zdigits2_pos (Zpos m1) ltac:(lia)) as Hd1. fold d1 in Hd1.
    pose proof (Zdigits2_pos (Zpos m2) ltac:(lia)) as Hd2. fold d2 in Hd2.
    rewrite Hq. apply Z.div_le_lower_bound; [lia|].
    assert (H1 : 2 ^ (52 + d2) ≤ 2 ^ (d1 - 1 + s)) by (apply Z.pow_le_mono_r; lia).
    rewrite !pow2_split in H1 by lia. rewrite Hm'.
    pose proof (pow2_pos (d1 - 1) ltac:(lia)). pose proof (pow2_pos d2 ltac:(lia)).
    assert (H52 : 0 < 2 ^ 52) by done.
    pnia. }
  split; [|done].
  rewrite fexp_unfold. destruct (Z_le_gt_dec e' (-1074)) as [|He']; [lia|].
  specialize (Hbig ltac:(lia)).
  pose proof (Zdigits2_le (2 ^ 52) q ltac:(done) Hbig) as Hd.
  change (Zdigits2 (2 ^ 52)) with 53 in Hd. lia.
Qed.

Lemma div_finite_spec (s1 s2 : bool) (m1 m2 : positive) (e1 e2 : Z) :
  let r := B64.div (S754_finite s1 m1 e1) (S754_finite s2 m2 e2) in
  B64.valid r = true ∧ B64.has_sign (xorb s1 s2) r ∧
  (-1021 < Zdigits2 (Zpos m1) + e1 - (Zdigits2 (Zpos m2) + e2) →
   -1074 < e1 - e2 → B64.is_zero r = false).
Proof.
  unfold B64.div, SFdiv.
  destruct (div_core_spec m1 m2 e1 e2) as (q & e' & l & -> & Hq0 & He' & Hfe & Hbig).
  pose proof (binary_round_aux_spec (xorb s1 s2) q e' l Hq0 Hfe) as H.
  cbv zeta in H. cbv zeta.
  pose proof (binary_round_aux_sign (xorb s1 s2) q e' l Hq0) as Hsign.
  split; [|split; [done|]].
  - destruct (binary_round_aux (xorb s1 s2) q e' l); simpl; try done. tauto.
  - intros HD He. rewrite fexp_unfold in He'.
    specialize (Hbig ltac:(lia)).
    destruct (binary_round_aux (xorb s1 s2) q e' l); try done.
    exfalso. destruct H as [_ Hz]. rewrite fexp_unfold in Hz, Hfe.
    destruct q as [|p|p]; [done| |lia].
    pose proof (Zdigits2_le (2 ^ 52) (Zpos p) ltac:(done) Hbig) as Hd.
    change (Zdigits2 (2 ^ 52)) with 53 in Hd.
    replace (Z.max (Zdigits2 (Zpos p) + e' - 53) (-1074) - e')
      with (Zdigits2 (Zpos p) - 53) in Hz by lia.
    destruct (Z_le_gt_dec (Zdigits2 (Zpos p)) 53) as [Hle|Hgt].
    + replace (Zdigits2 (Zpos p) - 53) with 0 in Hz by lia.
      rewrite Z.pow_0_r, Z.div_1_r in Hz. lia.
    + pose proof (int_large_quotient p ltac:(lia)) as H52. cbv zeta in H52. lia.
Qed.

Lemma round2_valid (x : spec_float) :
  B64.valid x = true → B64.valid (B64.round2 x) = true.
Proof.
  destruct x as [s|s| |s m e]; simpl; try done. intros _.
  destruct (B64.hundredths m e) as [|q|q]; try done.
  apply (div_finite_spec s false q 100 0 0).
Qed.

End Division.

(** ** A final balance above the initial one *)

Section NegativeProgress.

Abbreviation binary_round := (SpecFloat.binary_round B64.prec B64.emax).
Abbreviation fexp := (SpecFloat.fexp B64.prec B64.emax).

Lemma py_lt_negative (x : spec_float) :
  B64.has_sign true x → B64.is_zero x = false →
  py_lt (PyFloat x) (PyInt 0) = true.
Proof.
  destruct x as [s|s| |s m e]; simpl; try done.
  - by intros ->.
  - intros -> _. unfold py_lt, py_compare. rewrite compare_Z_finite.
    assert (H : (0 * 2 ^ Z.max 0 (- e) ?= cond_Zopp true (Zpos m) * 2 ^ Z.max 0 e)
                = Gt).
    { apply Z.compare_gt_iff. simpl cond_Zopp.
      pose proof (pow2_pos (Z.max 0 e) ltac:(lia)) as Hp. pnia. }
    by rewrite H.
Qed.

(** An initial balance [z] of at most 53 bits, taken off a final
    balance [v] that is above it, leaves a negative value, and that
    value divided by the initial balance is negative too. *)
Lemma progress_negative (z : Z) (x v : spec_float) :
  0 < z < 2 ^ 53 →
  float_of_int z = Some x →
  B64.valid v = true →
  B64.compare_Z z v = Some Lt →
  py_lt (PyFloat (B64.sub x v)) (PyInt 0) = true ∧
  py_lt (PyFloat (B64.div (B64.sub x v) x)) (PyInt 0) = true.
Proof.
  intros Hz Hx Hv Hlt. apply float_of_int_Some in Hx as [-> _].
  destruct z as [|p|p]; try lia.
  pose proof (small_int_digits p ltac:(lia)) as Hdp.
  destruct (binary_round_int_small false p Hdp) as (mx & Hx & Hmx).
  pose proof (Zdigits2_pos (Zpos p) ltac:(lia)) as Hdp0.
  set (dp := Zdigits2 (Zpos p)) in *.
  unfold B64.of_Z. simpl SpecFloat.binary_normalize. rewrite Hx.
  destruct v as [sv|sv| |sv mv ev]; try done.
  - destruct sv; [done|]. split; [done|]. by destruct mx.
  - pose proof (valid_finite_exponent _ _ _ Hv) as Hev.
    destruct (valid_finite_digits _ _ _ Hv) as [_ Hmv].
    apply compare_Z_finite_lt in Hlt.
    destruct sv; simpl cond_Zopp in Hlt.
    { pose proof (pow2_pos (Z.max 0 ev) ltac:(lia)).
      pose proof (pow2_pos (Z.max 0 (- ev)) ltac:(lia)). pnia. }
    pose proof (small_int_below_strict p mx mv _ ev Hdp Hx Hlt) as Hstrict.
    fold dp in Hstrict.
    (* the final balance is at least 1, so its exponent is not small *)
    assert (Hev52 : -52 ≤ ev).
    { destruct (Z_le_gt_dec (-52) ev) as [|Hgt]; [done|exfalso].
      replace (Z.max 0 ev) with 0 in Hlt by lia.
      replace (Z.max 0 (- ev)) with (- ev) in Hlt by lia.
      rewrite Z.pow_0_r, Z.mul_1_r in Hlt.
      assert (2 ^ 53 ≤ 2 ^ (- ev)) by (apply Z.pow_le_mono_r; lia).
      pose proof (pow2_pos (- ev) ltac:(lia)). pnia. }
    rewrite sub_finite. simpl cond_Zopp.
    set (e0 := Z.min (dp - 53) ev).
    rewrite (Z.min_comm ev (dp - 53)) in Hstrict. fold e0 in Hstrict.
    destruct (Zpos mx * 2 ^ (dp - 53 - e0) - Zpos mv * 2 ^ (ev - e0))
      as [|n|n] eqn:HM; [lia|lia|].
    simpl SpecFloat.binary_normalize.
    pose proof (binary_round_spec true n e0) as Hd. cbv zeta in Hd.
    pose proof (binary_round_nonzero true n e0 ltac:(lia)) as Hnz.
    pose proof (Zdigits2_pos (Zpos n) ltac:(lia)) as Hdn.
    destruct (binary_round true n e0) as [sd|sd| |sd md ed] eqn:Ed; try done.
    + destruct Hd as [-> _]. done.
    + destruct Hd as (-> & Hbd & [HE _] & _). rewrite fexp_unfold in HE.
      split; [by apply py_lt_negative|].
      destruct (div_finite_spec true false md mx ed (dp - 53))
        as (_ & Hsign & Hnzq).
      apply py_lt_negative; [done|]. apply Hnzq.
      * pose proof (Zdigits2_pos (Zpos md) ltac:(lia)).
        assert (Zdigits2 (Zpos mx) = 53) as ->; [|lia].
        rewrite Hmx, Zdigits2_mul_pow2 by lia. fold dp. lia.
      * lia.
Qed.

End NegativeProgress.

(** The last [LoanBalance] of a run is a well-formed float. *)
Lemma final_loan_balance_valid (i : inputs) (st : state) (F : pynum) :
  projection i = Some st →
  final_loan_balance st = Some F →
  ∃ v, F = PyFloat v ∧ B64.valid v = true.
Proof.
  intros Hrun HF. unfold final_loan_balance, last_entry in HF.
  rewrite (last_row i st Hrun), last_lookup in HF.
  destruct (trace st !! pred (length (trace st))) as [f|] eqn:Hf; [|done].
  simpl in HF. injection HF as <-.
  destruct (frame_loan i st Hrun _ f Hf)
    as (x & a & l & _ & _ & _ & _ & _ & _ & _ & Hfl & Hvl & Hnn & _).
  cbn [row_of LoanBalance]. rewrite Hfl.
  assert (Hmax : py_max (PyFloat l) (PyInt 0) = PyFloat l).
  { unfold py_max.
    destruct Hnn as [Hnn| ->]; [by rewrite py_lt_nonneg_0|by rewrite py_lt_nan_l]. }
  rewrite Hmax. simpl. exists (B64.round2 l). split; [done|]. by apply round2_valid.
Qed.

(** X16: when the last [LoanBalance] is above a positive initial balance
    (of at most 53 bits), as it is when the fixed payment does not
    cover the interest, [loan_paid] and [loan_progress] are both below
    zero. *)
Theorem progress_negative_when_loan_grew (i : inputs) (st : state) (F : pynum) :
  projection i = Some st →
  0 < loan_balance i < 2 ^ 53 →
  final_loan_balance st = Some F →
  py_lt (PyInt (loan_balance i)) F = true →
  ∃ paid progress,
    loan_paid i st = Some paid ∧ py_lt paid (PyInt 0) = true ∧
    loan_progress i st = Some progress ∧ py_lt progress (PyInt 0) = true.
Proof.
  intros Hrun Hlb HF Hlt.
  destruct (final_loan_balance_valid i st F Hrun HF) as (v & -> & Hv).
  destruct (float_of_int_small (loan_balance i)) as [x Hx].
  { assert (2 ^ 53 ≤ 2 ^ 1023) by (apply Z.pow_le_mono_r; lia). lia. }
  assert (Hc : B64.compare_Z (loan_balance i) v = Some Lt).
  { unfold py_lt, py_compare in Hlt.
    by destruct (B64.compare_Z (loan_balance i) v) as [[| |]|]. }
  destruct (progress_negative _ x v Hlb Hx Hv Hc) as [Hpaid Hprog].
  assert (Hnz : B64.is_zero x = false).
  { apply float_of_int_Some in Hx as [-> _]. apply of_Z_nonzero. lia. }
  exists (PyFloat (B64.sub x v)), (PyFloat (B64.div (B64.sub x v) x)).
  assert (Hp : loan_paid i st = Some (PyFloat (B64.sub x v))).
  { unfold loan_paid. rewrite HF. simpl. unfold float_binop. simpl. by rewrite Hx. }
  split; [done|]. split; [done|]. split; [|done].
  unfold loan_progress. rewrite Hp. simpl.
  rewrite decide_True by lia. simpl. rewrite Hx. simpl. by rewrite Hnz.
Qed.

Lemma progress_negative_when_loan_grew_witness :
  ∃ st progress, projection growing_loan_inputs = Some st ∧
                 loan_progress growing_loan_inputs st = Some progress ∧
                 py_lt progress (PyInt 0) = true.
Proof.
  eexists.
  destruct (progress_negative_when_loan_grew growing_loan_inputs _ _
              ltac:(vm_compute; reflexivity)
              ltac:(split; vm_compute; reflexivity)
              ltac:(vm_compute; reflexivity)
              ltac:(vm_compute; reflexivity))
    as (paid & progress & _ & _ & Hp & Hneg).
  exists progress. split; [vm_compute; reflexivity|]. split; [exact Hp|exact Hneg].
Defined.

(** X17: with a fixed payment that is not negative and a savings rate
    between 0 and 100, nothing is saved in a month after the retirement
    month, the payoff month excepted: [SavedThisMonth] is exactly
    [0.0]. *)
Theorem nothing_saved_after_retirement (i : inputs) (st : state) :
  projection i = Some st →
  0 ≤ loan_payment i →
  0 ≤ savings_pct i ≤ 100 →
  length (trace st) = Z.to_nat (years i * 12) ∧
  rows st = row_of <$> trace st ∧
  ∀ (k : nat) (f : frame), trace st !! k = Some f →
    retirement_year i * 12 < f_month f →
    loan_paid_off_month st ≠ Some (f_month f) →
    rows st !! k = Some (row_of f) ∧
    Income (row_of f) = 0 ∧
    f_savings_contrib f = PyFloat B64.zero ∧
    SavedThisMonth (row_of f) = PyFloat B64.zero.
Proof.
  intros Hrun HP Hpct. split; [by apply (trace_length i)|]. split; [by apply (rows_trace i)|].
  intros k f Hf Hret Hnot. split; [by apply (row_of_frame i)|].
  destruct (frame_month_year i st Hrun k f Hf) as (Hmk & _ & Hincome & _).
  assert (Hinc0 : f_current_income f = 0).
  { rewrite Hincome.
    destruct (income_by_month (income_schedule i) (retirement_year i * 12) !! f_month f)
      as [v|] eqn:Hv; [|done].
    apply income_by_month_lookup in Hv as [Hle _]. lia. }
  split; [done|].
  enough (f_savings_contrib f = PyFloat B64.zero) as Hsc0.
  { split; [done|]. cbn [row_of SavedThisMonth]. by rewrite Hsc0. }
  destruct (savings_and_investment_facts i st Hrun) as (sr & Hsr & Hsav).
  destruct (Hsav k f Hf) as [Hleft Hsc].
  destruct (py_le (f_loan f) (PyInt 0)) eqn:Hle; [|done].
  destruct (loan_paid_off_month st) as [m|] eqn:Hm.
  2:{ pose proof (paid_before i st Hrun (length (trace st)) (le_n _)) as Hb.
      rewrite <- (final_paid i st Hrun), Hm in Hb.
      rewrite (Hb k f (lookup_lt_Some _ _ _ Hf) Hf) in Hle. done. }
  destruct (paid_month_first i st m Hrun Hm) as (j & g & Hg & Hgm & Hgle & Hmin).
  destruct (frame_month_year i st Hrun j g Hg) as (Hmj & _).
  assert (Hjk : (j < k)%nat).
  { destruct (Nat.lt_total j k) as [|[->|Hlt]]; [done| |].
    - rewrite Hg in Hf. injection Hf as ->. congruence.
    - rewrite (Hmin k f Hlt Hf) in Hle. done. }
  destruct (after_paid i st Hrun j k g f HP Hg Hgle Hjk Hf) as (_ & Hpay & _).
  rewrite Hpay, Hinc0 in Hleft.
  change (py_sub (PyInt 0) (PyFloat B64.zero)) with (Some (PyFloat B64.zero)) in Hleft.
  injection Hleft as Hleft.
  destruct (savings_rate_sign _ _ Hpct Hsr) as (q & -> & Hq).
  rewrite <- Hleft in Hsc. simpl in Hsc. injection Hsc as Hsc.
  rewrite <- Hsc. f_equal. by apply mul_zero_rate.
Qed.

Lemma nothing_saved_after_retirement_witness :
  ∃ st f, projection sample_inputs = Some st ∧ trace st !! 50%nat = Some f ∧
          length (trace st) = 60%nat ∧
          rows st !! 50%nat = Some (row_of f) ∧
          SavedThisMonth (row_of f) = PyFloat B64.zero.
Proof.
  eexists. eexists. split; [vm_compute; reflexivity|].
  split; [vm_compute; reflexivity|].
  destruct (nothing_saved_after_retirement sample_inputs _
              ltac:(vm_compute; reflexivity) ltac:(vm_compute; discriminate)
              ltac:(split; vm_compute; discriminate))
    as (Hlen & _ & H).
  destruct (H 50%nat _ ltac:(vm_compute; reflexivity) ltac:(vm_compute; reflexivity)
              ltac:(vm_compute; discriminate))
    as (Hrow & _ & _ & Hsaved).
  exact (conj Hlen (conj Hrow Hsaved)).
Defined.

(** X18: on valid inputs the progress values are computed without an
    error: there is a last row, the initial balance converts to a
    float, and the division is only made by a balance that is not
    zero.  The progress value is a float for a positive initial balance
    and the [int] [1] otherwise. *)
Theorem progress_defined (i : inputs) :
  valid_inputs i →
  ∃ st F paid progress,
    projection i = Some st ∧
    final_loan_balance st = Some (PyFloat F) ∧
    loan_paid i st = Some (PyFloat paid) ∧
    loan_progress i st = Some progress ∧
    (if decide (0 < loan_balance i)
     then ∃ x, float_of_int (loan_balance i) = Some x ∧
               progress = PyFloat (B64.div paid x)
     else progress = PyInt 1) ∧
    is_Some (final_investment st).
Proof.
  intros Hvalid. destruct (projection_total i Hvalid) as [st Hrun].
  destruct Hvalid as [Hlb _ _ Hyears _ _ _ _ _].
  pose proof (trace_length i st Hrun) as Hlen.
  destruct (lookup_lt_is_Some_2 (trace st) (pred (length (trace st))) ltac:(lia))
    as [f Hf].
  assert (Hlast : last (rows st) = Some (row_of f)).
  { by rewrite (last_row i st Hrun), last_lookup, Hf. }
  assert (HF : final_loan_balance st = Some (LoanBalance (row_of f))).
  { unfold final_loan_balance, last_entry. by rewrite Hlast. }
  destruct (final_loan_balance_valid i st _ Hrun HF) as (v & Hv & _).
  rewrite Hv in HF.
  destruct (float_of_int_widget (loan_balance i)) as [x Hx].
  { assert (2 ^ 53 < 2 ^ 56) by done. lia. }
  assert (Hp : loan_paid i st = Some (PyFloat (B64.sub x v))).
  { unfold loan_paid. rewrite HF. simpl. unfold float_binop. simpl. by rewrite Hx. }
  exists st, v, (B64.sub x v).
  exists (if decide (0 < loan_balance i)
          then PyFloat (B64.div (B64.sub x v) x) else PyInt 1).
  split; [done|]. split; [done|]. split; [done|]. split; [|split].
  - unfold loan_progress. rewrite Hp. simpl.
    destruct (decide (0 < loan_balance i)) as [Hpos|]; [|done].
    simpl. rewrite Hx. simpl.
    pose proof Hx as Hx'. apply float_of_int_Some in Hx' as [-> _].
    by rewrite of_Z_nonzero by lia.
  - destruct (decide (0 < loan_balance i)); [by exists x|done].
  - unfold final_investment, last_entry. rewrite Hlast. by eexists.
Qed.

Lemma progress_defined_witness :
  ∃ st progress, projection growing_loan_inputs = Some st ∧
                 loan_progress growing_loan_inputs st = Some progress.
Proof.
  assert (Hvalid : valid_inputs growing_loan_inputs).
  { split; simpl; try done; try lia. repeat constructor; done. }
  destruct (progress_defined growing_loan_inputs Hvalid)
    as (st & F & paid & progress & Hrun & _ & _ & Hp & _).
  exists st, progress. exact (conj Hrun Hp).
Defined.
